(** * qubic-tx-search: a shallow embedding of [search_qutil_tx.py]

    The scanner walks a range of ticks, fetches the transactions of each
    tick over HTTP, decodes the QUTIL payout payload of the transactions
    that pass a filter and records the payouts of a target amount.

    Layout of this development:
    - Python values: exceptions, [str], [bytes], slices, JSON documents;
    - the payload decoder ([find_tail_amounts], [decode_qutil_outputs]);
    - the fetch client ([polite_get], [get_tick_transactions]);
    - the two stores ([load_state], [save_state], [append_match]);
    - the scan driver ([scan]);
    - the properties.

    Left out: what is written to the console and the progress bar; how
    long the client sleeps (a sleep that returns is one event, a sleep that
    raises is an exception); the rate limiter, whose wait is never negative;
    the text of URLs and of files, a file being the JSON document it holds;
    and failures of the writes to disk: every path is taken to be one that
    can be opened for writing. *)

From Stdlib Require Import ZArith String Ascii List Bool Lia.
From Stdlib Require Import Strings.Byte Floats.SpecFloat.
Import ListNotations.

Open Scope Z_scope.

(** ** Exceptions and results *)

(** The exception classes the program can meet.  [BinasciiError] is
    [binascii.Error]; in Python it is a subclass of [ValueError], so an
    [except binascii.Error] clause catches it but not a plain
    [ValueError]. *)
Inductive exn : Type :=
| BinasciiError
| ValueError
| TypeError
| AttributeError
| OverflowError
| RequestException
| HTTPError (status : Z)
| JSONDecodeError
| OSError.

Inductive outcome (A : Type) : Type :=
| Ret (a : A)
| Raise (e : exn).

Arguments Ret {A} a.
Arguments Raise {A} e.

Definition is_binascii_error (e : exn) : bool :=
  match e with BinasciiError => true | _ => false end.

(** ** [bytes] and [str] *)

(** A [bytes] object is a list of bytes.  A [str] is the list of its code
    points; the characters of [string] cover the code points 0..255, which
    is what is needed to tell an ASCII character (below 128) from one that
    is not. *)
Definition bytes : Type := list byte.

Definition byte_val (b : byte) : Z := Z.of_N (Byte.to_N b).

Definition byte_of_Z (z : Z) : byte :=
  match Byte.of_N (Z.to_N (z mod 256)) with
  | Some b => b
  | None => x00
  end.

(** [int.from_bytes(b, "little", signed=False)] *)
Fixpoint int_from_bytes_le (b : bytes) : Z :=
  match b with
  | [] => 0
  | x :: rest => byte_val x + 256 * int_from_bytes_le rest
  end.

(** [x.to_bytes(n, "little")] for [0 <= x < 256^n] *)
Fixpoint int_to_bytes_le (n : nat) (x : Z) : bytes :=
  match n with
  | O => []
  | S n' => byte_of_Z x :: int_to_bytes_le n' (x / 256)
  end.

(** Python's slice [l[a:b]]: a negative bound counts from the end, and both
    bounds are clamped to [0 .. len(l)]. *)
Definition slice_index (len i : Z) : Z :=
  if i <? 0 then Z.max 0 (i + len) else Z.min i len.

Definition slice {A : Type} (l : list A) (a b : Z) : list A :=
  let len := Z.of_nat (length l) in
  let lo := slice_index len a in
  let hi := slice_index len b in
  firstn (Z.to_nat (hi - lo)) (skipn (Z.to_nat lo) l).

(** [range(n)] *)
Definition range (n : Z) : list Z := map Z.of_nat (seq 0 (Z.to_nat n)).

(** *** Hexadecimal text *)

Definition is_ascii (c : ascii) : bool := (N_of_ascii c <? 128)%N.

Definition str_is_ascii (s : string) : bool :=
  forallb is_ascii (list_ascii_of_string s).

(** The value of a hexadecimal digit, in either case. *)
Definition hex_digit (c : ascii) : option Z :=
  let n := Z.of_N (N_of_ascii c) in
  if (48 <=? n) && (n <=? 57) then Some (n - 48)
  else if (97 <=? n) && (n <=? 102) then Some (n - 87)
  else if (65 <=? n) && (n <=? 70) then Some (n - 55)
  else None.

Fixpoint unhex_pairs (s : string) : option bytes :=
  match s with
  | EmptyString => Some []
  | String _ EmptyString => None
  | String hi (String lo rest) =>
      match hex_digit hi, hex_digit lo, unhex_pairs rest with
      | Some h, Some l, Some bs => Some (byte_of_Z (16 * h + l) :: bs)
      | _, _, _ => None
      end
  end.

(** [binascii.unhexlify] on a [str]: a string with a character outside
    ASCII is refused with [ValueError]; an odd length or a character that is
    not a hexadecimal digit is refused with [binascii.Error]. *)
Definition unhexlify (s : string) : outcome bytes :=
  if negb (str_is_ascii s) then Raise ValueError
  else if Nat.odd (String.length s) then Raise BinasciiError
  else match unhex_pairs s with
       | Some raw => Ret raw
       | None => Raise BinasciiError
       end.

Definition hex_char (d : Z) : ascii :=
  ascii_of_N (Z.to_N (if d <? 10 then 48 + d else 87 + d)).

(** [bytes.hex()] *)
Fixpoint hexlify (raw : bytes) : string :=
  match raw with
  | [] => EmptyString
  | b :: rest =>
      String (hex_char (byte_val b / 16))
        (String (hex_char (byte_val b mod 16)) (hexlify rest))
  end.

(** ** JSON documents *)

(** What [json.load] and [Response.json] build: [None], [bool], [int],
    [float], [str], [list] and [dict].  A [dict] keeps its keys in insertion
    order, so it is an association list. *)
#[warnings="-register-all"]
Inductive json : Type :=
| JNull
| JBool (b : bool)
| JInt (z : Z)
| JFloat (f : spec_float)
| JStr (s : string)
| JArr (items : list json)
| JObj (fields : list (string * json)).

(** [d.get(k)] on the fields of a [dict] *)
Fixpoint dict_get (d : list (string * json)) (k : string) : option json :=
  match d with
  | [] => None
  | (k', v) :: rest => if String.eqb k' k then Some v else dict_get rest k
  end.

(** [d[k] = v]: an existing key keeps its place *)
Fixpoint dict_set (d : list (string * json)) (k : string) (v : json)
  : list (string * json) :=
  match d with
  | [] => [(k, v)]
  | (k', v') :: rest =>
      if String.eqb k' k then (k', v) :: rest
      else (k', v') :: dict_set rest k v
  end.

(** [k in d] *)
Definition dict_mem (d : list (string * json)) (k : string) : bool :=
  match dict_get d k with Some _ => true | None => false end.

(** Truth value of a JSON value ([bool(v)]). *)
Definition truthy (v : json) : bool :=
  match v with
  | JNull => false
  | JBool b => b
  | JInt z => negb (z =? 0)
  | JFloat (S754_zero _) => false
  | JFloat _ => true
  | JStr s => negb (String.eqb s EmptyString)
  | JArr l => match l with [] => false | _ => true end
  | JObj d => match d with [] => false | _ => true end
  end.

(** [a or b] *)
Definition py_or (a b : json) : json := if truthy a then a else b.

(** [v == s] for a [str] [s] *)
Definition eq_str (v : json) (s : string) : bool :=
  match v with JStr s' => String.eqb s' s | _ => false end.

(** [v == z] for an [int] [z]: an [int] compares by value, [True] is [1]
    and [False] is [0], and a [float] is equal to an [int] when it has the
    same value. *)
Definition float_eq_int (f : spec_float) (z : Z) : bool :=
  match f with
  | S754_zero _ => z =? 0
  | S754_finite s m e =>
      let mag := if s then - z else z in
      if 0 <=? e then Z.pos m * 2 ^ e =? mag
      else Z.pos m =? mag * 2 ^ (- e)
  | _ => false
  end.

Definition eq_int (v : json) (z : Z) : bool :=
  match v with
  | JInt z' => z' =? z
  | JBool b => (if b then 1 else 0) =? z
  | JFloat f => float_eq_int f z
  | _ => false
  end.

(** ** Payload decoder *)

(** [0 < x < 10**12] *)
Definition plausible (x : Z) : bool := (0 <? x) && (x <? 10 ^ 12).

(** The [while i >= 8] loop of [find_tail_amounts].  Each turn takes 8 off
    [i], so [fuel] bounds the number of turns; [find_tail_loop_fuel] below
    shows that the fuel given by [find_tail_amounts] is never used up. *)
Fixpoint find_tail_loop (fuel : nat) (raw : bytes) (i : Z) (chunks : list Z)
  : Z * list Z :=
  match fuel with
  | O => (i, chunks)
  | S fuel' =>
      if 8 <=? i then
        let x := int_from_bytes_le (slice raw (i - 8) i) in
        if plausible x then find_tail_loop fuel' raw (i - 8) (chunks ++ [x])
        else (i, chunks)
      else (i, chunks)
  end.

Definition find_tail_amounts (raw : bytes) : Z * Z * list Z :=
  let '(i, chunks) :=
    find_tail_loop (S (length raw)) raw (Z.of_nat (length raw)) [] in
  (i, Z.of_nat (length chunks), rev chunks).

(** [binascii.unhexlify] on any JSON value: only a [str] is accepted. *)
Definition unhexlify_value (v : json) : outcome bytes :=
  match v with
  | JStr s => unhexlify s
  | _ => Raise TypeError
  end.

Definition decode_qutil_outputs (input_hex : json) : outcome (list (bytes * Z)) :=
  match unhexlify_value input_hex with
  | Raise e => if is_binascii_error e then Ret [] else Raise e
  | Ret raw =>
      let '(amt_start, n, amounts) := find_tail_amounts raw in
      if n =? 0 then Ret []
      else
        let addr_block := slice raw (amt_start - n * 32) amt_start in
        if negb (Z.of_nat (length addr_block) =? n * 32) then Ret []
        else
          let recipients :=
            map (fun i => slice addr_block (i * 32) ((i + 1) * 32)) (range n) in
          Ret (combine recipients amounts)
  end.

(** ** The world the scanner runs in *)

(** What a path is on disk, as the reads of the program see it:
    - [Absent]: there is nothing at the path;
    - [Inaccessible]: the path cannot be examined: [stat] fails with an
      [OSError] that [Path.exists] does not take for absence (no search
      permission on a directory of the path, a name that is too long);
    - [NotReadable]: a file is there but cannot be opened for reading (no
      read permission); it can be written;
    - [Garbled]: a file whose text is not JSON (an empty file is one);
    - [Holds doc]: a file whose text is the JSON document [doc].
    [json.dump] followed by [json.load] gives back the document that was
    written, so a file that was written by the program is kept as the
    document itself.  Writes are taken to succeed; in a run of [scan] a
    path that is [Inaccessible] is never written, the existence test raises
    before. *)
Inductive file : Type :=
| Absent
| Inaccessible
| NotReadable
| Garbled
| Holds (doc : json).

(** A response of the archiver, as far as the program looks at it: the
    status code, the [Retry-After] header ([None] when there is none) and
    the body read by [Response.json] ([None] when the body is not JSON). *)
Record response : Type := mkResponse {
  status_code : Z;
  retry_after : option string;
  json_body : option json
}.

(** What [session.get] does: it raises [requests.RequestException] or
    returns a response. *)
Inductive reply : Type :=
| NetworkFailure
| Reply (r : response).

(** What can be observed of a run, in order. *)
Inductive event : Type :=
| EvGet (tick : Z)                (* session.get on the URL of a tick *)
| EvSleep                         (* a time.sleep of a retry that returned *)
| EvWarn (tick : Z) (e : exn)     (* the warning of a skipped tick *)
| EvDecode (tx input_hex : json)  (* a call of decode_qutil_outputs *)
| EvAppend (rec : json)           (* a call of append_match *)
| EvSave (state : json).          (* a call of save_state *)

Record world : Type := mkWorld {
  state_file : file;
  results_file : file;
  sent : nat;            (* requests issued so far *)
  trace : list event
}.

Definition set_state_file (f : file) (w : world) : world :=
  mkWorld f (results_file w) (sent w) (trace w).

Definition set_results_file (f : file) (w : world) : world :=
  mkWorld (state_file w) f (sent w) (trace w).

Definition set_sent (n : nat) (w : world) : world :=
  mkWorld (state_file w) (results_file w) n (trace w).

Definition add_event (ev : event) (w : world) : world :=
  mkWorld (state_file w) (results_file w) (sent w) (trace w ++ [ev]).

(** The constants of [config.py] and of the environment. *)
Class Config : Type := mkConfig {
  START_TICK : Z;
  END_TICK : Z;
  TARGET_AMOUNT : Z;
  QUTIL_DEST_ID : option string;
  EXPLORER_BASE : string
}.

(** What the run depends on and the program does not decide: the replies
    of the archiver, by request number; the wall clock, by the number of
    events so far; how [str.format] prints a value; [int] on a [str] ([None]
    for [ValueError]); [float] on a [str] ([None] for [ValueError]); and the
    exception [time.sleep] raises on a [float] it refuses ([None] when it
    sleeps: CPython refuses a negative length and NaN with [ValueError] and
    a length too large for its clock with [OverflowError]). *)
Class Runtime : Type := mkRuntime {
  net : nat -> reply;
  utcnow : nat -> string;
  format_value : json -> string;
  int_of_str : string -> option Z;
  float_of_str : string -> option spec_float;
  sleep_error : spec_float -> option exn
}.

(** *** Computations *)

(** A computation ends with a value, ends with an exception, or is still
    running when its fuel is used up. *)
Inductive result (A : Type) : Type :=
| Val (a : A)
| Exc (e : exn)
| Pending.

Arguments Val {A} a.
Arguments Exc {A} e.
Arguments Pending {A}.

Definition M (A : Type) : Type := world -> result A * world.

Definition ret {A : Type} (a : A) : M A := fun w => (Val a, w).

Definition raise {A : Type} (e : exn) : M A := fun w => (Exc e, w).

Definition pending {A : Type} : M A := fun w => (Pending, w).

Definition bind {A B : Type} (c : M A) (k : A -> M B) : M B :=
  fun w =>
    match c w with
    | (Val a, w') => k a w'
    | (Exc e, w') => (Exc e, w')
    | (Pending, w') => (Pending, w')
    end.

Notation "x <- c ;; k" := (bind c (fun x => k))
  (at level 61, c at next level, right associativity).
Notation "c ;;; k" := (bind c (fun _ => k))
  (at level 61, right associativity).

Definition lift {A : Type} (o : outcome A) : M A :=
  match o with
  | Ret a => ret a
  | Raise e => raise e
  end.

(** [try: c  except Exception as e: ...]: the exception, if any, is handed
    to the caller as a value. *)
Definition attempt {A : Type} (c : M A) : M (outcome A) :=
  fun w =>
    match c w with
    | (Val a, w') => (Val (Ret a), w')
    | (Exc e, w') => (Val (Raise e), w')
    | (Pending, w') => (Pending, w')
    end.

Definition emit (ev : event) : M unit := fun w => (Val tt, add_event ev w).

Fixpoint for_each {A : Type} (l : list A) (body : A -> M unit) : M unit :=
  match l with
  | [] => ret tt
  | x :: rest => body x ;;; for_each rest body
  end.

(** *** Attribute access on JSON values *)

(** [v.get(k, dflt)]: only a [dict] has [get]. *)
Definition value_get (v : json) (k : string) (dflt : json) : outcome json :=
  match v with
  | JObj d => Ret (match dict_get d k with Some x => x | None => dflt end)
  | _ => Raise AttributeError
  end.

(** [k in v] for a [dict] [v] *)
Definition value_mem (v : json) (k : string) : bool :=
  match v with
  | JObj d => dict_mem d k
  | _ => false
  end.

(** [v[k]] for a [dict] [v] that has the key *)
Definition value_item (v : json) (k : string) : json :=
  match v with
  | JObj d => match dict_get d k with Some x => x | None => JNull end
  | _ => JNull
  end.

(** [int(f)] on a [float]: truncation toward zero *)
Definition float_trunc (f : spec_float) : outcome Z :=
  match f with
  | S754_zero _ => Ret 0
  | S754_infinity _ => Raise OverflowError
  | S754_nan => Raise ValueError
  | S754_finite s m e =>
      let mag := if 0 <=? e then Z.pos m * 2 ^ e else Z.pos m / 2 ^ (- e) in
      Ret (if s then - mag else mag)
  end.

Section Program.

Context {cfg : Config} {rt : Runtime}.

(** [int(v)] *)
Definition py_int (v : json) : outcome Z :=
  match v with
  | JInt z => Ret z
  | JBool b => Ret (if b then 1 else 0)
  | JFloat f => float_trunc f
  | JStr s =>
      match int_of_str s with
      | Some z => Ret z
      | None => Raise ValueError
      end
  | JNull | JArr _ | JObj _ => Raise TypeError
  end.

(** ** Fetch client *)

(** [session.get(url, ...)] for the URL of [tick]: the next reply of the
    archiver. *)
Definition session_get (tick : Z) : M response :=
  fun w =>
    let w' := set_sent (S (sent w)) (add_event (EvGet tick) w) in
    match net (sent w) with
    | NetworkFailure => (Exc RequestException, w')
    | Reply r => (Val r, w')
    end.

(** [Response.raise_for_status]: an error for 4xx and 5xx only. *)
Definition raise_for_status (r : response) : M unit :=
  if (400 <=? status_code r) && (status_code r <? 600)
  then raise (HTTPError (status_code r))
  else ret tt.

(** How long to sleep before the next request: the exponential back-off
    with its jitter, or the seconds given by a [Retry-After] header. *)
Inductive backoff : Type :=
| Exponential
| Given (seconds : spec_float).

(** [min(30, 2 ** attempt + random.random())]: the sum is a [float], and
    turning [2 ** attempt] into a [float] raises [OverflowError] from
    [2 ** 1024] on.  Below that the value is at most 30 and not negative. *)
Definition exponential_backoff (attempt_no : Z) : outcome backoff :=
  if 1024 <=? attempt_no then Raise OverflowError else Ret Exponential.

(** The back-off after a 429: [float(ra)] when there is a [Retry-After]
    header that is not empty, and the exponential back-off when there is
    none or when [float] raises [ValueError]. *)
Definition retry_after_backoff (r : response) (attempt_no : Z)
  : outcome backoff :=
  match retry_after r with
  | Some ra =>
      if String.eqb ra EmptyString then exponential_backoff attempt_no
      else
        match float_of_str ra with
        | Some f => Ret (Given f)
        | None => exponential_backoff attempt_no
        end
  | None => exponential_backoff attempt_no
  end.

(** [time.sleep(backoff)]: an event when it returns. *)
Definition time_sleep (b : backoff) : M unit :=
  match b with
  | Exponential => emit EvSleep
  | Given f =>
      match sleep_error f with
      | Some e => raise e
      | None => emit EvSleep
      end
  end.

(** Work out the back-off and sleep; neither step is inside a [try] that
    catches what it raises. *)
Definition back_off (o : outcome backoff) : M unit :=
  b <- lift o ;;
  time_sleep b.

(** The [while True] loop of [polite_get], for the URL of [tick]; [attempt_no]
    is the variable [attempt].  One unit of fuel is one request. *)
Fixpoint polite_get_loop (fuel : nat) (tick retries attempt_no : Z)
  : M response :=
  match fuel with
  | O => pending
  | S fuel' =>
      got <- attempt (session_get tick) ;;
      match got with
      | Raise e =>
          let attempt_no := attempt_no + 1 in
          if attempt_no >? retries then raise e
          else
            back_off (exponential_backoff attempt_no) ;;;
            polite_get_loop fuel' tick retries attempt_no
      | Ret r =>
          if status_code r =? 429 then
            let attempt_no := attempt_no + 1 in
            (if attempt_no >? retries then raise_for_status r else ret tt) ;;;
            back_off (retry_after_backoff r attempt_no) ;;;
            polite_get_loop fuel' tick retries attempt_no
          else if status_code r >=? 500 then
            let attempt_no := attempt_no + 1 in
            (if attempt_no >? retries then raise_for_status r else ret tt) ;;;
            back_off (exponential_backoff attempt_no) ;;;
            polite_get_loop fuel' tick retries attempt_no
          else
            raise_for_status r ;;;
            ret r
      end
  end.

Definition polite_get (fuel : nat) (tick retries : Z) : M response :=
  polite_get_loop fuel tick retries 0.

(** [Response.json] *)
Definition response_json (r : response) : outcome json :=
  match json_body r with
  | Some v => Ret v
  | None => Raise JSONDecodeError
  end.

Definition get_tick_transactions (fuel : nat) (tick : Z) : M (list json) :=
  r <- polite_get fuel tick 6 ;;
  data <- lift (response_json r) ;;
  txs <- lift (value_get data "transactions" JNull) ;;
  ret (match txs with JArr l => l | _ => [] end).

(** ** Progress store and match store *)

(** [pathlib.Path(path).exists()]: it raises the [OSError] of [stat] when
    that is not one it takes for absence. *)
Definition path_exists (f : file) : outcome bool :=
  match f with
  | Absent => Ret false
  | Inaccessible => Raise OSError
  | _ => Ret true
  end.

(** [with open(path, "r") as f: json.load(f)] *)
Definition json_load (f : file) : outcome json :=
  match f with
  | Absent => Raise OSError
  | Inaccessible => Raise OSError
  | NotReadable => Raise OSError
  | Garbled => Raise JSONDecodeError
  | Holds doc => Ret doc
  end.

(** [open(path, "w")]: the file is created, or emptied when it is there. *)
Definition open_for_writing (set : file -> world -> world) : M unit :=
  fun w => (Val tt, set Garbled w).

(** [json.dump(doc, f)] and the end of the [with] block. *)
Definition json_dump (set : file -> world -> world) (doc : json) : M unit :=
  fun w => (Val tt, set (Holds doc) w).

Definition default_state : json := JObj [("next_tick"%string, JInt START_TICK)].

(** The existence test comes before the [try]; what reading and parsing
    raise is caught. *)
Definition load_state : M json :=
  fun w =>
    match path_exists (state_file w) with
    | Raise e => (Exc e, w)
    | Ret true =>
        match json_load (state_file w) with
        | Ret doc => (Val doc, w)
        | Raise _ => (Val default_state, w)
        end
    | Ret false => (Val default_state, w)
    end.

Definition save_state (state : json) : M unit :=
  emit (EvSave state) ;;;
  open_for_writing set_state_file ;;;
  json_dump set_state_file state.

(** [existing.append(rec)]: only a [list] has [append]. *)
Definition list_append (existing rec : json) : outcome json :=
  match existing with
  | JArr l => Ret (JArr (l ++ [rec]))
  | _ => Raise AttributeError
  end.

(** As in [load_state], the existence test comes before the [try]. *)
Definition append_match (rec : json) : M unit :=
  fun w =>
    let w1 := add_event (EvAppend rec) w in
    match path_exists (results_file w1) with
    | Raise e => (Exc e, w1)
    | Ret there =>
        let existing :=
          if there then
            match json_load (results_file w1) with
            | Ret doc => doc
            | Raise _ => JArr []
            end
          else JArr [] in
        match list_append existing rec with
        | Ret doc =>
            (open_for_writing set_results_file ;;;
             json_dump set_results_file doc) w1
        | Raise e => (Exc e, w1)
        end
    end.

(** ** Scan driver *)

(** [if QUTIL_DEST_ID and tx.get("destId") != QUTIL_DEST_ID: continue] *)
Definition dest_filtered_out (tx : json) : outcome bool :=
  match QUTIL_DEST_ID with
  | Some id =>
      if String.eqb id EmptyString then Ret false
      else
        match value_get tx "destId" JNull with
        | Ret d => Ret (negb (eq_str d id))
        | Raise e => Raise e
        end
  | None => Ret false
  end.

Definition now : M string := fun w => (Val (utcnow (length (trace w))), w).

(** The body of [for pk, amt in outputs]. *)
Definition record_output (tick_no txid : json) (explorer_url : string)
    (out : bytes * Z) : M unit :=
  let '(pk, amt) := out in
  if amt =? TARGET_AMOUNT then
    let pubkey_hex := hexlify pk in
    stamp <- now ;;
    append_match
      (JObj [("tick"%string, tick_no);
             ("txId"%string, txid);
             ("pubkey_hex"%string, JStr pubkey_hex);
             ("amount"%string, JInt amt);
             ("explorer_url"%string, JStr explorer_url);
             ("found_at"%string, JStr (stamp ++ "Z"))])
  else ret tt.

(** The body of [for w in wraps]. *)
Definition process_wrap (tick : Z) (wrap : json) : M unit :=
  inner <- lift (value_get (py_or wrap (JObj [])) "transaction" JNull) ;;
  let tx := py_or inner (JObj []) in
  skip <- lift (dest_filtered_out tx) ;;
  if skip then ret tt
  else
    input_type <- lift (value_get tx "inputType" JNull) ;;
    if negb (eq_int input_type 1) || negb (value_mem tx "inputHex") then ret tt
    else
      emit (EvDecode tx (value_item tx "inputHex")) ;;;
      outputs <- lift (decode_qutil_outputs (value_item tx "inputHex")) ;;
      match outputs with
      | [] => ret tt
      | _ =>
          id1 <- lift (value_get tx "txId" JNull) ;;
          txid <- (if truthy id1 then ret id1
                   else lift (value_get tx "id" JNull)) ;;
          tick_no <- lift (value_get tx "tickNumber" (JInt tick)) ;;
          let explorer_url :=
            if truthy txid
            then (EXPLORER_BASE ++ "/network/tx/" ++ format_value txid
                    ++ "?type=latest")%string
            else EmptyString in
          for_each outputs (record_output tick_no txid explorer_url)
      end.

(** The [while tick <= end] loop.  [steps] bounds the number of ticks the run
    is followed for, [fuel] the number of requests of one fetch; [state] is
    the fields of the [dict] [state]. *)
Fixpoint scan_loop (steps fuel : nat) (tick : Z) (state : list (string * json))
  : M unit :=
  if tick <=? END_TICK then
    match steps with
    | O => pending
    | S steps' =>
        fetched <- attempt (get_tick_transactions fuel tick) ;;
        match fetched with
        | Raise e =>
            emit (EvWarn tick e) ;;;
            let tick := tick + 1 in
            let state := dict_set state "next_tick" (JInt tick) in
            save_state (JObj state) ;;;
            scan_loop steps' fuel tick state
        | Ret wraps =>
            for_each wraps (process_wrap tick) ;;;
            let tick := tick + 1 in
            let state := dict_set state "next_tick" (JInt tick) in
            save_state (JObj state) ;;;
            scan_loop steps' fuel tick state
        end
    end
  else ret tt.

(** [scan], followed for at most [steps] ticks. *)
Definition scan (steps fuel : nat) : M unit :=
  state <- load_state ;;
  first <- lift (value_get state "next_tick" (JInt START_TICK)) ;;
  tick <- lift (py_int first) ;;
  match state with
  | JObj fields => scan_loop steps fuel tick fields
  | _ => raise AttributeError
  end.

End Program.

(** ** Vocabulary of the properties *)

(** A recipient identifier is 32 bytes long. *)
Definition is_recipient (r : bytes) : Prop := length r = 32%nat.

(** Amounts written one after the other, 8 bytes each, little-endian. *)
Definition encode_amounts (amts : list Z) : bytes :=
  concat (map (int_to_bytes_le 8) amts).

(** The layout [recipient(32B) x n ++ amount(8B) x n]. *)
Definition payload (rs : list bytes) (amts : list Z) : bytes :=
  concat rs ++ encode_amounts amts.

(** A computation [c] only adds events that satisfy [P] to the trace. *)
Definition emits {A : Type} (P : event -> Prop) (c : M A) : Prop :=
  forall w, exists evs, trace (snd (c w)) = trace w ++ evs /\ Forall P evs.

(** A computation [c] leaves the component [f] of the world as it is. *)
Definition keeps {A X : Type} (f : world -> X) (c : M A) : Prop :=
  forall w, f (snd (c w)) = f w.

(** The events of the fetch client. *)
Definition is_net_event (ev : event) : Prop :=
  match ev with
  | EvGet _ | EvSleep => True
  | _ => False
  end.

Definition not_save (ev : event) : Prop :=
  match ev with
  | EvSave _ => False
  | _ => True
  end.

(** The states handed to [save_state], in order. *)
Definition saves (evs : list event) : list json :=
  flat_map (fun ev => match ev with EvSave st => [st] | _ => [] end) evs.

(** The [next_tick] of a progress state, when it is an [int]. *)
Definition state_next_tick (state : json) : option Z :=
  match state with
  | JObj d =>
      match dict_get d "next_tick" with
      | Some (JInt t) => Some t
      | _ => None
      end
  | _ => None
  end.

Definition file_next_tick (f : file) : option Z :=
  match f with
  | Holds doc => state_next_tick doc
  | _ => None
  end.

(** The replies [polite_get] answers with another request. *)
Definition retryable (r : reply) : bool :=
  match r with
  | NetworkFailure => true
  | Reply r => (status_code r =? 429) || (500 <=? status_code r)
  end.

(** The [Retry-After] header of a response, if [float] reads it, is a
    length [time.sleep] accepts. *)
Definition sleeps_on {rt : Runtime} (r : response) : Prop :=
  forall ra f,
    retry_after r = Some ra -> ra <> EmptyString ->
    float_of_str ra = Some f -> sleep_error f = None.

(** How [polite_get] ends on the reply of its last request, the [n]-th
    after the first: a fault is raised once [retries] earlier faults have
    used up the budget, any other status from 400 on is raised at once, and
    a status below 400 is returned. *)
Definition polite_get_end (retries : Z) (n : nat) (last : reply)
    (res : result response) : Prop :=
  match last with
  | NetworkFailure => Z.of_nat n = retries /\ res = Exc RequestException
  | Reply r =>
      if retryable last
      then Z.of_nat n = retries /\ res = Exc (HTTPError (status_code r))
      else if 400 <=? status_code r
           then res = Exc (HTTPError (status_code r))
           else res = Val r
  end.

(** The filter of the scan driver, in the words of the specification:
    the input type is 1, there is an [inputHex] field and, when a
    destination filter is configured, [destId] is the configured one. *)
Definition passes_filter {cfg : Config} (tx : json) : Prop :=
  (exists d, tx = JObj d)
  /\ eq_int (value_item tx "inputType") 1 = true
  /\ value_mem tx "inputHex" = true
  /\ match QUTIL_DEST_ID with
     | Some id => id <> EmptyString -> value_item tx "destId" = JStr id
     | None => True
     end.

(** The events of the work on one transaction: a decoder call on a
    transaction that passes the filter, or an appended match. *)
Definition is_tx_event {cfg : Config} (ev : event) : Prop :=
  match ev with
  | EvDecode tx input_hex =>
      passes_filter tx /\ input_hex = value_item tx "inputHex"
  | EvAppend _ => True
  | _ => False
  end.

Definition decode_filtered {cfg : Config} (ev : event) : Prop :=
  match ev with
  | EvDecode tx input_hex =>
      passes_filter tx /\ input_hex = value_item tx "inputHex"
  | _ => True
  end.

(** The world after the request of a tick has been answered. *)
Definition after_request (tick : Z) (w : world) : world :=
  set_sent (S (sent w)) (add_event (EvGet tick) w).

(** The world after a tick has been closed with the progress state [st]:
    [save_state] has been called and the progress file holds [st]. *)
Definition after_save (st : json) (w : world) : world :=
  set_state_file (Holds st) (add_event (EvSave st) w).

(** A progress document on which [scan] cannot start: it is not an object,
    or its [next_tick] is [null], an array, an object, a number that is not
    finite, or a string that [int] refuses. *)
Inductive unusable_state {rt : Runtime} : json -> Prop :=
| unusable_null : unusable_state JNull
| unusable_bool b : unusable_state (JBool b)
| unusable_int z : unusable_state (JInt z)
| unusable_float f : unusable_state (JFloat f)
| unusable_str s : unusable_state (JStr s)
| unusable_arr l : unusable_state (JArr l)
| unusable_tick_null d :
    dict_get d "next_tick" = Some JNull -> unusable_state (JObj d)
| unusable_tick_arr d l :
    dict_get d "next_tick" = Some (JArr l) -> unusable_state (JObj d)
| unusable_tick_obj d d' :
    dict_get d "next_tick" = Some (JObj d') -> unusable_state (JObj d)
| unusable_tick_nan d :
    dict_get d "next_tick" = Some (JFloat S754_nan) -> unusable_state (JObj d)
| unusable_tick_inf d s :
    dict_get d "next_tick" = Some (JFloat (S754_infinity s)) ->
    unusable_state (JObj d)
| unusable_tick_str d s :
    dict_get d "next_tick" = Some (JStr s) -> int_of_str s = None ->
    unusable_state (JObj d).

(** A computation [c] ends, with a value or an exception, whatever the
    world it starts in. *)
Definition settles {A : Type} (c : M A) : Prop :=
  forall w, fst (c w) <> Pending.

(** The transaction of a wrapper: [(w or {}).get("transaction") or {}]. *)
Definition wrapped_tx (wrap : json) : outcome json :=
  match value_get (py_or wrap (JObj [])) "transaction" JNull with
  | Ret inner => Ret (py_or inner (JObj []))
  | Raise e => Raise e
  end.

(** Worlds and runtimes for the examples. *)
Definition empty_world : world := mkWorld Absent Absent 0 [].

(** [float] on the header texts of the examples. *)
Definition float_of_header (s : string) : option spec_float :=
  if String.eqb s "2" then Some (S754_finite false 1 1)
  else if String.eqb s "-1" then Some (S754_finite true 1 0)
  else if String.eqb s "nan" then Some S754_nan
  else if String.eqb s "inf" then Some (S754_infinity false)
  else None.

(** [time.sleep] as CPython has it: NaN and a negative length are refused
    with [ValueError], a length of [2^63] nanoseconds or more, of either
    sign, with [OverflowError]. *)
Definition sleep_refuses (f : spec_float) : option exn :=
  match f with
  | S754_zero _ => None
  | S754_nan => Some ValueError
  | S754_infinity _ => Some OverflowError
  | S754_finite s m e =>
      if (if 0 <=? e then 2 ^ 63 <=? Z.pos m * 2 ^ e * 10 ^ 9
          else 2 ^ 63 * 2 ^ (- e) <=? Z.pos m * 10 ^ 9)
      then Some OverflowError
      else if s then Some ValueError else None
  end.

Definition runtime_of (replies : nat -> reply) : Runtime :=
  mkRuntime replies (fun _ => "2025-01-01T00:00:00"%string)
    (fun v => match v with JStr s => s | _ => "?"%string end)
    (fun _ => None) float_of_header sleep_refuses.

Definition always (status : Z) (body : option json) : nat -> reply :=
  fun _ => Reply (mkResponse status None body).

Definition network_down : nat -> reply := fun _ => NetworkFailure.

(** The replies of [l], one after the other, then [last] for ever. *)
Definition replies_of (l : list reply) (last : reply) : nat -> reply :=
  fun k => nth k l last.

Definition config_of (first last target : Z) : Config :=
  mkConfig first last target None "https://explorer.qubic.org".

(** A payout call to the contract [QUTIL] that pays 1 to the recipient
    [07 07 ... 07], and the reply of the archiver that carries it. *)
Definition demo_tx : json :=
  JObj [("destId"%string, JStr "QUTIL");
        ("inputType"%string, JInt 1);
        ("inputHex"%string, JStr (hexlify (payload [repeat x07 32] [1])));
        ("txId"%string, JStr "tx1")].

Definition demo_body : json :=
  JObj [("transactions"%string,
         JArr [JObj [("transaction"%string, demo_tx)];
               JObj [("transaction"%string,
                      JObj [("destId"%string, JStr "QUTIL");
                            ("inputType"%string, JInt 2);
                            ("inputHex"%string, JStr "zz")])]])].

Definition demo_config : Config :=
  mkConfig 5 5 1 (Some "QUTIL"%string) "https://explorer.qubic.org".

(** ** Vocabulary of the further properties *)

(** The 8-byte word of [raw] that starts at [i], read little-endian. *)
Definition word_at (raw : bytes) (i : Z) : Z :=
  int_from_bytes_le (slice raw i (i + 8)).

(** The records handed to [append_match], in order. *)
Definition appends (evs : list event) : list json :=
  flat_map (fun ev => match ev with EvAppend rec => [rec] | _ => [] end) evs.

(** A computation [c] takes every world to one related to it by [R]. *)
Definition evolves {A : Type} (R : world -> world -> Prop) (c : M A) : Prop :=
  forall w, R w (snd (c w)).

(** The results file only grows: a collection it holds is extended by the
    records appended since, in order. *)
Definition results_grow (w w' : world) : Prop :=
  exists evs,
    trace w' = trace w ++ evs
    /\ forall l, results_file w = Holds (JArr l) ->
                 results_file w' = Holds (JArr (l ++ appends evs)).

(** A record of a payout of the target amount to a 32-byte recipient. *)
Definition is_match_record {cfg : Config} (rec : json) : Prop :=
  value_item rec "amount" = JInt TARGET_AMOUNT
  /\ 0 < TARGET_AMOUNT < 10 ^ 12
  /\ exists pk, is_recipient pk
                /\ value_item rec "pubkey_hex" = JStr (hexlify pk).

Definition appends_matches {cfg : Config} (ev : event) : Prop :=
  match ev with
  | EvAppend rec => is_match_record rec
  | _ => True
  end.

(** Requests and warnings are for ticks from [lo] to [END_TICK]. *)
Definition fetch_in_range {cfg : Config} (lo : Z) (ev : event) : Prop :=
  match ev with
  | EvGet t | EvWarn t _ => lo <= t <= END_TICK
  | _ => True
  end.

(** The events of the fetch of one tick. *)
Definition is_fetch_of (tick : Z) (ev : event) : Prop :=
  ev = EvGet tick \/ ev = EvSleep.

(** A request and the sleep after it, [n] times. *)
Definition retry_events (tick : Z) (n : nat) : list event :=
  concat (repeat [EvGet tick; EvSleep] n).

(** What a run of the fetch client, allowed [fuel] requests, has done to
    the world [w] it started in: [n] requests each followed by a sleep that
    returned, then, unless the requests allowed are used up, one request
    more; the files are as they were. *)
Definition asked_and_slept {A : Type} (tick : Z) (fuel : nat) (w : world)
    (run : result A * world) : Prop :=
  exists n : nat,
    (n <= fuel)%nat
    /\ state_file (snd run) = state_file w
    /\ results_file (snd run) = results_file w
    /\ match fst run with
       | Pending =>
           n = fuel
           /\ trace (snd run) = trace w ++ retry_events tick n
           /\ sent (snd run) = (sent w + n)%nat
       | _ =>
           trace (snd run) = trace w ++ retry_events tick n ++ [EvGet tick]
           /\ sent (snd run) = (sent w + S n)%nat
       end.

(** [save_state] stopped between its two steps: [open(STATE_FILE, "w")]
    has emptied the file and [json.dump] has not written it. *)
Definition save_state_cut (state : json) : M unit :=
  emit (EvSave state) ;;; open_for_writing set_state_file.

(** ** Vocabulary of the ticks of a run *)

(** The events of a tick that has been closed: the requests and sleeps of
    its fetch, with a request among them; then the warning of the fetch
    when it raised, and otherwise the decoder calls and appended matches of
    its transactions; and last, once, the save of a progress state whose
    [next_tick] is one past the tick. *)
Definition closed_tick {cfg : Config} (t : Z) (seg : list event) : Prop :=
  exists (fetch work : list event) (st : json),
    seg = fetch ++ work ++ [EvSave st]
    /\ Forall (is_fetch_of t) fetch
    /\ In (EvGet t) fetch
    /\ ((exists e, work = [EvWarn t e]) \/ Forall is_tx_event work)
    /\ state_next_tick st = Some (t + 1).

(** Closed ticks in a row, from [t] on. *)
Fixpoint closed_ticks {cfg : Config} (t : Z) (segs : list (list event))
  : Prop :=
  match segs with
  | [] => True
  | seg :: segs' => closed_tick t seg /\ closed_ticks (t + 1) segs'
  end.

(** The events of a tick that has been begun and not closed: requests and
    sleeps of its fetch, then decoder calls and appended matches; no save. *)
Definition open_tick {cfg : Config} (t : Z) (rest : list event) : Prop :=
  exists fetch work : list event,
    rest = fetch ++ work
    /\ Forall (is_fetch_of t) fetch
    /\ Forall is_tx_event work.

(** * Properties *)

(** ** Bytes, integers and slices *)

Lemma byte_val_range (b : byte) : 0 <= byte_val b < 256.
Proof.
  unfold byte_val. pose proof (Byte.to_N_bounded b). lia.
Qed.

Lemma byte_val_of_Z (z : Z) : byte_val (byte_of_Z z) = z mod 256.
Proof.
  unfold byte_val, byte_of_Z.
  pose proof (Z.mod_pos_bound z 256 ltac:(lia)) as Hm.
  destruct (Byte.of_N (Z.to_N (z mod 256))) as [b|] eqn:E.
  - apply Byte.to_of_N in E. rewrite E. lia.
  - apply Byte.of_N_None_iff in E. lia.
Qed.

Lemma byte_of_Z_val (b : byte) : byte_of_Z (byte_val b) = b.
Proof.
  unfold byte_of_Z, byte_val.
  pose proof (Byte.to_N_bounded b) as Hb.
  rewrite Z.mod_small by lia.
  rewrite N2Z.id, Byte.of_to_N. reflexivity.
Qed.

Lemma int_to_bytes_le_length (n : nat) (x : Z) :
  length (int_to_bytes_le n x) = n.
Proof.
  revert x. induction n as [|n IH]; intros x; simpl; [reflexivity|].
  now rewrite IH.
Qed.

Lemma int_from_to_bytes_le (n : nat) (x : Z) :
  0 <= x < 256 ^ Z.of_nat n ->
  int_from_bytes_le (int_to_bytes_le n x) = x.
Proof.
  revert x. induction n as [|n IH]; intros x Hx.
  - simpl in *. lia.
  - cbn [int_to_bytes_le int_from_bytes_le].
    rewrite byte_val_of_Z, IH.
    + pose proof (Z.div_mod x 256 ltac:(lia)). lia.
    + rewrite Nat2Z.inj_succ, Z.pow_succ_r in Hx by lia.
      split; [apply Z.div_pos; lia|].
      apply Z.div_lt_upper_bound; lia.
Qed.

Lemma int_from_bytes_le_range (b : bytes) :
  0 <= int_from_bytes_le b < 256 ^ Z.of_nat (length b).
Proof.
  induction b as [|x b IH].
  - simpl. lia.
  - cbn [int_from_bytes_le length].
    rewrite Nat2Z.inj_succ, Z.pow_succ_r by lia.
    pose proof (byte_val_range x). lia.
Qed.

(** Inside the bounds a slice is the plain sub-list. *)
Lemma slice_inside {A : Type} (l : list A) (a b : nat) :
  (a <= b <= length l)%nat ->
  slice l (Z.of_nat a) (Z.of_nat b) = firstn (b - a) (skipn a l).
Proof.
  intros H. unfold slice, slice_index.
  destruct (Z.of_nat a <? 0) eqn:Ea; [apply Z.ltb_lt in Ea; lia|].
  destruct (Z.of_nat b <? 0) eqn:Eb; [apply Z.ltb_lt in Eb; lia|].
  rewrite !Z.min_l by lia.
  rewrite <- Nat2Z.inj_sub by lia.
  now rewrite !Nat2Z.id.
Qed.

Lemma slice_app_middle {A : Type} (pre mid suf : list A) :
  slice (pre ++ mid ++ suf)
        (Z.of_nat (length pre)) (Z.of_nat (length pre + length mid)) = mid.
Proof.
  rewrite slice_inside by (rewrite !length_app; lia).
  rewrite skipn_app, skipn_all, Nat.sub_diag. simpl.
  replace (length pre + length mid - length pre)%nat with (length mid) by lia.
  rewrite firstn_app, firstn_all, Nat.sub_diag. simpl.
  now rewrite app_nil_r.
Qed.

(** A lower bound that falls before the start of the list never yields a
    slice as long as the distance between the bounds. *)
Lemma slice_negative_short {A : Type} (l : list A) (a b : Z) :
  a < 0 -> 0 <= b <= Z.of_nat (length l) ->
  Z.of_nat (length (slice l a b)) < b - a.
Proof.
  intros Ha Hb. unfold slice, slice_index.
  destruct (a <? 0) eqn:Ea; [|apply Z.ltb_ge in Ea; lia].
  destruct (b <? 0) eqn:Eb; [apply Z.ltb_lt in Eb; lia|].
  rewrite length_firstn, length_skipn. lia.
Qed.

(** ** Hexadecimal text *)

Lemma hex_digit_cases (d : Z) :
  0 <= d < 16 ->
  hex_digit (hex_char d) = Some d /\ is_ascii (hex_char d) = true.
Proof.
  intros H.
  assert (d = 0 \/ d = 1 \/ d = 2 \/ d = 3 \/ d = 4 \/ d = 5 \/ d = 6 \/ d = 7
          \/ d = 8 \/ d = 9 \/ d = 10 \/ d = 11 \/ d = 12 \/ d = 13 \/ d = 14
          \/ d = 15) as Hd by lia.
  repeat (destruct Hd as [Hd|Hd]; [subst d; split; reflexivity|]).
  subst d; split; reflexivity.
Qed.

Lemma hexlify_ascii (raw : bytes) : str_is_ascii (hexlify raw) = true.
Proof.
  unfold str_is_ascii. induction raw as [|b raw IH]; [reflexivity|].
  pose proof (byte_val_range b) as Hb.
  cbn [hexlify list_ascii_of_string forallb].
  rewrite (proj2 (hex_digit_cases (byte_val b / 16)
             ltac:(split; [apply Z.div_pos; lia
                          |apply Z.div_lt_upper_bound; lia]))).
  rewrite (proj2 (hex_digit_cases (byte_val b mod 16)
             ltac:(apply Z.mod_pos_bound; lia))).
  exact IH.
Qed.

Lemma hexlify_even (raw : bytes) : Nat.odd (String.length (hexlify raw)) = false.
Proof.
  induction raw as [|b raw IH]; [reflexivity|].
  cbn [hexlify String.length]. now rewrite Nat.odd_succ_succ.
Qed.

Lemma unhex_pairs_hexlify (raw : bytes) : unhex_pairs (hexlify raw) = Some raw.
Proof.
  induction raw as [|b raw IH]; [reflexivity|].
  pose proof (byte_val_range b) as Hb.
  cbn [hexlify unhex_pairs].
  rewrite (proj1 (hex_digit_cases (byte_val b / 16)
             ltac:(split; [apply Z.div_pos; lia
                          |apply Z.div_lt_upper_bound; lia]))).
  rewrite (proj1 (hex_digit_cases (byte_val b mod 16)
             ltac:(apply Z.mod_pos_bound; lia))).
  rewrite IH.
  replace (16 * (byte_val b / 16) + byte_val b mod 16) with (byte_val b)
    by (pose proof (Z.div_mod (byte_val b) 16 ltac:(lia)); lia).
  now rewrite byte_of_Z_val.
Qed.

(** The text written by [bytes.hex] is read back by [binascii.unhexlify]. *)
Lemma unhexlify_hexlify (raw : bytes) : unhexlify (hexlify raw) = Ret raw.
Proof.
  unfold unhexlify.
  now rewrite hexlify_ascii, hexlify_even, unhex_pairs_hexlify.
Qed.

(** On ASCII text [binascii.unhexlify] returns or raises [binascii.Error]. *)
Lemma unhexlify_ascii (s : string) :
  str_is_ascii s = true ->
  (exists raw, unhexlify s = Ret raw) \/ unhexlify s = Raise BinasciiError.
Proof.
  intros H. unfold unhexlify. rewrite H. simpl.
  destruct (Nat.odd (String.length s)); [now right|].
  destruct (unhex_pairs s) as [raw|]; [left; now exists raw|now right].
Qed.

(** ** The backward scan of [find_tail_amounts] *)

(** More fuel than [i / 8] changes nothing: the loop has left through its
    own test before the fuel is used up. *)
Lemma find_tail_loop_fuel (fuel : nat) (raw : bytes) (i : Z) (chunks : list Z) :
  i < 8 * Z.of_nat fuel ->
  find_tail_loop (S fuel) raw i chunks = find_tail_loop fuel raw i chunks.
Proof.
  revert i chunks. induction fuel as [|fuel IH]; intros i chunks Hi.
  - cbn [find_tail_loop].
    destruct (8 <=? i) eqn:E; [apply Z.leb_le in E; lia|reflexivity].
  - cbn [find_tail_loop] in *.
    destruct (8 <=? i); [|reflexivity].
    destruct (plausible _); [|reflexivity].
    apply IH. lia.
Qed.

Lemma find_tail_loop_more_fuel (extra fuel : nat) raw i chunks :
  i < 8 * Z.of_nat fuel ->
  find_tail_loop (extra + fuel) raw i chunks = find_tail_loop fuel raw i chunks.
Proof.
  intros Hi. induction extra as [|extra IH]; [reflexivity|].
  cbn [Nat.add]. rewrite find_tail_loop_fuel by lia. exact IH.
Qed.

(** Where the scan stops: fewer than 8 bytes are left, or the 8 bytes
    before the stop are not a plausible amount. *)
Lemma find_tail_loop_stop (fuel : nat) raw i chunks i' chunks' :
  i < 8 * Z.of_nat fuel ->
  find_tail_loop fuel raw i chunks = (i', chunks') ->
  i' < 8 \/ plausible (int_from_bytes_le (slice raw (i' - 8) i')) = false.
Proof.
  revert i chunks. induction fuel as [|fuel IH]; intros i chunks Hi H.
  - cbn in H. inversion H; subst. left. lia.
  - cbn [find_tail_loop] in H.
    destruct (8 <=? i) eqn:E.
    + destruct (plausible (int_from_bytes_le (slice raw (i - 8) i))) eqn:P.
      * apply IH in H; [exact H|lia].
      * inversion H; subst. now right.
    + inversion H; subst. left. apply Z.leb_gt in E. exact E.
Qed.

(** The scan stops at once when the first value it reads is not plausible
    or when fewer than 8 bytes are there. *)
Lemma find_tail_loop_none (fuel : nat) raw i chunks :
  i < 8 \/ plausible (int_from_bytes_le (slice raw (i - 8) i)) = false ->
  find_tail_loop fuel raw i chunks = (i, chunks).
Proof.
  intros H. destruct fuel as [|fuel]; [reflexivity|].
  cbn [find_tail_loop].
  destruct (8 <=? i) eqn:E; [|reflexivity].
  destruct H as [H|H]; [apply Z.leb_le in E; lia|].
  now rewrite H.
Qed.

Lemma encode_amounts_length (amts : list Z) :
  length (encode_amounts amts) = (8 * length amts)%nat.
Proof.
  unfold encode_amounts. induction amts as [|a amts IH]; [reflexivity|].
  cbn [map concat length]. rewrite length_app, int_to_bytes_le_length, IH. lia.
Qed.

Lemma plausible_range (x : Z) : plausible x = true <-> 0 < x < 10 ^ 12.
Proof.
  unfold plausible. rewrite andb_true_iff, !Z.ltb_lt. tauto.
Qed.

(** The scan walks back over a block of encoded plausible amounts and
    collects them, last first. *)
Lemma find_tail_loop_amounts (amts : list Z) :
  Forall (fun a => plausible a = true) amts ->
  forall (fuel : nat) (pre suf : bytes) (chunks : list Z),
    find_tail_loop (length amts + fuel)
      (pre ++ encode_amounts amts ++ suf)
      (Z.of_nat (length pre + 8 * length amts)) chunks
    = find_tail_loop fuel (pre ++ encode_amounts amts ++ suf)
        (Z.of_nat (length pre)) (chunks ++ rev amts).
Proof.
  induction amts as [|a amts IH] using rev_ind; intros Hall fuel pre suf chunks.
  - cbn [length rev Nat.add]. rewrite app_nil_r.
    now replace (length pre + 8 * 0)%nat with (length pre) by lia.
  - apply Forall_app in Hall. destruct Hall as [Hamts Ha].
    inversion Ha as [|? ? Hpa _]; subst.
    rewrite length_app, rev_app_distr. cbn [length rev app].
    replace (length amts + 1 + fuel)%nat with (S (length amts + fuel)) by lia.
    cbn [find_tail_loop].
    set (raw := pre ++ encode_amounts (amts ++ [a]) ++ suf).
    set (i := Z.of_nat (length pre + 8 * (length amts + 1))).
    assert (Hraw : raw = (pre ++ encode_amounts amts)
                           ++ int_to_bytes_le 8 a ++ suf).
    { unfold raw, encode_amounts. rewrite map_app, concat_app.
      cbn [map concat]. rewrite app_nil_r, <- !app_assoc. reflexivity. }
    assert (Hslice : slice raw (i - 8) i = int_to_bytes_le 8 a).
    { rewrite Hraw.
      replace (i - 8) with (Z.of_nat (length (pre ++ encode_amounts amts)))
        by (unfold i; rewrite length_app, encode_amounts_length; lia).
      replace i with (Z.of_nat (length (pre ++ encode_amounts amts)
                                + length (int_to_bytes_le 8 a)))
        by (unfold i; rewrite length_app, encode_amounts_length,
              int_to_bytes_le_length; lia).
      apply slice_app_middle. }
    destruct (8 <=? i) eqn:E; [|apply Z.leb_gt in E; unfold i in E; lia].
    rewrite Hslice.
    apply plausible_range in Hpa.
    rewrite int_from_to_bytes_le by (change (256 ^ Z.of_nat 8) with (2 ^ 64);
                                     assert (10 ^ 12 < 2 ^ 64) by reflexivity; lia).
    rewrite (proj2 (plausible_range a) Hpa).
    replace (i - 8) with (Z.of_nat (length pre + 8 * length amts))
      by (unfold i; lia).
    rewrite Hraw, <- app_assoc.
    rewrite (IH Hamts fuel pre (int_to_bytes_le 8 a ++ suf) (chunks ++ [a])).
    now rewrite <- app_assoc.
Qed.

(** ** The decoder on well-formed payloads *)

Lemma concat_recipients_length (rs : list bytes) :
  Forall is_recipient rs -> length (concat rs) = (32 * length rs)%nat.
Proof.
  induction 1 as [|r rs Hr _ IH]; [reflexivity|].
  cbn [concat length]. rewrite length_app, IH, Hr. lia.
Qed.

(** The [k]-th 32-byte slice of a recipient block is the [k]-th recipient. *)
Lemma slice_recipient (pre suf : list bytes) (r : bytes) :
  Forall is_recipient (pre ++ r :: suf) ->
  slice (concat (pre ++ r :: suf))
        (Z.of_nat (length pre) * 32) ((Z.of_nat (length pre) + 1) * 32) = r.
Proof.
  intros Hall. apply Forall_app in Hall. destruct Hall as [Hpre Hsuf].
  inversion Hsuf as [|? ? Hr _]; subst.
  rewrite concat_app. cbn [concat].
  replace (Z.of_nat (length pre) * 32) with (Z.of_nat (length (concat pre)))
    by (rewrite concat_recipients_length by assumption; lia).
  replace ((Z.of_nat (length pre) + 1) * 32)
    with (Z.of_nat (length (concat pre) + length r))
    by (rewrite concat_recipients_length, Hr by assumption; lia).
  apply slice_app_middle.
Qed.

Lemma recipients_from (rs suf pre : list bytes) :
  rs = pre ++ suf -> Forall is_recipient rs ->
  map (fun i => slice (concat rs) (i * 32) ((i + 1) * 32))
      (map Z.of_nat (seq (length pre) (length suf))) = suf.
Proof.
  revert pre. induction suf as [|r suf IH]; intros pre Hrs Hall; [reflexivity|].
  cbn [length seq map]. subst rs.
  rewrite slice_recipient by assumption.
  apply (f_equal (cons r)).
  specialize (IH (pre ++ [r])). rewrite length_app in IH. cbn [length] in IH.
  replace (length pre + 1)%nat with (S (length pre)) in IH by lia.
  apply IH; [|assumption]. now rewrite <- app_assoc.
Qed.

Lemma recipients_of_block (rs : list bytes) :
  Forall is_recipient rs ->
  map (fun i => slice (concat rs) (i * 32) ((i + 1) * 32))
      (range (Z.of_nat (length rs))) = rs.
Proof.
  intros Hall. unfold range. rewrite Nat2Z.id.
  exact (recipients_from rs rs [] eq_refl Hall).
Qed.

(** The 8 bytes before the amounts are the end of the last recipient. *)
Lemma slice_last_recipient (rs : list bytes) (suf : bytes) :
  rs <> [] -> Forall is_recipient rs ->
  slice (concat rs ++ suf)
        (Z.of_nat (length (concat rs)) - 8) (Z.of_nat (length (concat rs)))
  = skipn 24 (last rs []).
Proof.
  intros Hne Hall.
  destruct (exists_last Hne) as [front [r Hrs]]. subst rs.
  rewrite last_last.
  apply Forall_app in Hall. destruct Hall as [_ Hr].
  inversion Hr as [|? ? Hlen _]; subst. unfold is_recipient in Hlen.
  rewrite concat_app. cbn [concat]. rewrite app_nil_r.
  rewrite <- (firstn_skipn 24 r) at 1 2 3.
  rewrite !length_app.
  assert (H24 : length (firstn 24 r) = 24%nat)
    by (rewrite length_firstn; lia).
  assert (H8 : length (skipn 24 r) = 8%nat)
    by (rewrite length_skipn; lia).
  rewrite (app_assoc (concat front)), <- (app_assoc _ (skipn 24 r) suf).
  replace (Z.of_nat (length (concat front) + (length (firstn 24 r)
             + length (skipn 24 r))) - 8)
    with (Z.of_nat (length (concat front ++ firstn 24 r)))
    by (rewrite length_app; lia).
  replace (Z.of_nat (length (concat front) + (length (firstn 24 r)
             + length (skipn 24 r))))
    with (Z.of_nat (length (concat front ++ firstn 24 r)
                    + length (skipn 24 r)))
    by (rewrite length_app; lia).
  apply slice_app_middle.
Qed.

Lemma find_tail_amounts_payload (rs : list bytes) (amts : list Z) :
  rs <> [] -> Forall is_recipient rs ->
  Forall (fun a => plausible a = true) amts ->
  plausible (int_from_bytes_le (skipn 24 (last rs []))) = false ->
  find_tail_amounts (payload rs amts)
  = (Z.of_nat (length (concat rs)), Z.of_nat (length amts), amts).
Proof.
  intros Hne Hrs Hamts Hstop. unfold find_tail_amounts, payload.
  set (raw := concat rs ++ encode_amounts amts).
  assert (Hraw : raw = concat rs ++ encode_amounts amts ++ []).
  { unfold raw. now rewrite app_nil_r. }
  assert (Hlen : length raw = (length (concat rs) + 8 * length amts)%nat).
  { unfold raw. now rewrite length_app, encode_amounts_length. }
  rewrite Hlen.
  replace (S (length (concat rs) + 8 * length amts))
    with (length amts + S (length (concat rs) + 7 * length amts))%nat by lia.
  rewrite Hraw, find_tail_loop_amounts by assumption.
  rewrite find_tail_loop_none.
  - cbn [app]. now rewrite length_rev, rev_involutive.
  - right. rewrite slice_last_recipient by assumption. exact Hstop.
Qed.

Lemma slice_prefix {A : Type} (l suf : list A) :
  slice (l ++ suf) 0 (Z.of_nat (length l)) = l.
Proof.
  change 0 with (Z.of_nat (@length A [])).
  change (l ++ suf) with ([] ++ l ++ suf).
  exact (slice_app_middle [] l suf).
Qed.

(** Decoding any hex text of a payload whose recipient block does not end
    in a plausible amount. *)
Lemma decode_of_payload (s : string) (rs : list bytes) (amts : list Z) :
  unhexlify s = Ret (payload rs amts) ->
  (1 <= length rs)%nat -> length rs = length amts ->
  Forall is_recipient rs ->
  Forall (fun a => 0 < a < 10 ^ 12) amts ->
  plausible (int_from_bytes_le (skipn 24 (last rs []))) = false ->
  decode_qutil_outputs (JStr s) = Ret (combine rs amts).
Proof.
  intros Hs Hn Hlen Hrs Hamts Hstop.
  assert (Hne : rs <> []) by (destruct rs; [simpl in Hn; lia|discriminate]).
  assert (Hpl : Forall (fun a => plausible a = true) amts).
  { eapply Forall_impl; [|exact Hamts]. intros a Ha. now apply plausible_range. }
  unfold decode_qutil_outputs, unhexlify_value. rewrite Hs.
  rewrite find_tail_amounts_payload by assumption.
  destruct (Z.of_nat (length amts) =? 0) eqn:E0; [apply Z.eqb_eq in E0; lia|].
  rewrite concat_recipients_length by assumption.
  replace (Z.of_nat (32 * length rs) - Z.of_nat (length amts) * 32) with 0 by lia.
  unfold payload.
  rewrite <- (concat_recipients_length rs Hrs), slice_prefix.
  rewrite concat_recipients_length by assumption.
  replace (Z.of_nat (32 * length rs) =? Z.of_nat (length amts) * 32) with true
    by (symmetry; apply Z.eqb_eq; lia).
  cbn [negb]. rewrite <- Hlen, recipients_of_block by assumption.
  reflexivity.
Qed.

(** A hex string that decodes to fewer than 8 bytes, or whose last 8 bytes
    are not a plausible amount, gives no output. *)
Lemma decode_of_no_tail (s : string) (raw : bytes) :
  unhexlify s = Ret raw ->
  (length raw < 8)%nat
  \/ plausible (int_from_bytes_le (skipn (length raw - 8) raw)) = false ->
  decode_qutil_outputs (JStr s) = Ret [].
Proof.
  intros Hs H. unfold decode_qutil_outputs, unhexlify_value. rewrite Hs.
  unfold find_tail_amounts. rewrite find_tail_loop_none; [reflexivity|].
  destruct (Nat.lt_ge_cases (length raw) 8) as [Hlt|Hge]; [left; lia|].
  destruct H as [H|H]; [lia|]. right.
  replace (Z.of_nat (length raw) - 8) with (Z.of_nat (length raw - 8)) by lia.
  rewrite slice_inside by lia.
  rewrite firstn_all2 by (rewrite length_skipn; lia). exact H.
Qed.

(** On ASCII text the decoder always returns. *)
Lemma decode_ascii_returns (s : string) :
  str_is_ascii s = true ->
  exists outputs, decode_qutil_outputs (JStr s) = Ret outputs.
Proof.
  intros H. unfold decode_qutil_outputs, unhexlify_value.
  destruct (unhexlify_ascii s H) as [[raw Hraw]|Herr].
  - rewrite Hraw.
    destruct (find_tail_amounts raw) as [[amt_start n] amounts].
    destruct (n =? 0); [now eexists|].
    destruct (negb _); now eexists.
  - rewrite Herr. now eexists.
Qed.

(** When the recipient block is too short, the decoder gives no output:
    the lower bound of the slice falls before the start of the payload. *)
Lemma decode_short_recipient_block (s : string) (raw : bytes) amt_start n amounts :
  unhexlify s = Ret raw ->
  find_tail_amounts raw = (amt_start, n, amounts) ->
  amt_start < n * 32 ->
  decode_qutil_outputs (JStr s) = Ret [].
Proof.
  intros Hs Hfind Hshort. unfold decode_qutil_outputs, unhexlify_value.
  rewrite Hs, Hfind.
  destruct (n =? 0); [reflexivity|].
  assert (Hstart : 0 <= amt_start <= Z.of_nat (length raw)).
  { unfold find_tail_amounts in Hfind.
    destruct (find_tail_loop _ raw _ []) as [i chunks] eqn:E.
    inversion Hfind; subst. clear Hfind.
    assert (G : forall fuel i0 c, 0 <= i0 <= Z.of_nat (length raw) ->
                  0 <= fst (find_tail_loop fuel raw i0 c) <= Z.of_nat (length raw)).
    { induction fuel as [|fuel IH]; intros i0 c Hi0; cbn [find_tail_loop];
        [exact Hi0|].
      destruct (8 <=? i0) eqn:E8; [|exact Hi0].
      destruct (plausible _); [|exact Hi0].
      apply IH. apply Z.leb_le in E8. lia. }
    specialize (G (S (length raw)) (Z.of_nat (length raw)) [] ltac:(lia)).
    rewrite E in G. exact G. }
  pose proof (slice_negative_short raw (amt_start - n * 32) amt_start
                ltac:(lia) Hstart) as Hlt.
  destruct (Z.of_nat (length (slice raw (amt_start - n * 32) amt_start)) =? n * 32)
    eqn:E; [apply Z.eqb_eq in E; lia|reflexivity].
Qed.

(** ** Events and files across computations *)

Lemma emits_weaken {A : Type} (P Q : event -> Prop) (c : M A) :
  (forall ev, P ev -> Q ev) -> emits P c -> emits Q c.
Proof.
  intros HPQ Hc w. destruct (Hc w) as [evs [Ht Hall]].
  exists evs. split; [exact Ht|]. eapply Forall_impl; eauto.
Qed.

Lemma emits_ret {A : Type} (P : event -> Prop) (a : A) : emits P (ret a).
Proof. intros w. exists []. simpl. now rewrite app_nil_r. Qed.

Lemma emits_raise {A : Type} (P : event -> Prop) (e : exn) :
  emits P (@raise A e).
Proof. intros w. exists []. simpl. now rewrite app_nil_r. Qed.

Lemma emits_pending {A : Type} (P : event -> Prop) : emits P (@pending A).
Proof. intros w. exists []. simpl. now rewrite app_nil_r. Qed.

Lemma emits_lift {A : Type} (P : event -> Prop) (o : outcome A) :
  emits P (lift o).
Proof. destruct o; [apply emits_ret|apply emits_raise]. Qed.

Lemma emits_emit (P : event -> Prop) (ev : event) : P ev -> emits P (emit ev).
Proof. intros H w. exists [ev]. simpl. split; [reflexivity|now constructor]. Qed.

Lemma emits_bind {A B : Type} (P : event -> Prop) (c : M A) (k : A -> M B) :
  emits P c -> (forall a, emits P (k a)) -> emits P (bind c k).
Proof.
  intros Hc Hk w. unfold bind.
  destruct (Hc w) as [evs1 [Ht1 Hall1]].
  destruct (c w) as [[a|e|] w1]; cbn [snd] in *.
  - destruct (Hk a w1) as [evs2 [Ht2 Hall2]].
    exists (evs1 ++ evs2). rewrite Ht2, Ht1, app_assoc.
    split; [reflexivity|now apply Forall_app].
  - now exists evs1.
  - now exists evs1.
Qed.

Lemma emits_attempt {A : Type} (P : event -> Prop) (c : M A) :
  emits P c -> emits P (attempt c).
Proof.
  intros Hc w. unfold attempt. specialize (Hc w).
  destruct (c w) as [[a|e|] w1]; exact Hc.
Qed.

Lemma emits_for_each {A : Type} (P : event -> Prop) (l : list A)
    (body : A -> M unit) :
  (forall x, emits P (body x)) -> emits P (for_each l body).
Proof.
  intros Hb. induction l as [|x l IH]; cbn [for_each].
  - apply emits_ret.
  - apply emits_bind; [apply Hb|intros _; exact IH].
Qed.

Lemma keeps_ret {A X : Type} (f : world -> X) (a : A) : keeps f (ret a).
Proof. intros w. reflexivity. Qed.

Lemma keeps_raise {A X : Type} (f : world -> X) (e : exn) :
  keeps f (@raise A e).
Proof. intros w. reflexivity. Qed.

Lemma keeps_pending {A X : Type} (f : world -> X) : keeps f (@pending A).
Proof. intros w. reflexivity. Qed.

Lemma keeps_lift {A X : Type} (f : world -> X) (o : outcome A) :
  keeps f (lift o).
Proof. destruct o; [apply keeps_ret|apply keeps_raise]. Qed.

Lemma keeps_bind {A B X : Type} (f : world -> X) (c : M A) (k : A -> M B) :
  keeps f c -> (forall a, keeps f (k a)) -> keeps f (bind c k).
Proof.
  intros Hc Hk w. unfold bind. specialize (Hc w).
  destruct (c w) as [[a|e|] w1]; cbn [snd] in *; [|exact Hc|exact Hc].
  now rewrite Hk.
Qed.

Lemma keeps_attempt {A X : Type} (f : world -> X) (c : M A) :
  keeps f c -> keeps f (attempt c).
Proof.
  intros Hc w. unfold attempt. specialize (Hc w).
  destruct (c w) as [[a|e|] w1]; exact Hc.
Qed.

Lemma keeps_for_each {A X : Type} (f : world -> X) (l : list A)
    (body : A -> M unit) :
  (forall x, keeps f (body x)) -> keeps f (for_each l body).
Proof.
  intros Hb. induction l as [|x l IH]; cbn [for_each].
  - apply keeps_ret.
  - apply keeps_bind; [apply Hb|intros _; exact IH].
Qed.

Lemma keeps_emit_state_file (ev : event) : keeps state_file (emit ev).
Proof. intros w. reflexivity. Qed.

Lemma keeps_emit_results_file (ev : event) : keeps results_file (emit ev).
Proof. intros w. reflexivity. Qed.

Lemma keeps_emit_sent (ev : event) : keeps sent (emit ev).
Proof. intros w. reflexivity. Qed.

Create HintDb scan.

#[local] Hint Resolve emits_ret emits_raise emits_pending emits_lift
  emits_attempt keeps_ret keeps_raise keeps_pending keeps_lift keeps_attempt
  keeps_emit_state_file keeps_emit_results_file keeps_emit_sent : scan.

Lemma saves_app (a b : list event) : saves (a ++ b) = saves a ++ saves b.
Proof. unfold saves. apply flat_map_app. Qed.

Lemma saves_quiet (evs : list event) : Forall not_save evs -> saves evs = [].
Proof.
  induction 1 as [|ev evs Hev _ IH]; [reflexivity|].
  destruct ev; cbn in *; try exact IH. contradiction.
Qed.

Lemma dict_get_set (d : list (string * json)) (k : string) (v : json) :
  dict_get (dict_set d k v) k = Some v.
Proof.
  induction d as [|[k' v'] d IH]; cbn.
  - now rewrite String.eqb_refl.
  - destruct (String.eqb k' k) eqn:E; cbn; rewrite E; [reflexivity|exact IH].
Qed.

Lemma dict_set_set (d : list (string * json)) (k : string) (v v' : json) :
  dict_set (dict_set d k v) k v' = dict_set d k v'.
Proof.
  induction d as [|[k0 v0] d IH]; cbn.
  - now rewrite String.eqb_refl.
  - destruct (String.eqb k0 k) eqn:E; cbn; rewrite E; [reflexivity|].
    now rewrite IH.
Qed.

Section FetchClient.

Context {rt : Runtime}.

Lemma session_get_emits (tick : Z) : emits is_net_event (session_get tick).
Proof.
  intros w. exists [EvGet tick]. unfold session_get.
  destruct (net (sent w)); cbn; (split; [reflexivity|repeat constructor]).
Qed.

Lemma session_get_keeps_state_file (tick : Z) :
  keeps state_file (session_get tick).
Proof. intros w. unfold session_get. destruct (net (sent w)); reflexivity. Qed.

Lemma session_get_keeps_results_file (tick : Z) :
  keeps results_file (session_get tick).
Proof. intros w. unfold session_get. destruct (net (sent w)); reflexivity. Qed.

Lemma raise_for_status_emits (P : event -> Prop) (r : response) :
  emits P (raise_for_status r).
Proof. unfold raise_for_status. destruct (_ && _); auto with scan. Qed.

Lemma raise_for_status_keeps {X : Type} (f : world -> X) (r : response) :
  keeps f (raise_for_status r).
Proof. unfold raise_for_status. destruct (_ && _); auto with scan. Qed.

(** Working out the back-off and sleeping ends in one of two ways: the
    sleep returns, which is one event, or an exception is raised and the
    world is as it was. *)
Lemma back_off_cases (o : outcome backoff) (w : world) :
  back_off o w = (Val tt, add_event EvSleep w)
  \/ exists e, back_off o w = (Exc e, w).
Proof.
  unfold back_off, bind, time_sleep.
  destruct o as [[|f]|e]; cbn; [now left| |right; now exists e].
  destruct (sleep_error f) as [e|]; [right; now exists e|now left].
Qed.

Lemma back_off_emits (P : event -> Prop) (o : outcome backoff) :
  P EvSleep -> emits P (back_off o).
Proof.
  intros H w. destruct (back_off_cases o w) as [E|[e E]]; rewrite E.
  - exists [EvSleep]. split; [reflexivity|now constructor].
  - exists []. cbn. now rewrite app_nil_r.
Qed.

Lemma back_off_keeps {X : Type} (f : world -> X) (o : outcome backoff) :
  (forall ev, keeps f (emit ev)) -> keeps f (back_off o).
Proof.
  intros H w. destruct (back_off_cases o w) as [E|[e E]]; rewrite E.
  - exact (H EvSleep w).
  - reflexivity.
Qed.

Lemma polite_get_loop_emits_any (P : event -> Prop) (fuel : nat)
    (tick retries a : Z) :
  P (EvGet tick) -> P EvSleep ->
  emits P (polite_get_loop fuel tick retries a).
Proof.
  intros Hget Hsleep.
  revert a. induction fuel as [|fuel IH]; intros a; cbn [polite_get_loop].
  - apply emits_pending.
  - apply emits_bind.
    { apply emits_attempt. intros w. exists [EvGet tick]. unfold session_get.
      destruct (net (sent w)); cbn; (split; [reflexivity|now constructor]). }
    intros [r|e].
    + repeat match goal with
             | |- emits _ (if ?b then _ else _) => destruct b
             | |- emits _ (bind _ _) => apply emits_bind; [|intros ?]
             | |- emits _ (back_off _) => apply back_off_emits; exact Hsleep
             | |- emits _ (raise_for_status _) => apply raise_for_status_emits
             | |- emits _ (polite_get_loop _ _ _ _) => apply IH
             | |- _ => solve [auto with scan]
             end.
    + destruct (_ >? _); [apply emits_raise|].
      apply emits_bind; [apply back_off_emits; exact Hsleep|intros _; apply IH].
Qed.

Lemma polite_get_loop_emits (fuel : nat) (tick retries a : Z) :
  emits is_net_event (polite_get_loop fuel tick retries a).
Proof. apply polite_get_loop_emits_any; exact I. Qed.

Lemma polite_get_loop_keeps {X : Type} (f : world -> X)
    (fuel : nat) (tick retries a : Z) :
  (forall t, keeps f (session_get t)) -> (forall ev, keeps f (emit ev)) ->
  keeps f (polite_get_loop fuel tick retries a).
Proof.
  intros Hget Hemit.
  revert a. induction fuel as [|fuel IH]; intros a; cbn [polite_get_loop].
  - apply keeps_pending.
  - apply keeps_bind; [apply keeps_attempt, Hget|].
    intros [r|e].
    + repeat match goal with
             | |- keeps _ (if ?b then _ else _) => destruct b
             | |- keeps _ (bind _ _) => apply keeps_bind; [|intros ?]
             | |- keeps _ (back_off _) => apply back_off_keeps; exact Hemit
             | |- keeps _ (raise_for_status _) => apply raise_for_status_keeps
             | |- keeps _ (polite_get_loop _ _ _ _) => apply IH
             | |- _ => solve [auto with scan]
             end.
    + destruct (_ >? _); [apply keeps_raise|].
      apply keeps_bind; [apply back_off_keeps; exact Hemit|intros _; apply IH].
Qed.

Lemma get_tick_transactions_emits_any (P : event -> Prop) (fuel : nat)
    (tick : Z) :
  P (EvGet tick) -> P EvSleep -> emits P (get_tick_transactions fuel tick).
Proof.
  intros Hget Hsleep. unfold get_tick_transactions, polite_get.
  apply emits_bind; [now apply polite_get_loop_emits_any|intros r].
  repeat (apply emits_bind; [auto with scan|intros ?]).
  apply emits_ret.
Qed.

Lemma get_tick_transactions_emits (fuel : nat) (tick : Z) :
  emits is_net_event (get_tick_transactions fuel tick).
Proof. apply get_tick_transactions_emits_any; exact I. Qed.

Lemma get_tick_transactions_keeps {X : Type} (f : world -> X)
    (fuel : nat) (tick : Z) :
  (forall t, keeps f (session_get t)) -> (forall ev, keeps f (emit ev)) ->
  keeps f (get_tick_transactions fuel tick).
Proof.
  intros Hget Hemit. unfold get_tick_transactions, polite_get.
  apply keeps_bind; [now apply polite_get_loop_keeps|intros r].
  repeat (apply keeps_bind; [auto with scan|intros ?]).
  apply keeps_ret.
Qed.

End FetchClient.

(** ** The retry loop of [polite_get] *)

Section RetryLoop.

Context {rt : Runtime}.

Lemma back_off_exponential (a : Z) (w : world) :
  a < 1024 ->
  back_off (exponential_backoff a) w = (Val tt, add_event EvSleep w).
Proof.
  intros H. unfold exponential_backoff.
  destruct (1024 <=? a) eqn:E; [apply Z.leb_le in E; lia|reflexivity].
Qed.

Lemma back_off_overflow (a : Z) (w : world) :
  1024 <= a ->
  back_off (exponential_backoff a) w = (Exc OverflowError, w).
Proof.
  intros H. unfold exponential_backoff.
  destruct (1024 <=? a) eqn:E; [reflexivity|apply Z.leb_gt in E; lia].
Qed.

Lemma back_off_retry_after (r : response) (a : Z) (w : world) :
  a < 1024 -> sleeps_on r ->
  back_off (retry_after_backoff r a) w = (Val tt, add_event EvSleep w).
Proof.
  intros Ha Hr. unfold retry_after_backoff, sleeps_on in *.
  destruct (retry_after r) as [ra|]; [|now apply back_off_exponential].
  destruct (String.eqb ra EmptyString) eqn:E;
    [now apply back_off_exponential|].
  destruct (float_of_str ra) as [f|] eqn:F; [|now apply back_off_exponential].
  unfold back_off, bind, time_sleep. cbn.
  rewrite (Hr ra f eq_refl); [reflexivity| |exact F].
  intros ->. discriminate.
Qed.

(** One turn of the loop, by the reply it gets. *)
Lemma polite_get_loop_step (fuel : nat) (tick retries a : Z) (w : world) :
  polite_get_loop (S fuel) tick retries a w =
  let w1 := after_request tick w in
  let again o :=
    (back_off o ;;; polite_get_loop fuel tick retries (a + 1)) w1 in
  match net (sent w) with
  | NetworkFailure =>
      if a + 1 >? retries then (Exc RequestException, w1)
      else again (exponential_backoff (a + 1))
  | Reply r =>
      if retryable (Reply r) then
        if (a + 1 >? retries)
           && ((400 <=? status_code r) && (status_code r <? 600))
        then (Exc (HTTPError (status_code r)), w1)
        else again (if status_code r =? 429
                    then retry_after_backoff r (a + 1)
                    else exponential_backoff (a + 1))
      else if (400 <=? status_code r) && (status_code r <? 600)
           then (Exc (HTTPError (status_code r)), w1)
           else (Val r, w1)
  end.
Proof.
  cbn [polite_get_loop]. unfold bind at 1, attempt, session_get, after_request.
  destruct (net (sent w)) as [|r]; cbn zeta.
  - destruct (a + 1 >? retries); reflexivity.
  - cbn [retryable]. rewrite Z.geb_leb.
    destruct (status_code r =? 429) eqn:E429; cbn [orb].
    + unfold bind at 1, raise_for_status.
      destruct (a + 1 >? retries); cbn [andb]; [|reflexivity].
      destruct ((400 <=? status_code r) && (status_code r <? 600)); reflexivity.
    + destruct (500 <=? status_code r) eqn:E500.
      * unfold bind at 1, raise_for_status.
        destruct (a + 1 >? retries); cbn [andb]; [|reflexivity].
        destruct ((400 <=? status_code r) && (status_code r <? 600));
          reflexivity.
      * unfold bind, raise_for_status.
        destruct ((400 <=? status_code r) && (status_code r <? 600));
          reflexivity.
Qed.

Lemma polite_get_end_shift (budget : Z) (n : nat) (last : reply)
    (res : result response) :
  polite_get_end (budget - 1) n last res -> polite_get_end budget (S n) last res.
Proof.
  unfold polite_get_end. destruct last as [|r].
  - intros [H1 H2]. split; [lia|exact H2].
  - destruct (retryable (Reply r)); [|trivial].
    intros [H1 H2]. split; [lia|exact H2].
Qed.

(** The loop with [a] faults already counted: it sends at most
    [retries - a] further requests after the next one. *)
Lemma polite_get_loop_spec (fuel : nat) (tick retries : Z) :
  forall (a : Z) (w : world),
    0 <= a <= retries -> retries < 1024 ->
    (Z.to_nat (retries - a) < fuel)%nat ->
    (forall k r, net (sent w + k) = Reply r ->
                 status_code r < 600 /\ (status_code r = 429 -> sleeps_on r)) ->
    exists n : nat,
      sent (snd (polite_get_loop fuel tick retries a w)) = (sent w + S n)%nat
      /\ Z.of_nat n <= retries - a
      /\ (forall j, (j < n)%nat -> retryable (net (sent w + j)) = true)
      /\ polite_get_end (retries - a) n (net (sent w + n))
           (fst (polite_get_loop fuel tick retries a w)).
Proof.
  induction fuel as [|fuel IH]; intros a w Ha Hmax Hfuel Hnet; [lia|].
  rewrite polite_get_loop_step. cbn zeta.
  assert (Hcont : forall o,
    a + 1 <= retries ->
    retryable (net (sent w)) = true ->
    back_off o (after_request tick w)
    = (Val tt, add_event EvSleep (after_request tick w)) ->
    exists n : nat,
      sent (snd ((back_off o ;;; polite_get_loop fuel tick retries (a + 1))
                   (after_request tick w)))
      = (sent w + S n)%nat
      /\ Z.of_nat n <= retries - a
      /\ (forall j, (j < n)%nat -> retryable (net (sent w + j)) = true)
      /\ polite_get_end (retries - a) n (net (sent w + n))
           (fst ((back_off o ;;; polite_get_loop fuel tick retries (a + 1))
                   (after_request tick w)))).
  { intros o Hbudget Hfault Hsleep. unfold bind. rewrite Hsleep.
    destruct (IH (a + 1) (add_event EvSleep (after_request tick w)))
      as [n [Hsent [Hn [Hretry Hend]]]]; [lia|lia|lia| |].
    - intros k r Hk. apply (Hnet (S k) r).
      cbn [sent add_event after_request set_sent] in Hk.
      now rewrite Nat.add_succ_r.
    - cbn [sent add_event after_request set_sent] in *.
      exists (S n). repeat split.
      + rewrite Hsent. lia.
      + lia.
      + intros [|j] Hj; [now rewrite Nat.add_0_r|].
        rewrite Nat.add_succ_r. apply Hretry. lia.
      + rewrite Nat.add_succ_r. apply polite_get_end_shift.
        now replace (retries - a - 1) with (retries - (a + 1)) by lia. }
  assert (Hstop : forall res,
    polite_get_end (retries - a) 0 (net (sent w)) res ->
    exists n : nat,
      sent (snd (res, after_request tick w)) = (sent w + S n)%nat
      /\ Z.of_nat n <= retries - a
      /\ (forall j, (j < n)%nat -> retryable (net (sent w + j)) = true)
      /\ polite_get_end (retries - a) n (net (sent w + n))
           (fst (res, after_request tick w))).
  { intros res Hend. exists 0%nat. cbn [fst snd sent after_request set_sent].
    rewrite Nat.add_0_r. repeat split; [lia|lia|intros j Hj; lia|exact Hend]. }
  destruct (net (sent w)) as [|r] eqn:Hreply.
  - destruct (a + 1 >? retries) eqn:Egt.
    + apply Hstop. cbn. apply Z.gtb_lt in Egt. split; [lia|reflexivity].
    + assert (Hle : a + 1 <= retries)
        by (destruct (Z.gtb_spec (a + 1) retries); [discriminate|lia]).
      apply Hcont; [exact Hle|reflexivity|].
      apply back_off_exponential. lia.
  - pose proof (Hnet 0%nat r) as H600. rewrite Nat.add_0_r in H600.
    destruct (H600 Hreply) as [Hlt600 Hok].
    destruct (retryable (Reply r)) eqn:Efault.
    + assert (H400 : (400 <=? status_code r) && (status_code r <? 600) = true).
      { cbn [retryable] in Efault. apply orb_true_iff in Efault.
        apply andb_true_iff. rewrite Z.leb_le, Z.ltb_lt.
        destruct Efault as [E|E];
          [apply Z.eqb_eq in E|apply Z.leb_le in E]; lia. }
      rewrite H400, andb_true_r.
      destruct (a + 1 >? retries) eqn:Egt.
      * apply Hstop. unfold polite_get_end. rewrite Efault.
        apply Z.gtb_lt in Egt. split; [lia|reflexivity].
      * assert (Hle : a + 1 <= retries)
          by (destruct (Z.gtb_spec (a + 1) retries); [discriminate|lia]).
        apply Hcont; [exact Hle|reflexivity|].
        destruct (status_code r =? 429) eqn:E429;
          [apply back_off_retry_after;
             [lia|apply Hok; now apply Z.eqb_eq]
          |apply back_off_exponential; lia].
    + assert (Hlt : (status_code r <? 600) = true) by (apply Z.ltb_lt; lia).
      rewrite Hlt, andb_true_r.
      destruct (400 <=? status_code r) eqn:E400;
        apply Hstop; unfold polite_get_end; rewrite Efault, E400; reflexivity.
Qed.

(** With statuses below 600 and one unit of fuel per allowed request the
    loop is never cut short: it returns or raises. *)
Lemma polite_get_loop_finishes (fuel : nat) (tick retries : Z) :
  forall (a : Z) (w : world),
    0 <= a <= retries -> (Z.to_nat (retries - a) < fuel)%nat ->
    (forall k r, net (sent w + k) = Reply r -> status_code r < 600) ->
    fst (polite_get_loop fuel tick retries a w) <> Pending.
Proof.
  induction fuel as [|fuel IH]; intros a w Ha Hfuel Hnet; [lia|].
  rewrite polite_get_loop_step. cbn zeta.
  assert (Hcont : forall o,
    a + 1 <= retries ->
    fst ((back_off o ;;; polite_get_loop fuel tick retries (a + 1))
           (after_request tick w)) <> Pending).
  { intros o Hle. unfold bind.
    destruct (back_off_cases o (after_request tick w)) as [E|[e E]];
      rewrite E; [|discriminate].
    apply IH; [lia|lia|].
    intros k r Hk. apply (Hnet (S k) r).
    cbn [sent add_event after_request set_sent] in Hk.
    now rewrite Nat.add_succ_r. }
  destruct (net (sent w)) as [|r] eqn:Hreply.
  - destruct (a + 1 >? retries) eqn:Egt; [discriminate|].
    apply Hcont. destruct (Z.gtb_spec (a + 1) retries); [discriminate|lia].
  - pose proof (Hnet 0%nat r) as H600. rewrite Nat.add_0_r in H600.
    specialize (H600 Hreply).
    destruct (retryable (Reply r)) eqn:Efault.
    + assert (H400 : (400 <=? status_code r) && (status_code r <? 600) = true).
      { cbn [retryable] in Efault. apply orb_true_iff in Efault.
        apply andb_true_iff. rewrite Z.leb_le, Z.ltb_lt.
        destruct Efault as [E|E];
          [apply Z.eqb_eq in E|apply Z.leb_le in E]; lia. }
      rewrite H400, andb_true_r.
      destruct (a + 1 >? retries) eqn:Egt; [discriminate|].
      apply Hcont. destruct (Z.gtb_spec (a + 1) retries); [discriminate|lia].
    + destruct (_ && _); discriminate.
Qed.

(** The requests and sleeps of a run of the loop. *)
Lemma retry_events_succ (tick : Z) (n : nat) :
  retry_events tick (S n) = EvGet tick :: EvSleep :: retry_events tick n.
Proof. reflexivity. Qed.

Lemma polite_get_loop_trace (fuel : nat) (tick retries : Z) :
  forall (a : Z) (w : world),
    asked_and_slept tick fuel w (polite_get_loop fuel tick retries a w).
Proof.
  induction fuel as [|fuel IH]; intros a w.
  - exists 0%nat. cbn. rewrite app_nil_r. repeat split; lia.
  - rewrite polite_get_loop_step. cbv zeta.
    assert (Hstop : forall res : result response, res <> Pending ->
              asked_and_slept tick (S fuel) w (res, after_request tick w)).
    { intros res Hres. exists 0%nat. cbn [fst snd].
      repeat split; try reflexivity; try lia.
      destruct res; [| |contradiction]; cbn; (split; [reflexivity|lia]). }
    assert (Hagain : forall o : outcome backoff,
              asked_and_slept tick (S fuel) w
                ((back_off o ;;; polite_get_loop fuel tick retries (a + 1))
                   (after_request tick w))).
    { intros o. unfold bind.
      destruct (back_off_cases o (after_request tick w)) as [E|[e E]];
        rewrite E; [|apply Hstop; discriminate].
      destruct (IH (a + 1) (add_event EvSleep (after_request tick w)))
        as [n [Hn [Hsf [Hrf Hres]]]].
      exists (S n). rewrite Hsf, Hrf.
      repeat split; try reflexivity; try lia.
      destruct (fst (polite_get_loop fuel tick retries (a + 1)
                       (add_event EvSleep (after_request tick w))));
        cbn [trace sent add_event after_request set_sent] in Hres;
        rewrite retry_events_succ.
      - destruct Hres as [Ht Hs]. rewrite Ht, Hs, <- !app_assoc.
        split; [reflexivity|lia].
      - destruct Hres as [Ht Hs]. rewrite Ht, Hs, <- !app_assoc.
        split; [reflexivity|lia].
      - destruct Hres as [Hf [Ht Hs]]. rewrite Ht, Hs, <- !app_assoc.
        repeat split; [lia|lia]. }
    destruct (net (sent w)) as [|r].
    + destruct (a + 1 >? retries); [apply Hstop; discriminate|apply Hagain].
    + destruct (retryable (Reply r)).
      * destruct (_ && _); [apply Hstop; discriminate|apply Hagain].
      * destruct (_ && _); apply Hstop; discriminate.
Qed.

End RetryLoop.

(** ** The stores and the work on one transaction *)

Lemma bind_ret {A B : Type} (a : A) (k : A -> M B) : bind (ret a) k = k a.
Proof. reflexivity. Qed.

Lemma bind_raise {A B : Type} (e : exn) (k : A -> M B) :
  bind (raise e) k = raise e.
Proof. reflexivity. Qed.

Lemma value_get_item (tx : json) (k : string) (v : json) :
  value_get tx k JNull = Ret v -> (exists d, tx = JObj d) /\ v = value_item tx k.
Proof.
  destruct tx; cbn; try discriminate.
  intros H. inversion H. split; [now eexists|reflexivity].
Qed.

Lemma eq_str_true (v : json) (s : string) : eq_str v s = true -> v = JStr s.
Proof.
  destruct v; cbn; try discriminate.
  intros H. apply String.eqb_eq in H. now subst.
Qed.

Ltac step_keeps :=
  repeat match goal with
         | |- keeps _ (bind _ _) => apply keeps_bind; [|intros ?]
         | |- keeps _ (if ?b then _ else _) => destruct b
         | |- keeps _ (let '(_, _) := ?p in _) => destruct p
         | |- keeps _ (match ?o with [] => _ | _ :: _ => _ end) => destruct o
         | |- keeps _ (for_each _ _) => apply keeps_for_each; intros ?
         | |- _ => solve [auto with scan]
         end.

(** [append_match] ends in one of two ways: it raises after the call has
    been noted, the results file being as it was, or it returns and the
    file holds a document. *)
Lemma append_match_cases (rec : json) (w : world) :
  (exists e, append_match rec w = (Exc e, add_event (EvAppend rec) w))
  \/ exists doc,
       append_match rec w
       = (Val tt, set_results_file (Holds doc) (add_event (EvAppend rec) w)).
Proof.
  unfold append_match. cbv zeta.
  destruct (path_exists (results_file (add_event (EvAppend rec) w)))
    as [there|e]; [|left; now exists e].
  destruct (list_append _ rec) as [doc|e];
    [right; now exists doc|left; now exists e].
Qed.

Section Driver.

Context {cfg : Config} {rt : Runtime}.

Lemma append_match_emits (rec : json) : emits is_tx_event (append_match rec).
Proof.
  intros w. exists [EvAppend rec].
  destruct (append_match_cases rec w) as [[e E]|[doc E]]; rewrite E; cbn;
    (split; [reflexivity|repeat constructor]).
Qed.

Lemma append_match_keeps_state_file (rec : json) :
  keeps state_file (append_match rec).
Proof.
  intros w.
  destruct (append_match_cases rec w) as [[e E]|[doc E]]; rewrite E;
    reflexivity.
Qed.

Lemma now_emits (P : event -> Prop) : emits P now.
Proof. intros w. exists []. cbn. now rewrite app_nil_r. Qed.

Lemma now_keeps {X : Type} (f : world -> X) : keeps f now.
Proof. intros w. reflexivity. Qed.

Lemma record_output_emits tick_no txid url out :
  emits is_tx_event (record_output tick_no txid url out).
Proof.
  unfold record_output. destruct out as [pk amt].
  destruct (amt =? TARGET_AMOUNT); [|apply emits_ret].
  apply emits_bind; [apply now_emits|intros stamp]. apply append_match_emits.
Qed.

Lemma record_output_keeps_state_file tick_no txid url out :
  keeps state_file (record_output tick_no txid url out).
Proof.
  unfold record_output. destruct out as [pk amt].
  destruct (amt =? TARGET_AMOUNT); [|apply keeps_ret].
  apply keeps_bind; [apply now_keeps|intros stamp].
  apply append_match_keeps_state_file.
Qed.

(** What the two tests of the driver let through passes the filter. *)
Lemma filter_sound (tx input_type : json) :
  dest_filtered_out tx = Ret false ->
  value_get tx "inputType" JNull = Ret input_type ->
  negb (eq_int input_type 1) || negb (value_mem tx "inputHex") = false ->
  passes_filter tx.
Proof.
  intros Hdest Hty Hflt.
  apply value_get_item in Hty. destruct Hty as [Hobj Hty]. subst input_type.
  apply orb_false_iff in Hflt. destruct Hflt as [H1 H2].
  apply negb_false_iff in H1. apply negb_false_iff in H2.
  repeat split; try assumption.
  unfold dest_filtered_out in Hdest.
  destruct QUTIL_DEST_ID as [id|]; [|exact I].
  intros Hid.
  destruct (String.eqb id EmptyString) eqn:E;
    [apply String.eqb_eq in E; contradiction|].
  destruct (value_get tx "destId" JNull) as [d|e] eqn:Hd; [|discriminate].
  apply value_get_item in Hd. destruct Hd as [_ Hd]. subst d.
  injection Hdest as Hneg. apply negb_false_iff in Hneg.
  now apply eq_str_true.
Qed.

Lemma process_wrap_emits (tick : Z) (wrap : json) :
  emits is_tx_event (process_wrap tick wrap).
Proof.
  unfold process_wrap.
  apply emits_bind; [apply emits_lift|intros inner]. cbn zeta.
  set (tx := py_or inner (JObj [])).
  destruct (dest_filtered_out tx) as [skip|e] eqn:Hdest; cbn [lift];
    [rewrite bind_ret|rewrite bind_raise; apply emits_raise].
  destruct skip; [apply emits_ret|].
  destruct (value_get tx "inputType" JNull) as [input_type|e] eqn:Hty;
    cbn [lift]; [rewrite bind_ret|rewrite bind_raise; apply emits_raise].
  destruct (negb (eq_int input_type 1) || negb (value_mem tx "inputHex"))
    eqn:Hflt; [apply emits_ret|].
  apply emits_bind.
  { apply emits_emit. split; [|reflexivity]. eapply filter_sound; eauto. }
  intros _.
  apply emits_bind; [apply emits_lift|intros outputs].
  destruct outputs as [|o outputs]; [apply emits_ret|].
  apply emits_bind; [apply emits_lift|intros id1].
  apply emits_bind; [destruct (truthy id1); auto with scan|intros txid].
  apply emits_bind; [apply emits_lift|intros tick_no]. cbn zeta.
  apply emits_for_each. intros out. apply record_output_emits.
Qed.

Lemma process_wrap_keeps_state_file (tick : Z) (wrap : json) :
  keeps state_file (process_wrap tick wrap).
Proof.
  unfold process_wrap. step_keeps.
  apply record_output_keeps_state_file.
Qed.

Lemma is_tx_event_not_save (ev : event) : is_tx_event ev -> not_save ev.
Proof. destruct ev; cbn; tauto. Qed.

Lemma is_net_event_not_save (ev : event) : is_net_event ev -> not_save ev.
Proof. destruct ev; cbn; tauto. Qed.

Lemma is_tx_event_filtered (ev : event) : is_tx_event ev -> decode_filtered ev.
Proof. destruct ev; cbn; tauto. Qed.

Lemma is_net_event_filtered (ev : event) : is_net_event ev -> decode_filtered ev.
Proof. destruct ev; cbn; tauto. Qed.

(** ** The loop of [scan] *)

(** One turn of the loop, by what the fetch and the work on the
    transactions of the tick end with. *)
Lemma scan_loop_step (steps fuel : nat) (tick : Z) (st : list (string * json))
    (w : world) :
  tick <= END_TICK ->
  scan_loop (S steps) fuel tick st w =
  let st' := dict_set st "next_tick" (JInt (tick + 1)) in
  match get_tick_transactions fuel tick w with
  | (Pending, w1) => (Pending, w1)
  | (Exc e, w1) =>
      scan_loop steps fuel (tick + 1) st'
        (after_save (JObj st') (add_event (EvWarn tick e) w1))
  | (Val wraps, w1) =>
      match for_each wraps (process_wrap tick) w1 with
      | (Val _, w2) =>
          scan_loop steps fuel (tick + 1) st' (after_save (JObj st') w2)
      | (Exc e, w2) => (Exc e, w2)
      | (Pending, w2) => (Pending, w2)
      end
  end.
Proof.
  intros Hle. cbn [scan_loop].
  destruct (tick <=? END_TICK) eqn:E; [|apply Z.leb_gt in E; lia].
  unfold bind at 1, attempt.
  destruct (get_tick_transactions fuel tick w) as [[wraps|e|] w1];
    [|reflexivity|reflexivity].
  unfold bind at 1.
  destruct (for_each wraps (process_wrap tick) w1) as [[[]|e|] w2];
    reflexivity.
Qed.

Lemma scan_loop_done (steps fuel : nat) (tick : Z) (st : list (string * json))
    (w : world) :
  END_TICK < tick -> scan_loop steps fuel tick st w = (Val tt, w).
Proof.
  intros Hgt.
  destruct steps; cbn [scan_loop];
    (destruct (tick <=? END_TICK) eqn:E; [apply Z.leb_le in E; lia|reflexivity]).
Qed.

(** The progress states of the ticks [tick .. tick + k - 1]. *)
Lemma progress_states_shift (st : list (string * json)) (tick : Z) (k : nat) :
  map (fun j => JObj (dict_set (dict_set st "next_tick" (JInt (tick + 1)))
                        "next_tick" (JInt (tick + 1 + Z.of_nat j)))) (seq 1 k)
  = map (fun j => JObj (dict_set st "next_tick" (JInt (tick + Z.of_nat j))))
        (seq 2 k).
Proof.
  rewrite <- (seq_shift k 1), map_map.
  apply map_ext. intros j. rewrite dict_set_set. do 3 f_equal. lia.
Qed.

(** The loop saves the progress state once for each tick it closes, in
    order, and the progress file holds the last of them. *)
Lemma scan_loop_progress (fuel : nat) (steps : nat) :
  forall (tick : Z) (st : list (string * json)) (w : world),
  exists (evs : list event) (k : nat),
    trace (snd (scan_loop steps fuel tick st w)) = trace w ++ evs
    /\ saves evs
       = map (fun j => JObj (dict_set st "next_tick" (JInt (tick + Z.of_nat j))))
             (seq 1 k)
    /\ (k <= steps)%nat
    /\ Z.of_nat k <= Z.max 0 (END_TICK + 1 - tick)
    /\ state_file (snd (scan_loop steps fuel tick st w))
       = match k with
         | O => state_file w
         | S _ => Holds (JObj (dict_set st "next_tick"
                                 (JInt (tick + Z.of_nat k))))
         end
    /\ (fst (scan_loop steps fuel tick st w) = Val tt ->
        Z.of_nat k = Z.max 0 (END_TICK + 1 - tick)).
Proof.
  induction steps as [|steps IH]; intros tick st w.
  - exists [], 0%nat. rewrite app_nil_r. cbn [scan_loop].
    destruct (tick <=? END_TICK) eqn:E; cbn;
      repeat split; try reflexivity; try lia; try discriminate;
      try (intros _; apply Z.leb_gt in E; lia).
  - destruct (Z.le_gt_cases tick END_TICK) as [Hle|Hgt].
    2:{ rewrite scan_loop_done by lia. exists [], 0%nat. rewrite app_nil_r.
        cbn. repeat split; try reflexivity; lia. }
    rewrite scan_loop_step by exact Hle. cbn zeta.
    set (st' := dict_set st "next_tick" (JInt (tick + 1))).
    destruct (get_tick_transactions_emits fuel tick w) as [evs1 [Ht1 Hnet1]].
    pose proof (get_tick_transactions_keeps state_file fuel tick
                  session_get_keeps_state_file keeps_emit_state_file w) as Hf1.
    assert (Hq1 : saves evs1 = []).
    { apply saves_quiet. eapply Forall_impl; [|exact Hnet1].
      exact is_net_event_not_save. }
    assert (Hclose : forall w2 evs2,
      trace w2 = trace w ++ evs2 -> saves evs2 = [] ->
      exists (evs : list event) (k : nat),
        trace (snd (scan_loop steps fuel (tick + 1) st'
                      (after_save (JObj st') w2))) = trace w ++ evs
        /\ saves evs
           = map (fun j => JObj (dict_set st "next_tick"
                                   (JInt (tick + Z.of_nat j)))) (seq 1 k)
        /\ (k <= S steps)%nat
        /\ Z.of_nat k <= Z.max 0 (END_TICK + 1 - tick)
        /\ state_file (snd (scan_loop steps fuel (tick + 1) st'
                              (after_save (JObj st') w2)))
           = match k with
             | O => state_file w
             | S _ => Holds (JObj (dict_set st "next_tick"
                                     (JInt (tick + Z.of_nat k))))
             end
        /\ (fst (scan_loop steps fuel (tick + 1) st'
                   (after_save (JObj st') w2)) = Val tt ->
            Z.of_nat k = Z.max 0 (END_TICK + 1 - tick))).
    { intros w2 evs2 Ht2 Hq2.
      destruct (IH (tick + 1) st' (after_save (JObj st') w2))
        as [evs [k [Ht [Hs [Hk [Hmax [Hfile Hdone]]]]]]].
      exists (evs2 ++ EvSave (JObj st') :: evs), (S k).
      repeat split.
      - rewrite Ht. cbn [trace after_save set_state_file add_event].
        rewrite Ht2, <- !app_assoc. reflexivity.
      - rewrite saves_app, Hq2. cbn [app saves flat_map].
        fold (saves evs). rewrite Hs. unfold st'.
        rewrite progress_states_shift. cbn [seq map app].
        do 3 f_equal; lia.
      - lia.
      - lia.
      - rewrite Hfile. destruct k as [|k'].
        + cbn [state_file after_save set_state_file]. unfold st'.
          do 4 f_equal; lia.
        + unfold st'. rewrite dict_set_set. do 4 f_equal; lia.
      - intros Hv. specialize (Hdone Hv). lia. }
    destruct (get_tick_transactions fuel tick w) as [[wraps|e|] w1] eqn:G;
      cbn [snd] in Ht1, Hf1.
    + destruct (emits_for_each is_tx_event wraps (process_wrap tick)
                  (process_wrap_emits tick) w1) as [evs2 [Ht2 Htx2]].
      pose proof (keeps_for_each state_file wraps (process_wrap tick)
                    (process_wrap_keeps_state_file tick) w1) as Hf2.
      assert (Hq2 : saves evs2 = []).
      { apply saves_quiet. eapply Forall_impl; [|exact Htx2].
        exact is_tx_event_not_save. }
      destruct (for_each wraps (process_wrap tick) w1) as [[[]|e|] w2];
        cbn [snd] in Ht2, Hf2.
      * apply (Hclose w2 (evs1 ++ evs2)).
        -- now rewrite Ht2, Ht1, app_assoc.
        -- now rewrite saves_app, Hq1, Hq2.
      * exists (evs1 ++ evs2), 0%nat. cbn [fst snd seq map].
        repeat split; try lia; try discriminate.
        -- now rewrite Ht2, Ht1, app_assoc.
        -- now rewrite saves_app, Hq1, Hq2.
        -- now rewrite Hf2, Hf1.
      * exists (evs1 ++ evs2), 0%nat. cbn [fst snd seq map].
        repeat split; try lia; try discriminate.
        -- now rewrite Ht2, Ht1, app_assoc.
        -- now rewrite saves_app, Hq1, Hq2.
        -- now rewrite Hf2, Hf1.
    + apply (Hclose (add_event (EvWarn tick e) w1) (evs1 ++ [EvWarn tick e])).
      * cbn [trace add_event]. now rewrite Ht1, app_assoc.
      * rewrite saves_app, Hq1. reflexivity.
    + exists evs1, 0%nat. cbn [fst snd seq map].
      repeat split; try lia; try discriminate; assumption.
Qed.

End Driver.

(** ** The scan ends *)

Lemma settles_ret {A : Type} (a : A) : settles (ret a).
Proof. intros w. discriminate. Qed.

Lemma settles_raise {A : Type} (e : exn) : settles (@raise A e).
Proof. intros w. discriminate. Qed.

Lemma settles_lift {A : Type} (o : outcome A) : settles (lift o).
Proof. destruct o; [apply settles_ret|apply settles_raise]. Qed.

Lemma settles_emit (ev : event) : settles (emit ev).
Proof. intros w. discriminate. Qed.

Lemma settles_bind {A B : Type} (c : M A) (k : A -> M B) :
  settles c -> (forall a, settles (k a)) -> settles (bind c k).
Proof.
  intros Hc Hk w. unfold bind. specialize (Hc w).
  destruct (c w) as [[a|e|] w1]; cbn [fst] in *;
    [apply Hk|discriminate|now elim Hc].
Qed.

Lemma settles_attempt {A : Type} (c : M A) : settles c -> settles (attempt c).
Proof.
  intros Hc w. unfold attempt. specialize (Hc w).
  destruct (c w) as [[a|e|] w1]; cbn [fst] in *;
    [discriminate|discriminate|now elim Hc].
Qed.

Lemma settles_for_each {A : Type} (l : list A) (body : A -> M unit) :
  (forall x, settles (body x)) -> settles (for_each l body).
Proof.
  intros Hb. induction l as [|x l IH]; cbn [for_each].
  - apply settles_ret.
  - apply settles_bind; [apply Hb|intros _; exact IH].
Qed.

#[local] Hint Resolve settles_ret settles_raise settles_lift settles_emit
  settles_attempt : scan.

Ltac step_settles :=
  repeat match goal with
         | |- settles (bind _ _) => apply settles_bind; [|intros ?]
         | |- settles (if ?b then _ else _) => destruct b
         | |- settles (let '(_, _) := ?p in _) => destruct p
         | |- settles (match ?o with [] => _ | _ :: _ => _ end) => destruct o
         | |- settles (for_each _ _) => apply settles_for_each; intros ?
         | |- _ => solve [auto with scan]
         end.

Section Termination.

Context {cfg : Config} {rt : Runtime}.

(** The archiver answers with statuses below 600. *)
Hypothesis statuses_below_600 :
  forall k r, net k = Reply r -> status_code r < 600.

Lemma append_match_settles (rec : json) : settles (append_match rec).
Proof.
  intros w.
  destruct (append_match_cases rec w) as [[e E]|[doc E]]; rewrite E;
    discriminate.
Qed.

Lemma record_output_settles tick_no txid url out :
  settles (record_output tick_no txid url out).
Proof.
  unfold record_output. destruct out as [pk amt].
  destruct (amt =? TARGET_AMOUNT); [|apply settles_ret].
  apply settles_bind; [intros w; discriminate|intros stamp].
  apply append_match_settles.
Qed.

Lemma process_wrap_settles (tick : Z) (wrap : json) :
  settles (process_wrap tick wrap).
Proof.
  unfold process_wrap. step_settles. apply record_output_settles.
Qed.

Lemma get_tick_transactions_settles (fuel : nat) (tick : Z) :
  (7 <= fuel)%nat -> settles (get_tick_transactions fuel tick).
Proof.
  intros Hfuel. unfold get_tick_transactions, polite_get.
  apply settles_bind.
  - intros w. apply polite_get_loop_finishes; [lia|simpl; lia|].
    intros k r. apply statuses_below_600.
  - intros r. step_settles.
Qed.

(** With 7 requests allowed to each fetch and as many steps as there are
    ticks left, the loop ends. *)
Lemma scan_loop_settles (steps fuel : nat) (tick : Z)
    (st : list (string * json)) :
  (7 <= fuel)%nat -> (Z.to_nat (END_TICK + 1 - tick) <= steps)%nat ->
  settles (scan_loop steps fuel tick st).
Proof.
  intros Hfuel. revert tick st.
  induction steps as [|steps IH]; intros tick st Hsteps w.
  - rewrite scan_loop_done by lia. discriminate.
  - destruct (Z.le_gt_cases tick END_TICK) as [Hle|Hgt];
      [|rewrite scan_loop_done by lia; discriminate].
    rewrite scan_loop_step by exact Hle. cbn zeta.
    pose proof (get_tick_transactions_settles fuel tick Hfuel w) as Hget.
    destruct (get_tick_transactions fuel tick w) as [[wraps|e|] w1];
      cbn [fst] in Hget; [| |contradiction].
    + pose proof (settles_for_each wraps (process_wrap tick)
                    (process_wrap_settles tick) w1) as Hwork.
      destruct (for_each wraps (process_wrap tick) w1) as [[[]|e|] w2];
        cbn [fst] in Hwork; [|discriminate|contradiction].
      apply IH. lia.
    + apply IH. lia.
Qed.

End Termination.

(** * The decoder *)

(** C1, as amended.  For every payload made of [n >= 1] recipient
    identifiers of 32 bytes followed by [n] amounts of 8 bytes,
    little-endian, each strictly between 0 and 10^12, and such that the last
    8 bytes of the last recipient do not themselves read as an amount
    strictly between 0 and 10^12, decoding the hex text of the payload
    returns exactly the [n] (recipient, amount) pairs, in order. *)
Theorem decode_qutil_outputs_payload (rs : list bytes) (amts : list Z) :
  (1 <= length rs)%nat -> length rs = length amts ->
  Forall is_recipient rs ->
  Forall (fun a => 0 < a < 10 ^ 12) amts ->
  plausible (int_from_bytes_le (skipn 24 (last rs []))) = false ->
  decode_qutil_outputs (JStr (hexlify (payload rs amts)))
  = Ret (combine rs amts).
Proof.
  intros Hn Hlen Hrs Hamts Hstop.
  apply decode_of_payload; try assumption.
  apply unhexlify_hexlify.
Qed.

Lemma decode_qutil_outputs_payload_witness :
  decode_qutil_outputs
    (JStr (hexlify (payload [repeat x07 32; repeat xff 32] [5; 999999999999])))
  = Ret [(repeat x07 32, 5); (repeat xff 32, 999999999999)].
Proof.
  apply (decode_qutil_outputs_payload
           [repeat x07 32; repeat xff 32] [5; 999999999999]).
  - simpl. lia.
  - reflexivity.
  - repeat constructor.
  - repeat constructor; lia.
  - reflexivity.
Defined.

(** C1, as stated, fails: a recipient whose last 8 bytes read as the amount
    1 is taken for one more amount, the recipient block is then too short,
    and the decoder returns nothing. *)
Lemma decode_qutil_outputs_payload_counterexample :
  let r := repeat x00 24 ++ x01 :: repeat x00 7 in
  (1 <= length [r])%nat
  /\ length [r] = length [1]
  /\ Forall is_recipient [r]
  /\ Forall (fun a => 0 < a < 10 ^ 12) [1]
  /\ decode_qutil_outputs (JStr (hexlify (payload [r] [1]))) = Ret []
  /\ combine [r] [1] = [(r, 1)].
Proof.
  cbv zeta. repeat split; try reflexivity; try lia.
  - repeat constructor.
  - repeat constructor; lia.
Qed.

(** C7.  A hex string whose bytes are fewer than 8, or whose last 8 bytes
    read as an unsigned little-endian integer are not strictly between 0
    and 10^12, decodes to the empty list. *)
Theorem decode_qutil_outputs_no_tail (s : string) (raw : bytes) :
  unhexlify s = Ret raw ->
  (length raw < 8)%nat
  \/ ~ (0 < int_from_bytes_le (skipn (length raw - 8) raw) < 10 ^ 12) ->
  decode_qutil_outputs (JStr s) = Ret [].
Proof.
  intros Hs H. apply (decode_of_no_tail s raw Hs).
  destruct H as [H|H]; [now left|right].
  destruct (plausible _) eqn:P; [|reflexivity].
  apply plausible_range in P. contradiction.
Qed.

Lemma decode_qutil_outputs_no_tail_witness :
  decode_qutil_outputs (JStr "0010a5d4e8000000") = Ret []
  /\ decode_qutil_outputs (JStr "01020304050607") = Ret [].
Proof.
  split.
  - apply (decode_qutil_outputs_no_tail "0010a5d4e8000000"
             [x00; x10; xa5; xd4; xe8; x00; x00; x00]).
    + reflexivity.
    + right. cbn. lia.
  - apply (decode_qutil_outputs_no_tail "01020304050607"
             [x01; x02; x03; x04; x05; x06; x07]).
    + reflexivity.
    + left. simpl. lia.
Defined.

Lemma decode_malformed_hex (s : string) :
  unhexlify s = Raise BinasciiError -> decode_qutil_outputs (JStr s) = Ret [].
Proof.
  intros H. unfold decode_qutil_outputs, unhexlify_value. now rewrite H.
Qed.

(** C2, at the input where it fails.  On a string with a character
    outside ASCII, [binascii.unhexlify] raises [ValueError], which
    [except binascii.Error] does not catch: the decoder raises instead of
    returning the empty list.  On ASCII text it always returns
    ([decode_ascii_returns]), with the empty list on malformed hex
    ([decode_malformed_hex]), without a plausible trailing amount
    ([decode_of_no_tail]) and on a short recipient block
    ([decode_short_recipient_block]). *)
Theorem decode_qutil_outputs_non_ascii_raises :
  decode_qutil_outputs (JStr (String "233" (String "233" EmptyString)))
  = Raise ValueError.
Proof. reflexivity. Qed.

(** * The fetch client *)

(** C5, as amended.  When the statuses of the replies are below 600, no
    429 carries a [Retry-After] header that [time.sleep] refuses, and
    [retries] is below 1024, [polite_get] sends [n + 1] requests with
    [n <= retries]; each of the first [n] replies is a network failure, a
    429 or a 5xx; and on the reply of the last request it raises the fault
    when that reply is again such a fault (the budget is then used up,
    [n = retries]), raises at once when the status is another one from 400
    on, and returns the response when the status is below 400. *)
Theorem polite_get_retry_budget {rt : Runtime} (fuel : nat) (tick retries : Z)
    (w : world) :
  0 <= retries < 1024 -> (Z.to_nat retries < fuel)%nat ->
  (forall k r, net (sent w + k) = Reply r ->
               status_code r < 600 /\ (status_code r = 429 -> sleeps_on r)) ->
  exists n : nat,
    sent (snd (polite_get fuel tick retries w)) = (sent w + S n)%nat
    /\ Z.of_nat n <= retries
    /\ (forall j, (j < n)%nat -> retryable (net (sent w + j)) = true)
    /\ polite_get_end retries n (net (sent w + n))
         (fst (polite_get fuel tick retries w)).
Proof.
  intros Hr Hfuel Hnet. unfold polite_get.
  destruct (polite_get_loop_spec fuel tick retries 0 w) as [n H];
    [lia|lia|now rewrite Z.sub_0_r|exact Hnet|].
  rewrite Z.sub_0_r in H. now exists n.
Qed.

Lemma polite_get_retry_budget_witness :
  let replies :=
    replies_of [Reply (mkResponse 429 (Some "2"%string) None);
                Reply (mkResponse 503 None None);
                NetworkFailure]
      (Reply (mkResponse 404 None None)) in
  exists n : nat,
    sent (snd (polite_get (rt := runtime_of replies) 7 100 6 empty_world))
    = (0 + S n)%nat
    /\ Z.of_nat n <= 6
    /\ (forall j, (j < n)%nat -> retryable (replies (0 + j)%nat) = true)
    /\ polite_get_end 6 n (replies (0 + n)%nat)
         (fst (polite_get (rt := runtime_of replies) 7 100 6 empty_world)).
Proof.
  cbv zeta.
  apply (polite_get_retry_budget
           (rt := runtime_of
                    (replies_of [Reply (mkResponse 429 (Some "2"%string) None);
                                 Reply (mkResponse 503 None None);
                                 NetworkFailure]
                       (Reply (mkResponse 404 None None))))
           7 100 6 empty_world).
  - lia.
  - simpl. lia.
  - intros k r H.
    destruct k as [|[|[|[|k]]]]; cbn in H; try discriminate;
      injection H as <-; (split; [cbn; lia|]); cbn [status_code];
      try (intros E; discriminate E).
    intros _ ra f Hra Hne Hf. cbn in Hra. injection Hra as <-.
    cbn in Hf. injection Hf as <-. reflexivity.
Defined.

(** C5, as stated, fails in four ways.  A status that is neither 2xx nor
    an error for [raise_for_status] (here 304) is returned, not raised.  A
    status from 600 on is retried although it is not a 5xx, and past the
    budget: after 50 requests the client is still asking.  A 429 whose
    [Retry-After] is [-1] is not retried: [time.sleep] raises [ValueError],
    which is not the underlying failure.  And with a budget of 2000 retries
    the 1024th fault raises [OverflowError] from the back-off. *)
Lemma polite_get_retry_budget_counterexample :
  fst (polite_get (rt := runtime_of (always 304 None)) 7 100 6 empty_world)
  = Val (mkResponse 304 None None)
  /\ fst (polite_get (rt := runtime_of (always 600 None)) 50 100 6 empty_world)
     = Pending
  /\ sent (snd (polite_get (rt := runtime_of (always 600 None)) 50 100 6
                  empty_world)) = 50%nat
  /\ polite_get
       (rt := runtime_of
                (fun _ => Reply (mkResponse 429 (Some "-1"%string) None)))
       7 100 6 empty_world
     = (Exc ValueError, mkWorld Absent Absent 1 [EvGet 100])
  /\ fst (polite_get (rt := runtime_of network_down) 1100 100 2000 empty_world)
     = Exc OverflowError
  /\ sent (snd (polite_get (rt := runtime_of network_down) 1100 100 2000
                  empty_world)) = 1024%nat.
Proof. repeat split; vm_compute; reflexivity. Qed.

(** Two faults and then a success: three requests, two sleeps, and the
    response is returned.  A 404 is raised at the first request. *)
Example polite_get_retries_then_succeeds :
  let ok := mkResponse 200 None (Some (JObj [])) in
  let rt := runtime_of
              (replies_of [Reply (mkResponse 429 (Some "2"%string) None);
                           NetworkFailure]
                 (Reply ok)) in
  polite_get 7 100 6 empty_world
  = (Val ok, mkWorld Absent Absent 3
               [EvGet 100; EvSleep; EvGet 100; EvSleep; EvGet 100])
  /\ polite_get (rt := runtime_of (always 404 None)) 7 100 6 empty_world
     = (Exc (HTTPError 404), mkWorld Absent Absent 1 [EvGet 100]).
Proof. cbv zeta. split; reflexivity. Qed.

(** * The stores *)

Section Stores.

Context {cfg : Config}.

(** C6, at the input where it fails.  The test
    [pathlib.Path(STATE_FILE).exists()] stands before the [try], so when the
    path cannot be examined (a component without search permission, a name
    longer than the system allows) its [OSError] leaves [load_state].
    On every other path [load_state] returns: the document of a file
    that holds one, and the default state [{"next_tick": START_TICK}] when
    the file is missing and when reading or parsing it raises.  The world
    is left as it is in every case. *)
Theorem load_state_raises_on_path_check (w : world) :
  load_state (set_state_file Inaccessible w)
  = (Exc OSError, set_state_file Inaccessible w)
  /\ match state_file w with
     | Inaccessible => load_state w = (Exc OSError, w)
     | Holds doc => load_state w = (Val doc, w)
     | Absent | NotReadable | Garbled =>
         load_state w
         = (Val (JObj [("next_tick"%string, JInt START_TICK)]), w)
     end.
Proof.
  split; [reflexivity|].
  unfold load_state. destruct (state_file w); reflexivity.
Qed.

Lemma load_state_world (w : world) : snd (load_state w) = w.
Proof.
  unfold load_state.
  destruct (path_exists (state_file w)) as [[|]|e]; try reflexivity.
  destruct (json_load (state_file w)); reflexivity.
Qed.

Lemma load_state_holds (w : world) (doc : json) :
  state_file w = Holds doc -> load_state w = (Val doc, w).
Proof. intros H. unfold load_state. now rewrite H. Qed.

End Stores.

(** C9.  When the results file holds a collection, [append_match r]
    succeeds, and reloading the file yields the collection with [r] added at
    the end, unchanged. *)
Theorem append_match_round_trip (rec : json) (existing : list json) (w : world) :
  results_file w = Holds (JArr existing) ->
  fst (append_match rec w) = Val tt
  /\ json_load (results_file (snd (append_match rec w)))
     = Ret (JArr (existing ++ [rec])).
Proof.
  intros H. unfold append_match.
  cbn [results_file add_event]. rewrite H. cbn. split; reflexivity.
Qed.

Lemma append_match_round_trip_witness :
  fst (append_match (JObj [("amount"%string, JInt 1)])
         (mkWorld Absent (Holds (JArr [JInt 7; JNull])) 0 [])) = Val tt
  /\ json_load
       (results_file
          (snd (append_match (JObj [("amount"%string, JInt 1)])
                  (mkWorld Absent (Holds (JArr [JInt 7; JNull])) 0 []))))
     = Ret (JArr ([JInt 7; JNull] ++ [JObj [("amount"%string, JInt 1)]])).
Proof.
  apply (append_match_round_trip (JObj [("amount"%string, JInt 1)])
           [JInt 7; JNull]
           (mkWorld Absent (Holds (JArr [JInt 7; JNull])) 0 [])).
  reflexivity.
Defined.

(** A results file that holds a document that is not a list makes
    [append_match] raise and is left as it is. *)
Lemma append_match_not_a_list (rec doc : json) (w : world) :
  results_file w = Holds doc -> (forall l, doc <> JArr l) ->
  fst (append_match rec w) = Exc AttributeError
  /\ results_file (snd (append_match rec w)) = Holds doc.
Proof.
  intros H Hdoc. unfold append_match. cbn [results_file add_event].
  rewrite H. cbn.
  destruct doc; cbn; try (split; [reflexivity|exact H]).
  now elim (Hdoc items).
Qed.

(** * The scan driver *)

Section Scan.

Context {cfg : Config} {rt : Runtime}.

Lemma scan_on_object (steps fuel : nat) (w : world) (d : list (string * json))
    (tick : Z) :
  load_state w = (Val (JObj d), w) ->
  py_int (match dict_get d "next_tick" with
          | Some v => v
          | None => JInt START_TICK
          end) = Ret tick ->
  scan steps fuel w = scan_loop steps fuel tick d w.
Proof.
  intros Hload Hint. unfold scan, bind. rewrite Hload.
  cbn [value_get lift ret]. rewrite Hint. reflexivity.
Qed.

Lemma scan_startup_raises (steps fuel : nat) (w : world) (doc : json) (e : exn) :
  load_state w = (Val doc, w) ->
  match value_get doc "next_tick" (JInt START_TICK) with
  | Ret first => py_int first = Raise e
  | Raise e' => e' = e
  end ->
  scan steps fuel w = (Exc e, w).
Proof.
  intros Hload H. unfold scan, bind. rewrite Hload.
  destruct (value_get doc "next_tick" (JInt START_TICK)) as [first|e'];
    cbn [lift ret raise].
  - rewrite H. reflexivity.
  - now subst e'.
Qed.

(** A progress file with an integer [next_tick] makes the scan start
    at that tick. *)
Lemma scan_starts_at_saved_tick (w : world) (d : list (string * json))
    (tick t0 : Z) :
  load_state w = (Val (JObj d), w) ->
  py_int (match dict_get d "next_tick" with
          | Some v => v
          | None => JInt START_TICK
          end) = Ret tick ->
  file_next_tick (state_file w) = Some t0 -> t0 = tick.
Proof.
  intros Hload Hint Hfile.
  destruct (state_file w) as [| | | |doc] eqn:Hw; try discriminate.
  rewrite (load_state_holds w doc Hw) in Hload.
  injection Hload as Hdoc. subst doc.
  cbn [file_next_tick state_next_tick] in Hfile.
  destruct (dict_get d "next_tick") as [[| |z| | | |]|]; try discriminate.
  cbn in Hint. congruence.
Qed.

Lemma retry_events_fetch (tick : Z) (n : nat) :
  Forall (is_fetch_of tick) (retry_events tick n ++ [EvGet tick]).
Proof.
  induction n as [|n IH].
  - constructor; [now left|constructor].
  - rewrite retry_events_succ. cbn [app].
    constructor; [now left|]. constructor; [now right|exact IH].
Qed.

Lemma retry_events_sleeps (tick : Z) (n : nat) :
  Forall (is_fetch_of tick) (retry_events tick n).
Proof.
  induction n as [|n IH]; [constructor|].
  rewrite retry_events_succ.
  constructor; [now left|]. constructor; [now right|exact IH].
Qed.

Lemma is_fetch_of_not_save (tick : Z) (ev : event) :
  is_fetch_of tick ev -> not_save ev.
Proof. intros [->| ->]; exact I. Qed.

(** The fetch of a tick adds the requests and sleeps of [polite_get] and
    nothing else. *)
Lemma get_tick_transactions_trace (fuel : nat) (tick : Z) (w : world) :
  asked_and_slept tick fuel w (get_tick_transactions fuel tick w).
Proof.
  destruct (polite_get_loop_trace fuel tick 6 0 w) as [n [Hn [Hsf [Hrf H]]]].
  unfold get_tick_transactions, polite_get, bind.
  destruct (polite_get_loop fuel tick 6 0 w) as [[r|e|] w1];
    cbn [fst snd] in *; exists n.
  - destruct (response_json r) as [data|e]; cbn [lift ret raise];
      [destruct (value_get data "transactions" JNull); cbn [lift ret raise]|];
      cbn [fst snd]; auto.
  - cbn [fst snd]. auto.
  - cbn [fst snd]. auto.
Qed.

Lemma closed_ticks_saves (segs : list (list event)) :
  forall t, closed_ticks t segs ->
            length (saves (concat segs)) = length segs.
Proof.
  induction segs as [|seg segs IH]; intros t H; [reflexivity|].
  destruct H as [[fetch [work [st [-> [Hf [_ [Hw _]]]]]]] Hrest].
  cbn [concat length]. rewrite !saves_app, !length_app, (IH _ Hrest).
  rewrite (saves_quiet fetch)
    by (eapply Forall_impl; [|exact Hf]; apply is_fetch_of_not_save).
  assert (Hq : saves work = []).
  { destruct Hw as [[e ->]|Hw]; [reflexivity|].
    apply saves_quiet. eapply Forall_impl; [|exact Hw].
    exact is_tx_event_not_save. }
  rewrite Hq. reflexivity.
Qed.

Lemma open_tick_saves (t : Z) (rest : list event) :
  open_tick t rest -> saves rest = [].
Proof.
  intros [fetch [work [-> [Hf Hw]]]]. rewrite saves_app.
  rewrite (saves_quiet fetch)
    by (eapply Forall_impl; [|exact Hf]; apply is_fetch_of_not_save).
  apply saves_quiet. eapply Forall_impl; [|exact Hw].
  exact is_tx_event_not_save.
Qed.

Lemma open_tick_nil (t : Z) : open_tick t [].
Proof. exists [], []. repeat split; constructor. Qed.

(** The trace of the loop, tick by tick: closed ticks in a row, then what
    was done of the tick the run stopped in. *)
Lemma scan_loop_ticks (fuel : nat) (steps : nat) :
  forall (tick : Z) (st : list (string * json)) (w : world),
  exists (segs : list (list event)) (rest : list event),
    trace (snd (scan_loop steps fuel tick st w))
    = trace w ++ concat segs ++ rest
    /\ (length segs <= steps)%nat
    /\ closed_ticks tick segs
    /\ open_tick (tick + Z.of_nat (length segs)) rest
    /\ match fst (scan_loop steps fuel tick st w) with
       | Val _ => rest = []
       | Exc _ =>
           tick + Z.of_nat (length segs) <= END_TICK
           /\ In (EvGet (tick + Z.of_nat (length segs))) rest
       | Pending =>
           tick + Z.of_nat (length segs) <= END_TICK
           /\ ((length segs = steps /\ rest = [])
               \/ rest = retry_events (tick + Z.of_nat (length segs)) fuel)
       end.
Proof.
  induction steps as [|steps IH]; intros tick st w.
  - exists [], []. cbn [scan_loop concat length app].
    rewrite app_nil_r, Z.add_0_r.
    destruct (tick <=? END_TICK) eqn:E; cbn [fst snd pending ret].
    + apply Z.leb_le in E.
      repeat split; try lia; try apply open_tick_nil. now left.
    + repeat split; try lia; apply open_tick_nil.
  - destruct (Z.le_gt_cases tick END_TICK) as [Hle|Hgt].
    2:{ rewrite scan_loop_done by lia. exists [], [].
        cbn [concat length app fst snd]. rewrite app_nil_r.
        repeat split; try lia; apply open_tick_nil. }
    rewrite scan_loop_step by exact Hle. cbn zeta.
    set (st' := dict_set st "next_tick" (JInt (tick + 1))).
    assert (Hclose : forall (w2 : world) (fetch work : list event),
      trace w2 = trace w ++ fetch ++ work ->
      Forall (is_fetch_of tick) fetch -> In (EvGet tick) fetch ->
      (exists e, work = [EvWarn tick e]) \/ Forall is_tx_event work ->
      exists (segs : list (list event)) (rest : list event),
        trace (snd (scan_loop steps fuel (tick + 1) st'
                      (after_save (JObj st') w2)))
        = trace w ++ concat segs ++ rest
        /\ (length segs <= S steps)%nat
        /\ closed_ticks tick segs
        /\ open_tick (tick + Z.of_nat (length segs)) rest
        /\ match fst (scan_loop steps fuel (tick + 1) st'
                        (after_save (JObj st') w2)) with
           | Val _ => rest = []
           | Exc _ =>
               tick + Z.of_nat (length segs) <= END_TICK
               /\ In (EvGet (tick + Z.of_nat (length segs))) rest
           | Pending =>
               tick + Z.of_nat (length segs) <= END_TICK
               /\ ((length segs = S steps /\ rest = [])
                   \/ rest
                      = retry_events (tick + Z.of_nat (length segs)) fuel)
           end).
    { intros w2 fetch work Ht2 Hf Hin Hw.
      destruct (IH (tick + 1) st' (after_save (JObj st') w2))
        as [segs [rest [Ht [Hk [Hsegs [Hopen Hend]]]]]].
      exists ((fetch ++ work ++ [EvSave (JObj st')]) :: segs), rest.
      cbn [concat length].
      replace (tick + Z.of_nat (S (length segs)))
        with (tick + 1 + Z.of_nat (length segs)) by lia.
      repeat split.
      - rewrite Ht. cbn [trace after_save set_state_file add_event].
        rewrite Ht2, <- !app_assoc. reflexivity.
      - lia.
      - exists fetch, work, (JObj st'). repeat split; try assumption.
        unfold st'. cbn [state_next_tick]. now rewrite dict_get_set.
      - exact Hsegs.
      - exact Hopen.
      - destruct (fst (scan_loop steps fuel (tick + 1) st'
                         (after_save (JObj st') w2))); try exact Hend.
        destruct Hend as [Hle' [[Hl Hr]|Hr]];
          (split; [exact Hle'|]); [left; split; [lia|exact Hr]|now right]. }
    destruct (get_tick_transactions_trace fuel tick w)
      as [n [Hn [_ [_ Hfetch]]]].
    destruct (get_tick_transactions fuel tick w) as [[wraps|e|] w1];
      cbn [fst snd] in Hfetch.
    + destruct Hfetch as [Ht1 _].
      destruct (emits_for_each is_tx_event wraps (process_wrap tick)
                  (process_wrap_emits tick) w1) as [evs2 [Ht2 Htx2]].
      pose proof (settles_for_each wraps (process_wrap tick)
                    (process_wrap_settles tick) w1) as Hends.
      destruct (for_each wraps (process_wrap tick) w1) as [[[]|e|] w2];
        cbn [fst snd] in Ht2, Hends; [| |now elim Hends].
      * apply (Hclose w2 (retry_events tick n ++ [EvGet tick]) evs2).
        -- now rewrite Ht2, Ht1, <- !app_assoc.
        -- apply retry_events_fetch.
        -- apply in_or_app. right. now left.
        -- now right.
      * exists [], ((retry_events tick n ++ [EvGet tick]) ++ evs2).
        cbn [concat length app fst snd]. rewrite Z.add_0_r.
        repeat split.
        -- now rewrite Ht2, Ht1, <- !app_assoc.
        -- lia.
        -- exists (retry_events tick n ++ [EvGet tick]), evs2.
           repeat split; [apply retry_events_fetch|exact Htx2].
        -- exact Hle.
        -- apply in_or_app. left. apply in_or_app. right. now left.
    + destruct Hfetch as [Ht1 _].
      apply (Hclose (add_event (EvWarn tick e) w1)
               (retry_events tick n ++ [EvGet tick]) [EvWarn tick e]).
      * cbn [trace add_event]. now rewrite Ht1, <- !app_assoc.
      * apply retry_events_fetch.
      * apply in_or_app. right. now left.
      * left. now exists e.
    + destruct Hfetch as [-> [Ht1 _]].
      exists [], (retry_events tick fuel).
      cbn [concat length app fst snd]. rewrite Z.add_0_r.
      repeat split.
      * exact Ht1.
      * lia.
      * exists (retry_events tick fuel), []. rewrite app_nil_r.
        repeat split; [apply retry_events_sleeps|constructor].
      * exact Hle.
      * now right.
Qed.



Lemma scan_loop_emits_filtered (steps fuel : nat) :
  forall (tick : Z) (st : list (string * json)),
    emits decode_filtered (scan_loop steps fuel tick st).
Proof.
  induction steps as [|steps IH]; intros tick st; cbn [scan_loop];
    destruct (tick <=? END_TICK); auto with scan.
  apply emits_bind.
  - apply emits_attempt.
    apply (emits_weaken is_net_event); [exact is_net_event_filtered|].
    apply get_tick_transactions_emits.
  - intros [wraps|e].
    + apply emits_bind.
      * apply emits_for_each. intros wrap.
        apply (emits_weaken is_tx_event); [exact is_tx_event_filtered|].
        apply process_wrap_emits.
      * intros _. apply emits_bind; [|intros _; apply IH].
        intros w. exists [EvSave (JObj (dict_set st "next_tick"
                                           (JInt (tick + 1))))].
        split; [reflexivity|repeat constructor].
    + apply emits_bind; [apply emits_emit; exact I|intros _].
      apply emits_bind; [|intros _; apply IH].
      intros w. exists [EvSave (JObj (dict_set st "next_tick"
                                         (JInt (tick + 1))))].
      split; [reflexivity|repeat constructor].
Qed.

Lemma load_state_emits (P : event -> Prop) : emits P load_state.
Proof.
  intros w. exists []. rewrite app_nil_r.
  now rewrite load_state_world.
Qed.

Lemma scan_emits_filtered (steps fuel : nat) :
  emits decode_filtered (scan steps fuel).
Proof.
  unfold scan.
  apply emits_bind; [apply load_state_emits|intros state].
  apply emits_bind; [apply emits_lift|intros first].
  apply emits_bind; [apply emits_lift|intros tick].
  destruct state; auto with scan. apply scan_loop_emits_filtered.
Qed.

(** A transaction whose input type is not 1 is passed over: nothing is
    decoded and the world is left as it is. *)
Lemma process_wrap_skips (tick : Z) (wrap tx : json) (w : world) :
  wrapped_tx wrap = Ret tx -> (exists d, tx = JObj d) ->
  eq_int (value_item tx "inputType") 1 = false ->
  process_wrap tick wrap w = (Val tt, w).
Proof.
  intros Htx [d Hd] Hty. unfold process_wrap, wrapped_tx in *.
  destruct (value_get (py_or wrap (JObj [])) "transaction" JNull)
    as [inner|e]; [|discriminate].
  injection Htx as Htx. cbn [lift]. rewrite bind_ret. cbn zeta.
  rewrite Htx. rewrite Hd in Hty |- *.
  destruct (dest_filtered_out (JObj d)) as [skip|e] eqn:Hdest.
  - cbn [lift]. rewrite bind_ret. destruct skip; [reflexivity|].
    cbv beta iota. cbn [value_get lift]. rewrite bind_ret.
    cbn [value_item] in Hty. rewrite Hty. reflexivity.
  - unfold dest_filtered_out in Hdest.
    destruct QUTIL_DEST_ID as [id|]; [|discriminate].
    destruct (String.eqb id EmptyString); discriminate.
Qed.

(** C8.  Every call of the decoder in a run of [scan] is on a transaction
    whose input type is 1, which has an [inputHex] field, the one handed to
    the decoder, and whose [destId] is the configured one when a
    destination filter is configured; and a transaction whose input type is
    not 1 is passed over without a call of the decoder, whatever its
    payload. *)
Theorem scan_decodes_only_filtered (steps fuel : nat) (w : world) :
  (exists evs,
     trace (snd (scan steps fuel w)) = trace w ++ evs
     /\ forall tx input_hex,
          In (EvDecode tx input_hex) evs ->
          passes_filter tx /\ input_hex = value_item tx "inputHex")
  /\ (forall tick wrap tx w',
        wrapped_tx wrap = Ret tx -> (exists d, tx = JObj d) ->
        eq_int (value_item tx "inputType") 1 = false ->
        process_wrap tick wrap w' = (Val tt, w')).
Proof.
  split.
  - destruct (scan_emits_filtered steps fuel w) as [evs [Ht Hall]].
    exists evs. split; [exact Ht|].
    intros tx input_hex Hin.
    rewrite Forall_forall in Hall. exact (Hall _ Hin).
  - intros tick wrap tx w'. apply process_wrap_skips.
Qed.

(** C10, as amended.  When the progress file holds a document on which
    the scan cannot start (it is not an object, or its [next_tick] is
    [null], an array, an object, a number that is not finite or a string
    that [int] refuses), [load_state] returns the document as it is and
    [scan] raises at startup, before any request or save. *)
Theorem scan_unusable_state_raises (steps fuel : nat) (w : world) (doc : json) :
  state_file w = Holds doc -> unusable_state doc ->
  load_state w = (Val doc, w) /\ exists e, scan steps fuel w = (Exc e, w).
Proof.
  intros Hfile Hbad.
  pose proof (load_state_holds w doc Hfile) as Hload.
  split; [exact Hload|].
  destruct Hbad as [|b|z|f|s|l|d Hd|d l Hd|d d' Hd|d Hd|d s Hd|d s Hd Hs];
    try (exists AttributeError;
         apply (scan_startup_raises steps fuel w _ AttributeError Hload);
         reflexivity).
  - exists TypeError. apply (scan_startup_raises steps fuel w _ _ Hload).
    cbn [value_get]. now rewrite Hd.
  - exists TypeError. apply (scan_startup_raises steps fuel w _ _ Hload).
    cbn [value_get]. now rewrite Hd.
  - exists TypeError. apply (scan_startup_raises steps fuel w _ _ Hload).
    cbn [value_get]. now rewrite Hd.
  - exists ValueError. apply (scan_startup_raises steps fuel w _ _ Hload).
    cbn [value_get]. now rewrite Hd.
  - exists OverflowError. apply (scan_startup_raises steps fuel w _ _ Hload).
    cbn [value_get]. now rewrite Hd.
  - exists ValueError. apply (scan_startup_raises steps fuel w _ _ Hload).
    cbn [value_get]. rewrite Hd. cbn [py_int]. now rewrite Hs.
Qed.

End Scan.

(** With statuses below 600, 7 requests allowed to each fetch and a step
    for each tick left, a scan that has started comes to its end: it
    returns or raises. *)
Lemma scan_settles {cfg : Config} {rt : Runtime} (steps fuel : nat)
    (w : world) (d : list (string * json)) (tick : Z) :
  (forall k r, net k = Reply r -> status_code r < 600) ->
  load_state w = (Val (JObj d), w) ->
  py_int (match dict_get d "next_tick" with
          | Some v => v
          | None => JInt START_TICK
          end) = Ret tick ->
  (7 <= fuel)%nat -> (Z.to_nat (END_TICK + 1 - tick) <= steps)%nat ->
  fst (scan steps fuel w) <> Pending.
Proof.
  intros Hnet Hload Hint Hfuel Hsteps.
  rewrite (scan_on_object steps fuel w d tick Hload Hint).
  now apply scan_loop_settles.
Qed.



Lemma scan_unusable_state_raises_witness :
  let cfg := config_of 5 6 1 in
  let rt := runtime_of network_down in
  let w := mkWorld (Holds (JArr [])) Absent 0 [] in
  load_state w = (Val (JArr []), w) /\ exists e, scan 2 7 w = (Exc e, w).
Proof.
  cbv zeta.
  apply (scan_unusable_state_raises (cfg := config_of 5 6 1)
           (rt := runtime_of network_down) 2 7
           (mkWorld (Holds (JArr [])) Absent 0 []) (JArr [])).
  - reflexivity.
  - constructor.
Defined.

(** C10, as stated, fails: the document [{}] is valid JSON and is not an
    object with a numeric [next_tick], yet [scan] starts from [START_TICK]
    and runs to its end; so it does on [{"next_tick": true}], from tick 1. *)
Lemma scan_unusable_state_raises_counterexample :
  let rt := runtime_of (always 200 (Some (JObj [("transactions"%string,
                                                  JArr [])]))) in
  let w := mkWorld (Holds (JObj [])) Absent 0 [] in
  let w' := mkWorld (Holds (JObj [("next_tick"%string, JBool true)]))
              Absent 0 [] in
  load_state (cfg := config_of 5 6 1) w = (Val (JObj []), w)
  /\ fst (scan (cfg := config_of 5 6 1) 2 7 w) = Val tt
  /\ state_file (snd (scan (cfg := config_of 5 6 1) 2 7 w))
     = Holds (JObj [("next_tick"%string, JInt 7)])
  /\ fst (scan (cfg := config_of 1 2 1) 2 7 w') = Val tt
  /\ state_file (snd (scan (cfg := config_of 1 2 1) 2 7 w'))
     = Holds (JObj [("next_tick"%string, JInt 3)]).
Proof. cbv zeta. repeat split; reflexivity. Qed.

(** ** Runs of the scan *)

(** A payout of the target amount is decoded, recorded and the tick
    closed. *)
Example scan_records_match :
  let run := scan (cfg := demo_config)
               (rt := runtime_of (always 200 (Some demo_body)))
               1 7 empty_world in
  fst run = Val tt
  /\ trace (snd run)
     = [EvGet 5;
        EvDecode demo_tx (value_item demo_tx "inputHex");
        EvAppend
          (JObj [("tick"%string, JInt 5);
                 ("txId"%string, JStr "tx1");
                 ("pubkey_hex"%string, JStr (hexlify (repeat x07 32)));
                 ("amount"%string, JInt 1);
                 ("explorer_url"%string,
                  JStr "https://explorer.qubic.org/network/tx/tx1?type=latest");
                 ("found_at"%string, JStr "2025-01-01T00:00:00Z")]);
        EvSave (JObj [("next_tick"%string, JInt 6)])]
  /\ file_next_tick (state_file (snd run)) = Some 6.
Proof. cbv zeta. repeat split; reflexivity. Qed.

(** With the archiver down, both ticks are skipped after 7 requests each
    and the progress is saved twice. *)
Example scan_network_down :
  let run := scan (cfg := config_of 5 6 1) (rt := runtime_of network_down)
               2 7 empty_world in
  fst run = Val tt
  /\ sent (snd run) = 14%nat
  /\ saves (trace (snd run))
     = [JObj [("next_tick"%string, JInt 6)];
        JObj [("next_tick"%string, JInt 7)]]
  /\ results_file (snd run) = Absent.
Proof. cbv zeta. repeat split; reflexivity. Qed.

Example decode_one :
  decode_qutil_outputs
    (JStr (hexlify (repeat x07 32 ++ int_to_bytes_le 8 5)))
  = Ret [(repeat x07 32, 5)].
Proof. reflexivity. Qed.

(** * Further properties *)

(** ** The backward scan *)

Lemma find_tail_loop_invariant (fuel : nat) (raw : bytes) :
  forall (i : Z) (chunks : list Z),
    0 <= i <= Z.of_nat (length raw) ->
    i = Z.of_nat (length raw) - 8 * Z.of_nat (length chunks) ->
    rev chunks
    = map (fun j => word_at raw (i + 8 * Z.of_nat j)) (seq 0 (length chunks)) ->
    Forall (fun a => 0 < a < 10 ^ 12) chunks ->
    let r := find_tail_loop fuel raw i chunks in
    0 <= fst r <= Z.of_nat (length raw)
    /\ fst r = Z.of_nat (length raw) - 8 * Z.of_nat (length (snd r))
    /\ rev (snd r)
       = map (fun j => word_at raw (fst r + 8 * Z.of_nat j))
             (seq 0 (length (snd r)))
    /\ Forall (fun a => 0 < a < 10 ^ 12) (snd r).
Proof.
  induction fuel as [|fuel IH]; intros i chunks Hi Hlen Hrev Hall;
    cbn [find_tail_loop]; [cbn; auto|].
  destruct (8 <=? i) eqn:E8; [|cbn; auto].
  destruct (plausible (int_from_bytes_le (slice raw (i - 8) i))) eqn:P;
    [|cbn; auto].
  apply Z.leb_le in E8. apply plausible_range in P.
  apply IH.
  - lia.
  - rewrite length_app. cbn [length]. lia.
  - rewrite rev_app_distr, length_app. cbn [rev app length].
    rewrite Nat.add_1_r. cbn [seq map].
    f_equal.
    + unfold word_at. do 2 f_equal; lia.
    + rewrite Hrev, <- seq_shift, map_map.
      apply map_ext. intros j. f_equal. lia.
  - apply Forall_app. split; [exact Hall|]. now constructor.
Qed.

Lemma find_tail_amounts_spec (raw : bytes) (i n : Z) (amounts : list Z) :
  find_tail_amounts raw = (i, n, amounts) ->
  0 <= i
  /\ i = Z.of_nat (length raw) - 8 * n
  /\ n = Z.of_nat (length amounts)
  /\ amounts = map (fun j => word_at raw (i + 8 * j)) (range n)
  /\ Forall (fun a => 0 < a < 10 ^ 12) amounts
  /\ (i < 8 \/ ~ (0 < word_at raw (i - 8) < 10 ^ 12)).
Proof.
  unfold find_tail_amounts.
  destruct (find_tail_loop (S (length raw)) raw (Z.of_nat (length raw)) [])
    as [i0 chunks] eqn:E.
  intros H. injection H as Hi Hn Ha. subst i0.
  pose proof (find_tail_loop_invariant (S (length raw)) raw
                (Z.of_nat (length raw)) [] ltac:(lia) ltac:(cbn; lia)
                eq_refl (Forall_nil _)) as Hinv.
  cbv zeta in Hinv. rewrite E in Hinv. cbn [fst snd] in Hinv.
  destruct Hinv as [Hrange [Hlen [Hrev Hall]]].
  assert (Hlena : length amounts = length chunks)
    by (subst amounts; apply length_rev).
  repeat split.
  - lia.
  - lia.
  - lia.
  - subst amounts n. unfold range. rewrite Nat2Z.id, Hrev, map_map.
    reflexivity.
  - subst amounts. now apply Forall_rev.
  - destruct (find_tail_loop_stop (S (length raw)) raw
                (Z.of_nat (length raw)) [] i chunks ltac:(lia) E) as [Hs|Hs];
      [now left|right].
    unfold word_at. replace (i - 8 + 8) with i by lia.
    intros Hp. apply plausible_range in Hp. congruence.
Qed.

(** X1.  What [find_tail_amounts] returns: the start [i] of the amount
    block is [len(raw) - 8 * n]; the [n] amounts are the 8-byte words from
    [i] to the end, in the order of the payload, each strictly between 0 and
    10^12; and the block cannot be extended: fewer than 8 bytes are left
    before [i], or the word before [i] is not such an amount. *)
Theorem find_tail_amounts_scan (raw : bytes) (i n : Z) (amounts : list Z) :
  find_tail_amounts raw = (i, n, amounts) ->
  0 <= i
  /\ i = Z.of_nat (length raw) - 8 * n
  /\ n = Z.of_nat (length amounts)
  /\ amounts = map (fun j => word_at raw (i + 8 * j)) (range n)
  /\ Forall (fun a => 0 < a < 10 ^ 12) amounts
  /\ (i < 8 \/ ~ (0 < word_at raw (i - 8) < 10 ^ 12)).
Proof. exact (find_tail_amounts_spec raw i n amounts). Qed.

Lemma find_tail_amounts_scan_witness :
  let raw := [x09; x01; x00; x00; x00; x00; x00; x00; x00;
              x02; x00; x00; x00; x00; x00; x00; x00] in
  0 <= 1
  /\ 1 = Z.of_nat (length raw) - 8 * 2
  /\ 2 = Z.of_nat (length [1; 2])
  /\ [1; 2] = map (fun j => word_at raw (1 + 8 * j)) (range 2)
  /\ Forall (fun a => 0 < a < 10 ^ 12) [1; 2]
  /\ (1 < 8 \/ ~ (0 < word_at raw (1 - 8) < 10 ^ 12)).
Proof.
  cbv zeta.
  apply (find_tail_amounts_scan
           [x09; x01; x00; x00; x00; x00; x00; x00; x00;
            x02; x00; x00; x00; x00; x00; x00; x00] 1 2 [1; 2]).
  reflexivity.
Defined.

(** ** What the decoder returns *)

Lemma int_to_from_bytes_le (b : bytes) :
  int_to_bytes_le (length b) (int_from_bytes_le b) = b.
Proof.
  induction b as [|x b IH]; [reflexivity|].
  cbn [length int_from_bytes_le int_to_bytes_le].
  pose proof (byte_val_range x) as Hx.
  f_equal.
  - unfold byte_of_Z.
    rewrite (Z.mul_comm 256), Z_mod_plus_full.
    fold (byte_of_Z (byte_val x)). apply byte_of_Z_val.
  - rewrite (Z.mul_comm 256), Z_div_plus_full by lia.
    rewrite Z.div_small by lia. exact IH.
Qed.

Lemma slice_nat {A : Type} (l : list A) (a k : nat) :
  (a + k <= length l)%nat ->
  slice l (Z.of_nat a) (Z.of_nat a + Z.of_nat k) = firstn k (skipn a l).
Proof.
  intros H. rewrite <- Nat2Z.inj_add, slice_inside by lia.
  f_equal. lia.
Qed.

(** A list cut into [n] pieces of [k] elements from [off] on. *)
Lemma chunk_length {A : Type} (k n off j : nat) (l : list A) :
  length l = (off + k * n)%nat -> (j < n)%nat ->
  length (firstn k (skipn (off + k * j) l)) = k.
Proof.
  intros Hl Hj. rewrite length_firstn, length_skipn. nia.
Qed.

Lemma chunks_concat {A : Type} (k : nat) (l : list A) (n : nat) :
  forall off : nat,
    length l = (off + k * n)%nat ->
    concat (map (fun j => firstn k (skipn (off + k * j) l)) (seq 0 n))
    = skipn off l.
Proof.
  induction n as [|n IH]; intros off Hl.
  - cbn. symmetry. apply skipn_all2. lia.
  - cbn [seq map concat]. rewrite <- seq_shift, map_map.
    rewrite Nat.mul_0_r, Nat.add_0_r.
    rewrite <- (firstn_skipn k (skipn off l)) at 2.
    f_equal. rewrite skipn_skipn.
    rewrite <- (IH (k + off)%nat) by lia.
    f_equal. apply map_ext. intros j. do 2 f_equal. lia.
Qed.

Lemma combine_fst {A B : Type} (l : list A) (l' : list B) :
  length l = length l' -> map fst (combine l l') = l.
Proof.
  revert l'. induction l as [|a l IH]; intros [|b l'] H;
    try discriminate; [reflexivity|].
  cbn. f_equal. apply IH. now injection H.
Qed.

Lemma combine_snd {A B : Type} (l : list A) (l' : list B) :
  length l = length l' -> map snd (combine l l') = l'.
Proof.
  revert l'. induction l as [|a l IH]; intros [|b l'] H;
    try discriminate; [reflexivity|].
  cbn. f_equal. apply IH. now injection H.
Qed.

Lemma Forall_combine {A B : Type} (P : A -> Prop) (Q : B -> Prop)
    (l : list A) (l' : list B) :
  Forall P l -> Forall Q l' ->
  Forall (fun o => P (fst o) /\ Q (snd o)) (combine l l').
Proof.
  intros HP. revert l'. induction HP as [|a l Ha _ IH]; intros l' HQ;
    [constructor|].
  destruct HQ as [|b l' Hb HQ]; [constructor|].
  cbn. constructor; [now split|now apply IH].
Qed.

(** The words of the amount block, written back, are the block. *)
Lemma encode_words (raw : bytes) (i n : nat) :
  length raw = (i + 8 * n)%nat ->
  encode_amounts
    (map (fun j => word_at raw (Z.of_nat i + 8 * j)) (range (Z.of_nat n)))
  = skipn i raw.
Proof.
  intros Hl. unfold encode_amounts, range.
  rewrite Nat2Z.id, !map_map, <- (chunks_concat 8 raw n i Hl).
  f_equal. apply map_ext_in. intros j Hj. apply in_seq in Hj.
  unfold word_at.
  replace (Z.of_nat i + 8 * Z.of_nat j) with (Z.of_nat (i + 8 * j)) by lia.
  change (Z.of_nat (i + 8 * j) + 8)
    with (Z.of_nat (i + 8 * j) + Z.of_nat 8).
  rewrite slice_nat by lia.
  rewrite <- (chunk_length 8 n i j raw Hl ltac:(lia)) at 1.
  apply int_to_from_bytes_le.
Qed.

(** The 32-byte slices of a recipient block are its pieces. *)
Lemma recipient_slices (block : bytes) (n : nat) :
  length block = (32 * n)%nat ->
  map (fun i => slice block (i * 32) ((i + 1) * 32)) (range (Z.of_nat n))
  = map (fun j => firstn 32 (skipn (0 + 32 * j) block)) (seq 0 n).
Proof.
  intros Hl. unfold range. rewrite Nat2Z.id, map_map.
  apply map_ext_in. intros j Hj. apply in_seq in Hj.
  replace (Z.of_nat j * 32) with (Z.of_nat (32 * j)) by lia.
  replace ((Z.of_nat j + 1) * 32) with (Z.of_nat (32 * j) + Z.of_nat 32) by lia.
  rewrite slice_nat by lia. reflexivity.
Qed.

(** The decoder on the bytes [raw]: it returns nothing, or the amount block
    found by the backward scan and the 32-byte pieces of the block of the
    same count before it. *)
Lemma decode_outputs_layout (s : string) (raw : bytes)
    (outs : list (bytes * Z)) :
  unhexlify s = Ret raw -> decode_qutil_outputs (JStr s) = Ret outs ->
  Forall (fun o => is_recipient (fst o) /\ 0 < snd o < 10 ^ 12) outs
  /\ exists pre, raw = pre ++ payload (map fst outs) (map snd outs).
Proof.
  intros Hs Hd.
  assert (Hnil : Forall (fun o : bytes * Z =>
                           is_recipient (fst o) /\ 0 < snd o < 10 ^ 12) []
                 /\ exists pre,
                      raw = pre ++ payload (map fst (@nil (bytes * Z)))
                                           (map snd (@nil (bytes * Z)))).
  { split; [constructor|]. exists raw. cbn. now rewrite app_nil_r. }
  unfold decode_qutil_outputs, unhexlify_value in Hd. rewrite Hs in Hd.
  destruct (find_tail_amounts raw) as [[i n] amounts] eqn:F.
  destruct (find_tail_amounts_spec raw i n amounts F)
    as [Hi [Hlen [Hn [Hwords [Hall _]]]]].
  destruct (n =? 0); [injection Hd as <-; exact Hnil|].
  destruct (Z.of_nat (length (slice raw (i - n * 32) i)) =? n * 32) eqn:Eb;
    cbn [negb] in Hd; [|injection Hd as <-; exact Hnil].
  apply Z.eqb_eq in Eb. injection Hd as <-.
  assert (Ha : 0 <= i - n * 32).
  { destruct (Z.lt_ge_cases (i - n * 32) 0) as [Hneg|]; [|assumption].
    pose proof (slice_negative_short raw (i - n * 32) i Hneg ltac:(lia)).
    lia. }
  set (m := length amounts) in *.
  set (a := Z.to_nat (i - n * 32)).
  assert (Hi' : i = Z.of_nat (a + 32 * m)) by lia.
  assert (Hraw : length raw = (a + 32 * m + 8 * m)%nat) by lia.
  assert (Hblock : slice raw (i - n * 32) i = firstn (32 * m) (skipn a raw)).
  { replace (i - n * 32) with (Z.of_nat a) by lia.
    replace i with (Z.of_nat a + Z.of_nat (32 * m)) by lia.
    apply slice_nat. lia. }
  rewrite Hblock in *. clear Eb.
  set (block := firstn (32 * m) (skipn a raw)).
  assert (Hbl : length block = (32 * m)%nat).
  { unfold block. rewrite length_firstn, length_skipn. lia. }
  rewrite Hn, recipient_slices by exact Hbl.
  set (recipients :=
         map (fun j => firstn 32 (skipn (0 + 32 * j) block)) (seq 0 m)).
  assert (Hrl : length recipients = length amounts).
  { unfold recipients. now rewrite length_map, length_seq. }
  split.
  - apply (Forall_combine is_recipient (fun x => 0 < x < 10 ^ 12));
      [|exact Hall].
    unfold recipients. apply Forall_forall. intros r Hr.
    apply in_map_iff in Hr. destruct Hr as [j [<- Hj]]. apply in_seq in Hj.
    unfold is_recipient. apply (chunk_length 32 m 0 j block); [exact Hbl|lia].
  - exists (firstn a raw).
    rewrite combine_fst, combine_snd by exact Hrl.
    unfold payload, recipients.
    rewrite (chunks_concat 32 block m 0 Hbl). cbn [skipn].
    rewrite Hwords, Hn, Hi'.
    rewrite (encode_words raw (a + 32 * m) m Hraw).
    unfold block.
    rewrite <- (firstn_skipn a raw) at 1. f_equal.
    rewrite <- (firstn_skipn (32 * m) (skipn a raw)) at 1. f_equal.
    rewrite skipn_skipn. f_equal. lia.
Qed.

(** X2.  Whatever the decoder returns on a hex string is well formed and
    is really there: every recipient has 32 bytes, every amount is strictly
    between 0 and 10^12, and the decoded bytes end with the recipients
    followed by the amounts written back as 8-byte little-endian words. *)
Theorem decode_qutil_outputs_sound (s : string) (raw : bytes)
    (outs : list (bytes * Z)) :
  unhexlify s = Ret raw -> decode_qutil_outputs (JStr s) = Ret outs ->
  Forall (fun o => is_recipient (fst o) /\ 0 < snd o < 10 ^ 12) outs
  /\ exists pre, raw = pre ++ payload (map fst outs) (map snd outs).
Proof. exact (decode_outputs_layout s raw outs). Qed.

Lemma decode_qutil_outputs_sound_witness :
  let raw := [xaa; xbb] ++ repeat x07 32 ++ int_to_bytes_le 8 5 in
  Forall (fun o => is_recipient (fst o) /\ 0 < snd o < 10 ^ 12)
    [(repeat x07 32, 5)]
  /\ exists pre, raw = pre ++ payload (map fst [(repeat x07 32, 5)])
                                      (map snd [(repeat x07 32, 5)]).
Proof.
  cbv zeta.
  apply (decode_qutil_outputs_sound
           (hexlify ([xaa; xbb] ++ repeat x07 32 ++ int_to_bytes_le 8 5))).
  - reflexivity.
  - reflexivity.
Defined.

(** ** Payloads with leading bytes, and payloads that mislead the scan *)

Lemma slice_shift {A : Type} (pre l : list A) (a b : nat) :
  (a <= b <= length l)%nat ->
  slice (pre ++ l) (Z.of_nat (length pre + a)) (Z.of_nat (length pre + b))
  = slice l (Z.of_nat a) (Z.of_nat b).
Proof.
  intros H. rewrite !slice_inside by (rewrite ?length_app; lia).
  rewrite skipn_app, skipn_all2 by lia. cbn [app].
  f_equal; [lia|f_equal; lia].
Qed.

Lemma find_tail_amounts_prefixed (pre : bytes) (rs : list bytes)
    (amts : list Z) :
  rs <> [] -> Forall is_recipient rs ->
  Forall (fun a => plausible a = true) amts ->
  plausible (int_from_bytes_le (skipn 24 (last rs []))) = false ->
  find_tail_amounts (pre ++ payload rs amts)
  = (Z.of_nat (length pre + length (concat rs)), Z.of_nat (length amts), amts).
Proof.
  intros Hne Hrs Hamts Hstop. unfold find_tail_amounts, payload.
  set (raw := pre ++ concat rs ++ encode_amounts amts).
  assert (Hraw : raw = (pre ++ concat rs) ++ encode_amounts amts ++ []).
  { unfold raw. now rewrite app_nil_r, app_assoc. }
  assert (Hlen : length raw
                 = (length (pre ++ concat rs) + 8 * length amts)%nat).
  { unfold raw. rewrite !length_app, encode_amounts_length. lia. }
  rewrite Hlen.
  replace (S (length (pre ++ concat rs) + 8 * length amts))
    with (length amts + S (length (pre ++ concat rs) + 7 * length amts))%nat
    by lia.
  rewrite Hraw, find_tail_loop_amounts by assumption.
  rewrite find_tail_loop_none.
  - cbn [app]. rewrite length_rev, rev_involutive, length_app. reflexivity.
  - right. rewrite <- Hraw. unfold raw.
    pose proof (concat_recipients_length rs Hrs) as Hc.
    assert (Hn : (1 <= length rs)%nat)
      by (destruct rs; [contradiction|cbn; lia]).
    rewrite length_app.
    replace (Z.of_nat (length pre + length (concat rs)) - 8)
      with (Z.of_nat (length pre + (length (concat rs) - 8))) by lia.
    rewrite slice_shift by (rewrite length_app; lia).
    replace (Z.of_nat (length (concat rs) - 8))
      with (Z.of_nat (length (concat rs)) - 8) by lia.
    rewrite slice_last_recipient by assumption. exact Hstop.
Qed.

Lemma decode_of_prefixed_payload (s : string) (pre : bytes) (rs : list bytes)
    (amts : list Z) :
  unhexlify s = Ret (pre ++ payload rs amts) ->
  (1 <= length rs)%nat -> length rs = length amts ->
  Forall is_recipient rs ->
  Forall (fun a => 0 < a < 10 ^ 12) amts ->
  plausible (int_from_bytes_le (skipn 24 (last rs []))) = false ->
  decode_qutil_outputs (JStr s) = Ret (combine rs amts).
Proof.
  intros Hs Hn Hlen Hrs Hamts Hstop.
  assert (Hne : rs <> []) by (destruct rs; [simpl in Hn; lia|discriminate]).
  assert (Hpl : Forall (fun a => plausible a = true) amts).
  { eapply Forall_impl; [|exact Hamts]. intros a Ha. now apply plausible_range. }
  unfold decode_qutil_outputs, unhexlify_value. rewrite Hs.
  rewrite find_tail_amounts_prefixed by assumption.
  destruct (Z.of_nat (length amts) =? 0) eqn:E0; [apply Z.eqb_eq in E0; lia|].
  pose proof (concat_recipients_length rs Hrs) as Hc.
  replace (Z.of_nat (length pre + length (concat rs))
           - Z.of_nat (length amts) * 32)
    with (Z.of_nat (length pre)) by lia.
  unfold payload. rewrite slice_app_middle.
  replace (Z.of_nat (length (concat rs)) =? Z.of_nat (length amts) * 32)
    with true by (symmetry; apply Z.eqb_eq; lia).
  cbn [negb]. rewrite <- Hlen, recipients_of_block by assumption.
  reflexivity.
Qed.

(** X3.  The decoder is anchored at the end of the payload: whatever bytes
    come before a well-formed block of [n >= 1] recipients and [n] amounts
    whose last recipient does not end in a plausible amount, decoding
    returns exactly the [n] pairs. *)
Theorem decode_qutil_outputs_tail_anchored (pre : bytes) (rs : list bytes)
    (amts : list Z) :
  (1 <= length rs)%nat -> length rs = length amts ->
  Forall is_recipient rs ->
  Forall (fun a => 0 < a < 10 ^ 12) amts ->
  plausible (int_from_bytes_le (skipn 24 (last rs []))) = false ->
  decode_qutil_outputs (JStr (hexlify (pre ++ payload rs amts)))
  = Ret (combine rs amts).
Proof.
  intros Hn Hlen Hrs Hamts Hstop.
  apply (decode_of_prefixed_payload _ pre); try assumption.
  apply unhexlify_hexlify.
Qed.

Lemma decode_qutil_outputs_tail_anchored_witness :
  decode_qutil_outputs
    (JStr (hexlify ([x01; x00; x00; x00; x00; x00; x00; x00; xde; xad]
                    ++ payload [repeat xff 32] [42])))
  = Ret [(repeat xff 32, 42)].
Proof.
  apply (decode_qutil_outputs_tail_anchored
           [x01; x00; x00; x00; x00; x00; x00; x00; xde; xad]
           [repeat xff 32] [42]).
  - simpl. lia.
  - reflexivity.
  - repeat constructor.
  - repeat constructor; lia.
  - reflexivity.
Defined.

Lemma find_tail_loop_grows (fuel : nat) (raw : bytes) :
  forall (i : Z) (chunks : list Z),
    (length chunks <= length (snd (find_tail_loop fuel raw i chunks)))%nat.
Proof.
  induction fuel as [|fuel IH]; intros i chunks; cbn [find_tail_loop];
    [cbn; lia|].
  destruct (8 <=? i); [|cbn; lia].
  destruct (plausible _); [|cbn; lia].
  specialize (IH (i - 8) (chunks ++ [int_from_bytes_le (slice raw (i - 8) i)])).
  rewrite length_app in IH. cbn [length] in IH. lia.
Qed.

(** When the last recipient ends in a plausible amount the scan walks into
    the recipient block and counts more amounts than there are. *)
Lemma find_tail_amounts_overrun (rs : list bytes) (amts : list Z) i n amounts :
  rs <> [] -> Forall is_recipient rs ->
  Forall (fun a => plausible a = true) amts ->
  plausible (int_from_bytes_le (skipn 24 (last rs []))) = true ->
  find_tail_amounts (payload rs amts) = (i, n, amounts) ->
  Z.of_nat (length amts) < n.
Proof.
  intros Hne Hrs Hamts Hgo. unfold find_tail_amounts, payload.
  set (raw := concat rs ++ encode_amounts amts).
  assert (Hraw : raw = concat rs ++ encode_amounts amts ++ []).
  { unfold raw. now rewrite app_nil_r. }
  assert (Hlen : length raw = (length (concat rs) + 8 * length amts)%nat).
  { unfold raw. now rewrite length_app, encode_amounts_length. }
  pose proof (concat_recipients_length rs Hrs) as Hc.
  assert (Hn : (1 <= length rs)%nat)
    by (destruct rs; [contradiction|cbn; lia]).
  rewrite Hlen.
  replace (S (length (concat rs) + 8 * length amts))
    with (length amts + S (length (concat rs) + 7 * length amts))%nat by lia.
  rewrite Hraw, find_tail_loop_amounts by assumption. rewrite <- Hraw.
  cbn [find_tail_loop app].
  destruct (8 <=? Z.of_nat (length (concat rs))) eqn:E8;
    [|apply Z.leb_gt in E8; lia].
  unfold raw at 1. rewrite slice_last_recipient by assumption. rewrite Hgo.
  match goal with
  | |- context [find_tail_loop ?f ?r ?j ?c] =>
      pose proof (find_tail_loop_grows f r j c) as Hgrow;
      destruct (find_tail_loop f r j c) as [i' chunks']
  end.
  cbn [snd] in Hgrow. rewrite length_app, length_rev in Hgrow.
  cbn [length] in Hgrow.
  intros H. injection H as _ <- _. lia.
Qed.

(** X4.  The condition of the decoder is sharp: on a well-formed payload
    whose last recipient does end in a plausible amount, the decoder never
    returns the [n] pairs; it returns nothing or more than [n] pairs. *)
Theorem decode_qutil_outputs_misfire (rs : list bytes) (amts : list Z) :
  (1 <= length rs)%nat -> length rs = length amts ->
  Forall is_recipient rs ->
  Forall (fun a => 0 < a < 10 ^ 12) amts ->
  plausible (int_from_bytes_le (skipn 24 (last rs []))) = true ->
  exists outs,
    decode_qutil_outputs (JStr (hexlify (payload rs amts))) = Ret outs
    /\ (outs = [] \/ (length rs < length outs)%nat).
Proof.
  intros Hn Hlen Hrs Hamts Hgo.
  assert (Hne : rs <> []) by (destruct rs; [simpl in Hn; lia|discriminate]).
  assert (Hpl : Forall (fun a => plausible a = true) amts).
  { eapply Forall_impl; [|exact Hamts]. intros a Ha. now apply plausible_range. }
  unfold decode_qutil_outputs, unhexlify_value. rewrite unhexlify_hexlify.
  destruct (find_tail_amounts (payload rs amts)) as [[i n] amounts] eqn:F.
  pose proof (find_tail_amounts_overrun rs amts i n amounts
                Hne Hrs Hpl Hgo F) as Hover.
  destruct (find_tail_amounts_spec _ i n amounts F) as [_ [_ [Hcount _]]].
  destruct (n =? 0); [exists []; auto|].
  destruct (negb _); [exists []; auto|].
  eexists. split; [reflexivity|]. right.
  rewrite length_combine, length_map. unfold range.
  rewrite length_map, length_seq. lia.
Qed.

Lemma decode_qutil_outputs_misfire_witness :
  exists outs,
    decode_qutil_outputs
      (JStr (hexlify (payload [repeat x00 24 ++ x01 :: repeat x00 7] [1])))
    = Ret outs
    /\ (outs = []
        \/ (length [repeat x00 24 ++ x01 :: repeat x00 7] < length outs)%nat).
Proof.
  apply (decode_qutil_outputs_misfire
           [repeat x00 24 ++ x01 :: repeat x00 7] [1]).
  - simpl. lia.
  - reflexivity.
  - repeat constructor.
  - repeat constructor; lia.
  - reflexivity.
Defined.

(** ** The fetch client, request by request *)

Section FetchTrace.

Context {rt : Runtime}.

(** A 429 with a [Retry-After] that [time.sleep] refuses, met while the
    budget lasts, ends the call with the exception of [time.sleep]. *)
Lemma polite_get_loop_refused_sleep (fuel : nat) (tick retries a : Z)
    (w : world) (r : response) (ra : string) (f : spec_float) (e : exn) :
  net (sent w) = Reply r -> status_code r = 429 ->
  retry_after r = Some ra -> ra <> EmptyString ->
  float_of_str ra = Some f -> sleep_error f = Some e ->
  a + 1 <= retries ->
  polite_get_loop (S fuel) tick retries a w = (Exc e, after_request tick w).
Proof.
  intros Hr Hs Hra Hne Hf He Ha.
  rewrite polite_get_loop_step. cbv zeta. rewrite Hr. cbn [retryable].
  rewrite Hs. cbn [Z.eqb Pos.eqb orb].
  replace (a + 1 >? retries) with false
    by (symmetry; rewrite Z.gtb_ltb; apply Z.ltb_ge; lia).
  cbn [andb]. unfold bind, back_off, bind, retry_after_backoff.
  rewrite Hra.
  destruct (String.eqb ra EmptyString) eqn:E;
    [apply String.eqb_eq in E; contradiction|].
  rewrite Hf. cbn [lift ret time_sleep]. rewrite He. reflexivity.
Qed.


(** Against replies with a status of 600 or more the loop goes on until
    the back-off overflows, at attempt 1024. *)
Lemma polite_get_loop_above_600 (fuel : nat) (tick retries : Z) :
  forall (a : Z) (w : world),
    0 <= a < 1024 ->
    (forall k, exists r, net (sent w + k) = Reply r /\ 600 <= status_code r) ->
    if (fuel <=? Z.to_nat (1023 - a))%nat
    then fst (polite_get_loop fuel tick retries a w) = Pending
         /\ sent (snd (polite_get_loop fuel tick retries a w))
            = (sent w + fuel)%nat
    else fst (polite_get_loop fuel tick retries a w) = Exc OverflowError
         /\ sent (snd (polite_get_loop fuel tick retries a w))
            = (sent w + S (Z.to_nat (1023 - a)))%nat.
Proof.
  induction fuel as [|fuel IH]; intros a w Ha Hnet.
  - cbn. split; [reflexivity|lia].
  - rewrite polite_get_loop_step. cbv zeta.
    destruct (Hnet 0%nat) as [r [Hr Hs]]. rewrite Nat.add_0_r in Hr.
    rewrite Hr. cbn [retryable].
    replace (500 <=? status_code r) with true by (symmetry; apply Z.leb_le; lia).
    replace (status_code r <? 600) with false
      by (symmetry; apply Z.ltb_ge; lia).
    replace (status_code r =? 429) with false
      by (symmetry; apply Z.eqb_neq; lia).
    rewrite orb_true_r, !andb_false_r. unfold bind.
    destruct (Z.eq_dec a 1023) as [->|Hne].
    + rewrite back_off_overflow by lia.
      cbn [Z.sub Z.to_nat Z.add Z.opp Z.pos_sub Nat.leb fst snd].
      change (Z.to_nat (1023 - 1023)) with 0%nat.
      cbn [Nat.leb fst snd sent after_request set_sent add_event].
      split; [reflexivity|lia].
    + rewrite back_off_exponential by lia.
      specialize (IH (a + 1) (add_event EvSleep (after_request tick w))).
      replace (Z.to_nat (1023 - a)) with (S (Z.to_nat (1023 - (a + 1))))
        by lia.
      cbn [Nat.leb].
      destruct (fuel <=? Z.to_nat (1023 - (a + 1)))%nat;
        (destruct IH as [H1 H2];
         [lia
         |intros k; destruct (Hnet (S k)) as [r' Hr']; exists r';
          cbn [sent add_event after_request set_sent];
          now rewrite Nat.add_succ_r in Hr'
         |split; [exact H1|]; rewrite H2;
          cbn [sent add_event after_request set_sent]; lia]).
Qed.

(** X6.  Against an archiver that answers every request with a status of
    600 or more, [polite_get] never returns a response and never raises an
    HTTP error, whatever [retries] is: the status counts as a server fault
    and [raise_for_status] does not raise for it.  The requests go on, each
    followed by a sleep, until the attempt counter reaches 1024; there
    [2 ** attempt + random.random()] overflows, so the 1024th request is
    the last and the call raises [OverflowError]. *)
Theorem polite_get_above_600_overflows (fuel : nat) (tick retries : Z)
    (w : world) :
  (forall k, exists r, net (sent w + k) = Reply r /\ 600 <= status_code r) ->
  if (fuel <=? 1023)%nat
  then fst (polite_get fuel tick retries w) = Pending
       /\ sent (snd (polite_get fuel tick retries w)) = (sent w + fuel)%nat
  else fst (polite_get fuel tick retries w) = Exc OverflowError
       /\ sent (snd (polite_get fuel tick retries w)) = (sent w + 1024)%nat.
Proof.
  intros Hnet.
  exact (polite_get_loop_above_600 fuel tick retries 0 w
           ltac:(lia) Hnet).
Qed.

Lemma get_tick_transactions_first_reply (fuel : nat) (tick : Z) (w : world)
    (r : response) :
  net (sent w) = Reply r -> status_code r < 400 ->
  get_tick_transactions (S fuel) tick w
  = (match json_body r with
     | None => Exc JSONDecodeError
     | Some (JObj d) =>
         Val (match dict_get d "transactions" with
              | Some (JArr l) => l
              | _ => []
              end)
     | Some _ => Exc AttributeError
     end, after_request tick w).
Proof.
  intros Hr Hs. unfold get_tick_transactions, polite_get.
  unfold bind at 1. rewrite polite_get_loop_step. cbv zeta. rewrite Hr.
  cbn [retryable].
  replace (status_code r =? 429) with false
    by (symmetry; apply Z.eqb_neq; lia).
  replace (500 <=? status_code r) with false
    by (symmetry; apply Z.leb_gt; lia).
  replace (400 <=? status_code r) with false
    by (symmetry; apply Z.leb_gt; lia).
  cbn [orb andb]. unfold response_json.
  destruct (json_body r) as [[| | | | | |d]|]; try reflexivity.
  repeat (cbn [lift value_get]; rewrite bind_ret).
  destruct (dict_get d "transactions") as [[| | | | | |]|]; reflexivity.
Qed.

(** X7.  When the first reply has a status below 400,
    [get_tick_transactions] makes that one request and no other: it returns
    the [transactions] list of the body, the empty list when the body is an
    object whose [transactions] is missing or is not a list, and raises when
    the body is not JSON or is JSON but not an object. *)
Theorem get_tick_transactions_on_success (fuel : nat) (tick : Z) (w : world)
    (r : response) :
  net (sent w) = Reply r -> status_code r < 400 ->
  get_tick_transactions (S fuel) tick w
  = (match json_body r with
     | None => Exc JSONDecodeError
     | Some (JObj d) =>
         Val (match dict_get d "transactions" with
              | Some (JArr l) => l
              | _ => []
              end)
     | Some _ => Exc AttributeError
     end, after_request tick w).
Proof. exact (get_tick_transactions_first_reply fuel tick w r). Qed.

End FetchTrace.


Lemma polite_get_above_600_overflows_witness :
  (fst (polite_get (rt := runtime_of (always 999 None)) 40 100 6 empty_world)
   = Pending
   /\ sent (snd (polite_get (rt := runtime_of (always 999 None)) 40 100 6
                   empty_world)) = (0 + 40)%nat)
  /\ fst (polite_get (rt := runtime_of (always 999 None)) 1100 100 6
            empty_world) = Exc OverflowError
  /\ sent (snd (polite_get (rt := runtime_of (always 999 None)) 1100 100 6
                  empty_world)) = (0 + 1024)%nat.
Proof.
  split.
  - apply (polite_get_above_600_overflows (rt := runtime_of (always 999 None))
             40 100 6 empty_world).
    intros k. exists (mkResponse 999 None None).
    split; [reflexivity|cbn; lia].
  - apply (polite_get_above_600_overflows (rt := runtime_of (always 999 None))
             1100 100 6 empty_world).
    intros k. exists (mkResponse 999 None None).
    split; [reflexivity|cbn; lia].
Defined.

Lemma get_tick_transactions_on_success_witness :
  get_tick_transactions
    (rt := runtime_of (always 200 (Some (JObj [("transactions"%string,
                                                 JStr "none")]))))
    (S 0) 5 empty_world
  = (Val [], after_request 5 empty_world).
Proof.
  apply (get_tick_transactions_on_success
           (rt := runtime_of (always 200 (Some (JObj [("transactions"%string,
                                                        JStr "none")]))))
           0 5 empty_world
           (mkResponse 200 None (Some (JObj [("transactions"%string,
                                              JStr "none")])))).
  - reflexivity.
  - cbn. lia.
Defined.

(** ** The match store at its edges *)

(** X8.  A results file that is missing, or that is there and cannot be
    read or does not parse, is taken for the empty collection: once it is
    opened for writing, which is taken to succeed, [append_match] returns and
    the file holds the new record alone, whatever it held before.  The test
    [p.exists()] stands before the [try]: when it raises, [append_match]
    raises the same exception and nothing is written. *)
Theorem append_match_replaces_unreadable (rec : json) (w : world) :
  (forall (there : bool) (e : exn),
     path_exists (results_file w) = Ret there ->
     json_load (results_file w) = Raise e ->
     fst (append_match rec w) = Val tt
     /\ results_file (snd (append_match rec w)) = Holds (JArr [rec])
     /\ trace (snd (append_match rec w)) = trace w ++ [EvAppend rec])
  /\ (forall e : exn,
        path_exists (results_file w) = Raise e ->
        append_match rec w = (Exc e, add_event (EvAppend rec) w)).
Proof.
  unfold append_match. cbn [results_file add_event]. split.
  - intros there e Hp Hj.
    destruct (results_file w) as [| | | |doc]; cbn in *;
      try discriminate; repeat split; reflexivity.
  - intros e Hp. now rewrite Hp.
Qed.

Lemma append_match_replaces_unreadable_witness :
  (fst (append_match (JInt 1) (mkWorld Absent NotReadable 0 [])) = Val tt
   /\ results_file (snd (append_match (JInt 1)
                           (mkWorld Absent NotReadable 0 [])))
      = Holds (JArr [JInt 1])
   /\ trace (snd (append_match (JInt 1) (mkWorld Absent NotReadable 0 [])))
      = trace (mkWorld Absent NotReadable 0 []) ++ [EvAppend (JInt 1)])
  /\ append_match (JInt 1) (mkWorld Absent Inaccessible 0 [])
     = (Exc OSError,
        add_event (EvAppend (JInt 1)) (mkWorld Absent Inaccessible 0 [])).
Proof.
  split.
  - apply (proj1 (append_match_replaces_unreadable (JInt 1)
                    (mkWorld Absent NotReadable 0 []))
             true OSError); reflexivity.
  - apply (proj2 (append_match_replaces_unreadable (JInt 1)
                    (mkWorld Absent Inaccessible 0 []))
             OSError); reflexivity.
Defined.

(** X9.  A results file that holds valid JSON that is not a list makes
    [append_match] raise [AttributeError] on [existing.append]; the file is
    not written. *)
Theorem append_match_needs_a_list (rec doc : json) (w : world) :
  results_file w = Holds doc -> (forall l, doc <> JArr l) ->
  fst (append_match rec w) = Exc AttributeError
  /\ results_file (snd (append_match rec w)) = Holds doc
  /\ state_file (snd (append_match rec w)) = state_file w.
Proof.
  intros H Hdoc. unfold append_match. cbn [results_file add_event].
  rewrite H. cbn.
  destruct doc; cbn; try (repeat split; [exact H]).
  now elim (Hdoc items).
Qed.

Lemma append_match_needs_a_list_witness :
  fst (append_match (JInt 1) (mkWorld Absent (Holds (JObj [])) 0 []))
  = Exc AttributeError
  /\ results_file
       (snd (append_match (JInt 1) (mkWorld Absent (Holds (JObj [])) 0 [])))
     = Holds (JObj [])
  /\ state_file
       (snd (append_match (JInt 1) (mkWorld Absent (Holds (JObj [])) 0 [])))
     = state_file (mkWorld Absent (Holds (JObj [])) 0 []).
Proof.
  apply (append_match_needs_a_list (JInt 1) (JObj [])
           (mkWorld Absent (Holds (JObj [])) 0 [])).
  - reflexivity.
  - intros l. discriminate.
Defined.

Lemma append_match_step (rec : json) (l : list json) (w : world) :
  results_file w = Holds (JArr l) ->
  append_match rec w
  = (Val tt, set_results_file (Holds (JArr (l ++ [rec])))
               (add_event (EvAppend rec) w)).
Proof.
  intros H. unfold append_match. cbn [results_file add_event]. now rewrite H.
Qed.

Lemma append_all (recs : list json) :
  forall (l : list json) (w : world),
    results_file w = Holds (JArr l) ->
    fst (for_each recs append_match w) = Val tt
    /\ results_file (snd (for_each recs append_match w))
       = Holds (JArr (l ++ recs))
    /\ trace (snd (for_each recs append_match w))
       = trace w ++ map EvAppend recs
    /\ state_file (snd (for_each recs append_match w)) = state_file w.
Proof.
  induction recs as [|rec recs IH]; intros l w H.
  - cbn. rewrite !app_nil_r. auto.
  - cbn [for_each]. unfold bind. rewrite (append_match_step rec l w H).
    destruct (IH (l ++ [rec])
                (set_results_file (Holds (JArr (l ++ [rec])))
                   (add_event (EvAppend rec) w)) eq_refl)
      as [H1 [H2 [H3 H4]]].
    rewrite H1, H2, H3, H4. cbn. rewrite <- !app_assoc. auto.
Qed.

(** X10.  Appends add up: starting from a results file that holds a
    collection, appending the records [recs] one after the other succeeds
    and leaves the collection followed by [recs], in order; nothing already
    there is lost or changed. *)
Theorem append_match_accumulates (recs l : list json) (w : world) :
  results_file w = Holds (JArr l) ->
  fst (for_each recs append_match w) = Val tt
  /\ results_file (snd (for_each recs append_match w)) = Holds (JArr (l ++ recs))
  /\ trace (snd (for_each recs append_match w)) = trace w ++ map EvAppend recs
  /\ state_file (snd (for_each recs append_match w)) = state_file w.
Proof. exact (append_all recs l w). Qed.

Lemma append_match_accumulates_witness :
  let w := mkWorld Absent (Holds (JArr [JNull])) 0 [] in
  fst (for_each [JInt 1; JInt 2] append_match w) = Val tt
  /\ results_file (snd (for_each [JInt 1; JInt 2] append_match w))
     = Holds (JArr ([JNull] ++ [JInt 1; JInt 2]))
  /\ trace (snd (for_each [JInt 1; JInt 2] append_match w))
     = trace w ++ map EvAppend [JInt 1; JInt 2]
  /\ state_file (snd (for_each [JInt 1; JInt 2] append_match w))
     = state_file w.
Proof.
  cbv zeta.
  apply (append_match_accumulates [JInt 1; JInt 2] [JNull]
           (mkWorld Absent (Holds (JArr [JNull])) 0 [])).
  reflexivity.
Defined.

(** ** Wrappers that are not what the driver expects *)

Section Wrappers.

Context {cfg : Config} {rt : Runtime}.

Lemma process_wrap_raises (tick : Z) (wrap tx : json) (w : world) :
  wrapped_tx wrap = Ret tx -> (forall d, tx <> JObj d) ->
  process_wrap tick wrap w = (Exc AttributeError, w).
Proof.
  intros Htx Hnd. unfold process_wrap, wrapped_tx in *.
  destruct (value_get (py_or wrap (JObj [])) "transaction" JNull)
    as [inner|e]; [|discriminate].
  injection Htx as Htx. cbn [lift]. rewrite bind_ret. cbn zeta. rewrite Htx.
  assert (Hget : forall k dflt, value_get tx k dflt = Raise AttributeError).
  { intros k dflt. destruct tx; try reflexivity. now elim (Hnd fields). }
  unfold dest_filtered_out. rewrite !Hget.
  destruct QUTIL_DEST_ID as [id|]; [destruct (String.eqb id EmptyString)|];
    reflexivity.
Qed.

(** X11.  A wrapper that is falsy ([null], [{}], [0], an empty string or
    list) and a wrapper object whose [transaction] is missing or falsy stand
    for the empty transaction: the driver passes over them, without a
    decoder call, a record or an error. *)
Theorem process_wrap_passes_over_empty (tick : Z) (wrap : json) (w : world) :
  truthy wrap = false
  \/ (exists d, wrap = JObj d
                /\ truthy (value_item wrap "transaction") = false) ->
  process_wrap tick wrap w = (Val tt, w).
Proof.
  intros H.
  apply (process_wrap_skips tick wrap (JObj [])); [|now exists []|reflexivity].
  unfold wrapped_tx, py_or.
  destruct H as [H|[d [Hd H]]].
  - rewrite H. reflexivity.
  - subst wrap. destruct (truthy (JObj d)); [|reflexivity].
    cbn [value_get value_item] in *. now rewrite H.
Qed.

(** X12.  A wrapper that is truthy but not an object (a number, a string,
    a list), and a wrapper object whose [transaction] is truthy but not an
    object, make the driver raise [AttributeError]: nothing catches it
    there. *)
Theorem process_wrap_rejects_non_objects (tick : Z) (wrap : json) (w : world) :
  (truthy wrap = true /\ forall d, wrap <> JObj d)
  \/ (exists d, wrap = JObj d
                /\ truthy (value_item wrap "transaction") = true
                /\ forall d', value_item wrap "transaction" <> JObj d') ->
  process_wrap tick wrap w = (Exc AttributeError, w).
Proof.
  intros [[Ht Hnd]|[d [Hd [Ht Hnd]]]].
  - unfold process_wrap, py_or. rewrite Ht.
    destruct wrap; try reflexivity. now elim (Hnd fields).
  - subst wrap.
    apply (process_wrap_raises tick _ (value_item (JObj d) "transaction"));
      [|exact Hnd].
    unfold wrapped_tx, py_or.
    assert (Hw : truthy (JObj d) = true).
    { destruct d; [|reflexivity]. cbn in Ht. discriminate. }
    rewrite Hw. cbn [value_get value_item] in *. now rewrite Ht.
Qed.

(** X13.  When the work on the transactions of a tick raises, [scan]
    raises the same exception at once: [save_state] is not called for the
    tick and the progress file is as it was before the tick, so a restart
    takes the tick up again. *)
Theorem scan_aborts_without_saving (steps fuel : nat) (tick : Z)
    (st : list (string * json)) (w w1 w2 : world) (wraps : list json)
    (e : exn) :
  tick <= END_TICK ->
  get_tick_transactions fuel tick w = (Val wraps, w1) ->
  for_each wraps (process_wrap tick) w1 = (Exc e, w2) ->
  scan_loop (S steps) fuel tick st w = (Exc e, w2)
  /\ state_file w2 = state_file w
  /\ exists evs, trace w2 = trace w ++ evs /\ saves evs = [].
Proof.
  intros Hle Hget Hwork. repeat split.
  - rewrite scan_loop_step by exact Hle. cbv zeta. now rewrite Hget, Hwork.
  - pose proof (keeps_for_each state_file wraps (process_wrap tick)
                  (process_wrap_keeps_state_file tick) w1) as H2.
    pose proof (get_tick_transactions_keeps state_file fuel tick
                  session_get_keeps_state_file keeps_emit_state_file w) as H1.
    rewrite Hwork in H2. rewrite Hget in H1. cbn [snd] in *. congruence.
  - destruct (get_tick_transactions_emits fuel tick w) as [evs1 [Ht1 Hn1]].
    destruct (emits_for_each is_tx_event wraps (process_wrap tick)
                (process_wrap_emits tick) w1) as [evs2 [Ht2 Hn2]].
    rewrite Hget in Ht1. rewrite Hwork in Ht2. cbn [snd] in *.
    exists (evs1 ++ evs2). split; [now rewrite Ht2, Ht1, app_assoc|].
    rewrite saves_app, !saves_quiet; [reflexivity| |].
    + eapply Forall_impl; [|exact Hn2]. exact is_tx_event_not_save.
    + eapply Forall_impl; [|exact Hn1]. exact is_net_event_not_save.
Qed.

End Wrappers.

Lemma process_wrap_passes_over_empty_witness :
  process_wrap (cfg := demo_config) (rt := runtime_of network_down) 5
    (JObj [("timestamp"%string, JStr "1")]) empty_world
  = (Val tt, empty_world).
Proof.
  apply (process_wrap_passes_over_empty (cfg := demo_config)
           (rt := runtime_of network_down) 5
           (JObj [("timestamp"%string, JStr "1")]) empty_world).
  right. exists [("timestamp"%string, JStr "1")]. split; reflexivity.
Defined.

Lemma process_wrap_rejects_non_objects_witness :
  process_wrap (cfg := demo_config) (rt := runtime_of network_down) 5
    (JStr "tx") empty_world
  = (Exc AttributeError, empty_world).
Proof.
  apply (process_wrap_rejects_non_objects (cfg := demo_config)
           (rt := runtime_of network_down) 5 (JStr "tx") empty_world).
  left. split; [reflexivity|]. intros d. discriminate.
Defined.

Lemma scan_aborts_without_saving_witness :
  let cfg := config_of 5 6 1 in
  let rt := runtime_of (always 200 (Some (JObj [("transactions"%string,
                                                 JArr [JInt 7])]))) in
  let w1 := after_request 5 empty_world in
  scan_loop (S 1) 7 5 [] empty_world = (Exc AttributeError, w1)
  /\ state_file w1 = state_file empty_world
  /\ exists evs, trace w1 = trace empty_world ++ evs /\ saves evs = [].
Proof.
  cbv zeta.
  apply (scan_aborts_without_saving (cfg := config_of 5 6 1)
           (rt := runtime_of (always 200 (Some (JObj [("transactions"%string,
                                                        JArr [JInt 7])]))))
           1 7 5 [] empty_world (after_request 5 empty_world)
           (after_request 5 empty_world) [JInt 7] AttributeError).
  - cbn. lia.
  - reflexivity.
  - reflexivity.
Defined.

(** ** Stopping and starting the scan again *)

Section Restart.

Context {cfg : Config} {rt : Runtime}.

Lemma scan_leaves_progress (steps fuel : nat) (w : world)
    (d : list (string * json)) (tick : Z) :
  load_state w = (Val (JObj d), w) ->
  py_int (match dict_get d "next_tick" with
          | Some v => v
          | None => JInt START_TICK
          end) = Ret tick ->
  exists (k : nat) (d' : list (string * json)),
    (k <= steps)%nat
    /\ Z.of_nat k <= Z.max 0 (END_TICK + 1 - tick)
    /\ length (saves (skipn (length (trace w))
                        (trace (snd (scan steps fuel w))))) = k
    /\ load_state (snd (scan steps fuel w))
       = (Val (JObj d'), snd (scan steps fuel w))
    /\ py_int (match dict_get d' "next_tick" with
               | Some v => v
               | None => JInt START_TICK
               end) = Ret (tick + Z.of_nat k)
    /\ (fst (scan steps fuel w) = Val tt ->
        Z.of_nat k = Z.max 0 (END_TICK + 1 - tick)).
Proof.
  intros Hload Hint.
  rewrite (scan_on_object steps fuel w d tick Hload Hint).
  destruct (scan_loop_progress fuel steps tick d w)
    as [evs [k [Ht [Hs [Hk [Hmax [Hfile Hdone]]]]]]].
  exists k.
  exists (match k with
          | O => d
          | S _ => dict_set d "next_tick" (JInt (tick + Z.of_nat k))
          end).
  repeat split; try assumption.
  - rewrite Ht, skipn_app, skipn_all, Nat.sub_diag. cbn [app skipn].
    now rewrite Hs, length_map, length_seq.
  - unfold load_state in *. rewrite Hfile. destruct k as [|k'].
    + destruct (state_file w); cbn in Hload |- *; congruence.
    + reflexivity.
  - destruct k as [|k']; [now rewrite Z.add_0_r|].
    now rewrite dict_get_set.
Qed.

(** X14.  A scan that stops outside [save_state] (it raised, or it is
    followed for a number of steps only) can be started again: the state it
    leaves is loaded without error, and the new run starts at [tick + k],
    where [k] is the number of [save_state] calls of the stopped run, that
    is at the first tick that was not closed.  A stop inside [save_state]
    loses the progress: [open(STATE_FILE, "w")] empties the file before
    [json.dump] writes it, [load_state] turns the empty file into the
    default state, and the next run starts at [START_TICK] again. *)
Theorem scan_resumes_after_last_save (steps fuel : nat) (w : world)
    (d : list (string * json)) (tick : Z) :
  load_state w = (Val (JObj d), w) ->
  py_int (match dict_get d "next_tick" with
          | Some v => v
          | None => JInt START_TICK
          end) = Ret tick ->
  (exists (k : nat) (d' : list (string * json)),
     (k <= steps)%nat
     /\ length (saves (skipn (length (trace w))
                         (trace (snd (scan steps fuel w))))) = k
     /\ load_state (snd (scan steps fuel w))
        = (Val (JObj d'), snd (scan steps fuel w))
     /\ py_int (match dict_get d' "next_tick" with
                | Some v => v
                | None => JInt START_TICK
                end) = Ret (tick + Z.of_nat k)
     /\ forall steps' fuel',
          scan steps' fuel' (snd (scan steps fuel w))
          = scan_loop steps' fuel' (tick + Z.of_nat k) d'
              (snd (scan steps fuel w)))
  /\ forall (st : json) (w1 : world) (steps' fuel' : nat),
       save_state st w1
       = (save_state_cut st ;;; json_dump set_state_file st) w1
       /\ state_file (snd (save_state_cut st w1)) = Garbled
       /\ scan steps' fuel' (snd (save_state_cut st w1))
          = scan_loop steps' fuel' START_TICK
              [("next_tick"%string, JInt START_TICK)]
              (snd (save_state_cut st w1)).
Proof.
  intros Hload Hint. split.
  - destruct (scan_leaves_progress steps fuel w d tick Hload Hint)
      as [k [d' [Hk [_ [Hs [Hl [Hp _]]]]]]].
    exists k, d'. repeat split; try assumption.
    intros steps' fuel'. now apply scan_on_object.
  - intros st w1 steps' fuel'. split; [reflexivity|]. split; [reflexivity|].
    apply scan_on_object; reflexivity.
Qed.

(** X15.  Running [scan] again after it has returned does nothing: no
    request, no save, no record; it returns at once in the same world. *)
Theorem scan_again_is_a_no_op (steps fuel steps' fuel' : nat) (w : world)
    (d : list (string * json)) (tick : Z) :
  load_state w = (Val (JObj d), w) ->
  py_int (match dict_get d "next_tick" with
          | Some v => v
          | None => JInt START_TICK
          end) = Ret tick ->
  fst (scan steps fuel w) = Val tt ->
  scan steps' fuel' (snd (scan steps fuel w))
  = (Val tt, snd (scan steps fuel w)).
Proof.
  intros Hload Hint Hdone.
  destruct (scan_leaves_progress steps fuel w d tick Hload Hint)
    as [k [d' [_ [_ [_ [Hl [Hp Hall]]]]]]].
  specialize (Hall Hdone).
  rewrite (scan_on_object steps' fuel' _ d' _ Hl Hp).
  apply scan_loop_done. lia.
Qed.

End Restart.

Lemma scan_resumes_after_last_save_witness :
  let cfg := config_of 5 9 1 in
  let rt := runtime_of network_down in
  (exists (k : nat) (d' : list (string * json)),
     (k <= 2)%nat
     /\ length (saves (skipn (length (trace empty_world))
                         (trace (snd (scan 2 7 empty_world))))) = k
     /\ load_state (snd (scan 2 7 empty_world))
        = (Val (JObj d'), snd (scan 2 7 empty_world))
     /\ py_int (match dict_get d' "next_tick" with
                | Some v => v
                | None => JInt START_TICK
                end) = Ret (5 + Z.of_nat k)
     /\ forall steps' fuel',
          scan steps' fuel' (snd (scan 2 7 empty_world))
          = scan_loop steps' fuel' (5 + Z.of_nat k) d'
              (snd (scan 2 7 empty_world)))
  /\ forall (st : json) (w1 : world) (steps' fuel' : nat),
       save_state st w1
       = (save_state_cut st ;;; json_dump set_state_file st) w1
       /\ state_file (snd (save_state_cut st w1)) = Garbled
       /\ scan steps' fuel' (snd (save_state_cut st w1))
          = scan_loop steps' fuel' START_TICK
              [("next_tick"%string, JInt START_TICK)]
              (snd (save_state_cut st w1)).
Proof.
  cbv zeta.
  apply (scan_resumes_after_last_save (cfg := config_of 5 9 1)
           (rt := runtime_of network_down) 2 7 empty_world
           [("next_tick"%string, JInt 5)] 5).
  - reflexivity.
  - reflexivity.
Defined.

(** A run that saved [next_tick = 7] and is stopped inside its next save
    starts again at tick 5. *)
Example scan_restarts_after_cut_save :
  let cfg := config_of 5 9 1 in
  let rt := runtime_of network_down in
  let w := snd (scan 2 7 empty_world) in
  file_next_tick (state_file w) = Some 7
  /\ scan 1 7 (snd (save_state_cut (JObj [("next_tick"%string, JInt 8)]) w))
     = scan_loop 1 7 5 [("next_tick"%string, JInt 5)]
         (snd (save_state_cut (JObj [("next_tick"%string, JInt 8)]) w)).
Proof. cbv zeta. split; reflexivity. Qed.

Lemma scan_again_is_a_no_op_witness :
  let cfg := config_of 5 6 1 in
  let rt := runtime_of network_down in
  scan 9 9 (snd (scan 2 7 empty_world)) = (Val tt, snd (scan 2 7 empty_world)).
Proof.
  cbv zeta.
  apply (scan_again_is_a_no_op (cfg := config_of 5 6 1)
           (rt := runtime_of network_down) 2 7 9 9 empty_world
           [("next_tick"%string, JInt 5)] 5).
  - reflexivity.
  - reflexivity.
  - reflexivity.
Defined.

(** ** Which ticks are asked for *)

Lemma emits_for_each_Forall {A : Type} (P : event -> Prop) (Q : A -> Prop)
    (l : list A) (body : A -> M unit) :
  Forall Q l -> (forall x, Q x -> emits P (body x)) ->
  emits P (for_each l body).
Proof.
  intros Hl Hb. induction Hl as [|x l Hx _ IH]; cbn [for_each].
  - apply emits_ret.
  - apply emits_bind; [now apply Hb|intros _; exact IH].
Qed.

Lemma save_state_emits (P : event -> Prop) (st : json) :
  P (EvSave st) -> emits P (save_state st).
Proof.
  intros H w. exists [EvSave st]. split; [reflexivity|now constructor].
Qed.

Section Coverage.

Context {cfg : Config} {rt : Runtime}.

Lemma is_tx_event_in_range (lo : Z) (ev : event) :
  is_tx_event ev -> fetch_in_range lo ev.
Proof. destruct ev; cbn; tauto. Qed.

Lemma scan_loop_emits_in_range (lo : Z) (steps fuel : nat) :
  forall (tick : Z) (st : list (string * json)),
    lo <= tick -> emits (fetch_in_range lo) (scan_loop steps fuel tick st).
Proof.
  induction steps as [|steps IH]; intros tick st Hlo; cbn [scan_loop];
    destruct (tick <=? END_TICK) eqn:E; auto with scan.
  apply Z.leb_le in E.
  assert (Hclose : emits (fetch_in_range lo)
            (save_state (JObj (dict_set st "next_tick" (JInt (tick + 1)))) ;;;
             scan_loop steps fuel (tick + 1)
               (dict_set st "next_tick" (JInt (tick + 1))))).
  { apply emits_bind; [apply save_state_emits; exact I|intros _].
    apply IH. lia. }
  apply emits_bind.
  - apply emits_attempt.
    apply get_tick_transactions_emits_any; cbn; [lia|exact I].
  - intros [wraps|e].
    + apply emits_bind; [|intros _; exact Hclose].
      apply emits_for_each. intros wrap.
      apply (emits_weaken is_tx_event); [apply is_tx_event_in_range|].
      apply process_wrap_emits.
    + apply emits_bind; [apply emits_emit; cbn; lia|intros _; exact Hclose].
Qed.

(** X16.  A run of [scan] that starts at [tick] only asks the archiver for
    ticks from [tick] to [END_TICK], and only warns about such ticks: a tick
    before the saved progress is never fetched again, and no tick past the
    end is fetched. *)
Theorem scan_fetches_in_range (steps fuel : nat) (w : world)
    (d : list (string * json)) (tick : Z) :
  load_state w = (Val (JObj d), w) ->
  py_int (match dict_get d "next_tick" with
          | Some v => v
          | None => JInt START_TICK
          end) = Ret tick ->
  exists evs,
    trace (snd (scan steps fuel w)) = trace w ++ evs
    /\ (forall t, In (EvGet t) evs -> tick <= t <= END_TICK)
    /\ (forall t e, In (EvWarn t e) evs -> tick <= t <= END_TICK).
Proof.
  intros Hload Hint.
  rewrite (scan_on_object steps fuel w d tick Hload Hint).
  destruct (scan_loop_emits_in_range tick steps fuel tick d (Z.le_refl _) w)
    as [evs [Ht Hall]].
  exists evs. rewrite Forall_forall in Hall.
  split; [exact Ht|]. split.
  - intros t Hin. exact (Hall _ Hin).
  - intros t e Hin. exact (Hall _ Hin).
Qed.

Lemma get_tick_transactions_world (fuel : nat) (tick : Z) (w : world) :
  snd (get_tick_transactions fuel tick w) = snd (polite_get fuel tick 6 w)
  /\ (fst (polite_get fuel tick 6 w) = Pending ->
      fst (get_tick_transactions fuel tick w) = Pending).
Proof.
  unfold get_tick_transactions, bind.
  destruct (polite_get fuel tick 6 w) as [[r|e|] w1]; cbn [fst snd];
    [|split; [reflexivity|discriminate]|split; reflexivity].
  split; [|discriminate].
  destruct (response_json r) as [data|e]; [|reflexivity].
  cbn [lift ret].
  destruct (value_get data "transactions" JNull); reflexivity.
Qed.

(** A fetch that ends has asked for its tick. *)
Lemma get_tick_transactions_asks (fuel : nat) (tick : Z) (w : world) :
  fst (get_tick_transactions fuel tick w) <> Pending ->
  exists evs,
    trace (snd (get_tick_transactions fuel tick w)) = trace w ++ evs
    /\ In (EvGet tick) evs.
Proof.
  intros Hend.
  destruct (get_tick_transactions_world fuel tick w) as [Hw Hp].
  rewrite Hw. unfold polite_get in *.
  destruct (polite_get_loop_trace fuel tick 6 0 w) as [n [_ [_ [_ H]]]].
  cbv zeta in H.
  destruct (fst (polite_get_loop fuel tick 6 0 w)) eqn:E;
    [| |now elim Hend; apply Hp].
  - destruct H as [Ht _]. exists (retry_events tick n ++ [EvGet tick]).
    split; [exact Ht|]. apply in_or_app. right. now left.
  - destruct H as [Ht _]. exists (retry_events tick n ++ [EvGet tick]).
    split; [exact Ht|]. apply in_or_app. right. now left.
Qed.

Lemma scan_loop_asks_every_tick (fuel : nat) (steps : nat) :
  forall (tick : Z) (st : list (string * json)) (w : world),
    fst (scan_loop steps fuel tick st w) = Val tt ->
    exists evs,
      trace (snd (scan_loop steps fuel tick st w)) = trace w ++ evs
      /\ forall t, tick <= t <= END_TICK -> In (EvGet t) evs.
Proof.
  induction steps as [|steps IH]; intros tick st w Hdone.
  - cbn [scan_loop] in *.
    destruct (tick <=? END_TICK) eqn:E; [discriminate|].
    exists []. rewrite app_nil_r. split; [reflexivity|].
    intros t Ht. apply Z.leb_gt in E. lia.
  - destruct (Z.le_gt_cases tick END_TICK) as [Hle|Hgt].
    2:{ rewrite scan_loop_done by lia. exists []. rewrite app_nil_r.
        split; [reflexivity|]. intros t Ht. lia. }
    rewrite scan_loop_step in * by exact Hle. cbv zeta in *.
    set (st' := dict_set st "next_tick" (JInt (tick + 1))) in *.
    assert (Hclose : forall w2 evs2,
      trace w2 = trace w ++ evs2 -> In (EvGet tick) evs2 ->
      fst (scan_loop steps fuel (tick + 1) st' w2) = Val tt ->
      exists evs,
        trace (snd (scan_loop steps fuel (tick + 1) st' w2)) = trace w ++ evs
        /\ forall t, tick <= t <= END_TICK -> In (EvGet t) evs).
    { intros w2 evs2 Ht2 Hin Hd.
      destruct (IH (tick + 1) st' w2 Hd) as [evs [Ht Hall]].
      exists (evs2 ++ evs). split; [now rewrite Ht, Ht2, app_assoc|].
      intros t Hrange. apply in_or_app.
      destruct (Z.eq_dec t tick) as [->|Hne]; [now left|].
      right. apply Hall. lia. }
    pose proof (get_tick_transactions_asks fuel tick w) as Hask.
    destruct (get_tick_transactions fuel tick w) as [[wraps|e|] w1];
      cbn [fst snd] in Hask; [| |discriminate].
    + destruct Hask as [evs1 [Ht1 Hin1]]; [discriminate|].
      destruct (emits_for_each is_tx_event wraps (process_wrap tick)
                  (process_wrap_emits tick) w1) as [evs2 [Ht2 _]].
      destruct (for_each wraps (process_wrap tick) w1) as [[[]|e|] w2];
        cbn [snd] in Ht2; [|discriminate|discriminate].
      apply (Hclose _ (evs1 ++ evs2 ++ [EvSave (JObj st')])).
      * cbn [trace after_save set_state_file add_event].
        now rewrite Ht2, Ht1, <- !app_assoc.
      * apply in_or_app. now left.
      * exact Hdone.
    + destruct Hask as [evs1 [Ht1 Hin1]]; [discriminate|].
      apply (Hclose _ (evs1 ++ [EvWarn tick e; EvSave (JObj st')])).
      * cbn [trace after_save set_state_file add_event].
        now rewrite Ht1, <- !app_assoc.
      * apply in_or_app. now left.
      * exact Hdone.
Qed.

(** X17.  When [scan] returns, every tick from the one it started at to
    [END_TICK] has been asked for at least once: no tick of the range is
    left out, whether its fetch succeeded or failed. *)
Theorem scan_fetches_every_tick (steps fuel : nat) (w : world)
    (d : list (string * json)) (tick : Z) :
  load_state w = (Val (JObj d), w) ->
  py_int (match dict_get d "next_tick" with
          | Some v => v
          | None => JInt START_TICK
          end) = Ret tick ->
  fst (scan steps fuel w) = Val tt ->
  exists evs,
    trace (snd (scan steps fuel w)) = trace w ++ evs
    /\ forall t, tick <= t <= END_TICK -> In (EvGet t) evs.
Proof.
  intros Hload Hint.
  rewrite (scan_on_object steps fuel w d tick Hload Hint).
  apply scan_loop_asks_every_tick.
Qed.

End Coverage.

Lemma scan_fetches_in_range_witness :
  let cfg := config_of 5 6 1 in
  let rt := runtime_of network_down in
  let w := mkWorld (Holds (JObj [("next_tick"%string, JInt 6)])) Absent 0 [] in
  exists evs,
    trace (snd (scan 2 7 w)) = trace w ++ evs
    /\ (forall t, In (EvGet t) evs -> 6 <= t <= END_TICK)
    /\ (forall t e, In (EvWarn t e) evs -> 6 <= t <= END_TICK).
Proof.
  cbv zeta.
  apply (scan_fetches_in_range (cfg := config_of 5 6 1)
           (rt := runtime_of network_down) 2 7
           (mkWorld (Holds (JObj [("next_tick"%string, JInt 6)])) Absent 0 [])
           [("next_tick"%string, JInt 6)] 6).
  - reflexivity.
  - reflexivity.
Defined.

Lemma scan_fetches_every_tick_witness :
  let cfg := config_of 5 6 1 in
  let rt := runtime_of network_down in
  exists evs,
    trace (snd (scan 2 7 empty_world)) = trace empty_world ++ evs
    /\ forall t, 5 <= t <= END_TICK -> In (EvGet t) evs.
Proof.
  cbv zeta.
  apply (scan_fetches_every_tick (cfg := config_of 5 6 1)
           (rt := runtime_of network_down) 2 7 empty_world
           [("next_tick"%string, JInt 5)] 5).
  - reflexivity.
  - reflexivity.
  - reflexivity.
Defined.

(** ** What is recorded *)

Lemma decode_value_outputs (v : json) (outs : list (bytes * Z)) :
  decode_qutil_outputs v = Ret outs ->
  Forall (fun o => is_recipient (fst o) /\ 0 < snd o < 10 ^ 12) outs.
Proof.
  intros H.
  destruct v as [| | | |s| |]; try discriminate.
  destruct (unhexlify s) as [raw|e] eqn:Hs.
  - exact (proj1 (decode_outputs_layout s raw outs Hs H)).
  - unfold decode_qutil_outputs, unhexlify_value in H. rewrite Hs in H.
    destruct (is_binascii_error e); [|discriminate].
    injection H as <-. constructor.
Qed.

Lemma append_match_emits_any (P : event -> Prop) (rec : json) :
  P (EvAppend rec) -> emits P (append_match rec).
Proof.
  intros H w. exists [EvAppend rec].
  destruct (append_match_cases rec w) as [[e E]|[doc E]]; rewrite E; cbn;
    (split; [reflexivity|now constructor]).
Qed.

Section Records.

Context {cfg : Config} {rt : Runtime}.

Lemma record_output_emits_matches tick_no txid url (out : bytes * Z) :
  is_recipient (fst out) /\ 0 < snd out < 10 ^ 12 ->
  emits appends_matches (record_output tick_no txid url out).
Proof.
  destruct out as [pk amt]. cbn [fst snd]. intros [Hpk Hamt].
  unfold record_output.
  destruct (amt =? TARGET_AMOUNT) eqn:E; [|apply emits_ret].
  apply Z.eqb_eq in E.
  apply emits_bind; [apply now_emits|intros stamp].
  apply append_match_emits_any. cbn [appends_matches].
  unfold is_match_record. rewrite <- E.
  split; [reflexivity|]. split; [exact Hamt|].
  exists pk. split; [exact Hpk|reflexivity].
Qed.

Lemma process_wrap_emits_matches (tick : Z) (wrap : json) :
  emits appends_matches (process_wrap tick wrap).
Proof.
  unfold process_wrap.
  apply emits_bind; [apply emits_lift|intros inner]. cbn zeta.
  apply emits_bind; [apply emits_lift|intros skip].
  destruct skip; [apply emits_ret|].
  apply emits_bind; [apply emits_lift|intros input_type].
  destruct (_ || _); [apply emits_ret|].
  apply emits_bind; [apply emits_emit; exact I|intros _].
  destruct (decode_qutil_outputs
              (value_item (py_or inner (JObj [])) "inputHex"))
    as [outputs|e] eqn:Hdec; cbn [lift];
    [rewrite bind_ret|rewrite bind_raise; apply emits_raise].
  pose proof (decode_value_outputs _ _ Hdec) as Hwf.
  destruct outputs as [|o outputs]; [apply emits_ret|].
  apply emits_bind; [apply emits_lift|intros id1].
  apply emits_bind; [destruct (truthy id1); auto with scan|intros txid].
  apply emits_bind; [apply emits_lift|intros tick_no]. cbn zeta.
  eapply emits_for_each_Forall; [exact Hwf|].
  intros out Hout. now apply record_output_emits_matches.
Qed.

Lemma scan_loop_emits_matches (steps fuel : nat) :
  forall (tick : Z) (st : list (string * json)),
    emits appends_matches (scan_loop steps fuel tick st).
Proof.
  induction steps as [|steps IH]; intros tick st; cbn [scan_loop];
    destruct (tick <=? END_TICK); auto with scan.
  assert (Hclose : emits appends_matches
            (save_state (JObj (dict_set st "next_tick" (JInt (tick + 1)))) ;;;
             scan_loop steps fuel (tick + 1)
               (dict_set st "next_tick" (JInt (tick + 1))))).
  { apply emits_bind; [apply save_state_emits; exact I|intros _; apply IH]. }
  apply emits_bind.
  - apply emits_attempt.
    apply get_tick_transactions_emits_any; exact I.
  - intros [wraps|e].
    + apply emits_bind; [|intros _; exact Hclose].
      apply emits_for_each. intros wrap. apply process_wrap_emits_matches.
    + apply emits_bind; [apply emits_emit; exact I|intros _; exact Hclose].
Qed.

(** X18.  Every record a run of [scan] hands to [append_match] is a payout
    of exactly [TARGET_AMOUNT] to a 32-byte recipient, whose hex text is the
    [pubkey_hex] of the record; and a record is only ever appended when
    [TARGET_AMOUNT] is itself strictly between 0 and 10^12, since the
    decoder yields no other amounts. *)
Theorem scan_appends_only_matches (steps fuel : nat) (w : world) :
  exists evs,
    trace (snd (scan steps fuel w)) = trace w ++ evs
    /\ forall rec,
         In (EvAppend rec) evs ->
         value_item rec "amount" = JInt TARGET_AMOUNT
         /\ 0 < TARGET_AMOUNT < 10 ^ 12
         /\ exists pk, is_recipient pk
                       /\ value_item rec "pubkey_hex" = JStr (hexlify pk).
Proof.
  assert (H : emits appends_matches (scan steps fuel)).
  { unfold scan.
    apply emits_bind; [apply load_state_emits|intros state].
    apply emits_bind; [apply emits_lift|intros first].
    apply emits_bind; [apply emits_lift|intros tick].
    destruct state; auto with scan. apply scan_loop_emits_matches. }
  destruct (H w) as [evs [Ht Hall]].
  exists evs. split; [exact Ht|].
  intros rec Hin. rewrite Forall_forall in Hall. exact (Hall _ Hin).
Qed.

End Records.

(** ** The results file across a run *)

Lemma appends_app (a b : list event) :
  appends (a ++ b) = appends a ++ appends b.
Proof. unfold appends. apply flat_map_app. Qed.

Lemma appends_quiet (P : event -> Prop) (evs : list event) :
  (forall ev, P ev -> appends [ev] = []) -> Forall P evs -> appends evs = [].
Proof.
  intros HP. induction 1 as [|ev evs Hev _ IH]; [reflexivity|].
  change (ev :: evs) with ([ev] ++ evs).
  now rewrite appends_app, (HP ev Hev), IH.
Qed.

Lemma results_grow_refl (w : world) : results_grow w w.
Proof.
  exists []. rewrite app_nil_r. split; [reflexivity|].
  intros l H. cbn. now rewrite app_nil_r.
Qed.

Lemma results_grow_trans (w1 w2 w3 : world) :
  results_grow w1 w2 -> results_grow w2 w3 -> results_grow w1 w3.
Proof.
  intros [evs1 [Ht1 H1]] [evs2 [Ht2 H2]].
  exists (evs1 ++ evs2). split; [now rewrite Ht2, Ht1, app_assoc|].
  intros l Hl. rewrite appends_app, app_assoc.
  apply H2. now apply H1.
Qed.

Lemma grows_same {A : Type} (c : M A) :
  (forall w, snd (c w) = w) -> evolves results_grow c.
Proof. intros H w. rewrite H. apply results_grow_refl. Qed.

Lemma grows_bind {A B : Type} (c : M A) (k : A -> M B) :
  evolves results_grow c -> (forall a, evolves results_grow (k a)) ->
  evolves results_grow (bind c k).
Proof.
  intros Hc Hk w. unfold bind. specialize (Hc w).
  destruct (c w) as [[a|e|] w1]; cbn [snd] in *; [|exact Hc|exact Hc].
  eapply results_grow_trans; [exact Hc|apply Hk].
Qed.

Lemma grows_attempt {A : Type} (c : M A) :
  evolves results_grow c -> evolves results_grow (attempt c).
Proof.
  intros Hc w. unfold attempt. specialize (Hc w).
  destruct (c w) as [[a|e|] w1]; exact Hc.
Qed.

Lemma grows_for_each {A : Type} (l : list A) (body : A -> M unit) :
  (forall x, evolves results_grow (body x)) ->
  evolves results_grow (for_each l body).
Proof.
  intros Hb. induction l as [|x l IH]; cbn [for_each].
  - apply grows_same. reflexivity.
  - apply grows_bind; [apply Hb|intros _; exact IH].
Qed.

Lemma grows_lift {A : Type} (o : outcome A) : evolves results_grow (lift o).
Proof. apply grows_same. intros w. now destruct o. Qed.

(** A computation that appends nothing and keeps the results file. *)
Lemma grows_quiet {A : Type} (P : event -> Prop) (c : M A) :
  (forall ev, P ev -> appends [ev] = []) ->
  emits P c -> keeps results_file c -> evolves results_grow c.
Proof.
  intros HP He Hk w. destruct (He w) as [evs [Ht Hall]].
  exists evs. split; [exact Ht|].
  intros l Hl. rewrite (appends_quiet P evs HP Hall), app_nil_r.
  now rewrite Hk.
Qed.

Lemma grows_emit (ev : event) :
  appends [ev] = [] -> evolves results_grow (emit ev).
Proof.
  intros H. apply (grows_quiet (fun e => e = ev)).
  - now intros e ->.
  - now apply emits_emit.
  - apply keeps_emit_results_file.
Qed.

Lemma append_match_grows (rec : json) : evolves results_grow (append_match rec).
Proof.
  intros w. exists [EvAppend rec]. split.
  - destruct (append_match_cases rec w) as [[e E]|[doc E]]; rewrite E;
      reflexivity.
  - intros l Hl. now rewrite (append_match_step rec l w Hl).
Qed.

#[local] Hint Resolve grows_lift grows_attempt append_match_grows : scan.

Ltac step_grows :=
  repeat match goal with
         | |- evolves results_grow (bind _ _) => apply grows_bind; [|intros ?]
         | |- evolves results_grow (if ?b then _ else _) => destruct b
         | |- evolves results_grow (let '(_, _) := ?p in _) => destruct p
         | |- evolves results_grow (match ?o with [] => _ | _ :: _ => _ end) =>
             destruct o
         | |- evolves results_grow (for_each _ _) =>
             apply grows_for_each; intros ?
         | |- evolves results_grow (ret _) => apply grows_same; reflexivity
         | |- evolves results_grow (raise _) => apply grows_same; reflexivity
         | |- evolves results_grow now => apply grows_same; reflexivity
         | |- evolves results_grow (emit _) => apply grows_emit; reflexivity
         | |- _ => solve [auto with scan]
         end.

Section ResultsFile.

Context {cfg : Config} {rt : Runtime}.

Lemma process_wrap_grows (tick : Z) (wrap : json) :
  evolves results_grow (process_wrap tick wrap).
Proof. unfold process_wrap, record_output. step_grows. Qed.

Lemma get_tick_transactions_grows (fuel : nat) (tick : Z) :
  evolves results_grow (get_tick_transactions fuel tick).
Proof.
  apply (grows_quiet is_net_event).
  - intros [] H; try contradiction; reflexivity.
  - apply get_tick_transactions_emits.
  - apply get_tick_transactions_keeps;
      [exact session_get_keeps_results_file|exact keeps_emit_results_file].
Qed.

Lemma save_state_grows (st : json) : evolves results_grow (save_state st).
Proof.
  intros w. exists [EvSave st]. split; [reflexivity|].
  intros l Hl. cbn. now rewrite app_nil_r.
Qed.

Lemma scan_loop_grows (steps fuel : nat) :
  forall (tick : Z) (st : list (string * json)),
    evolves results_grow (scan_loop steps fuel tick st).
Proof.
  induction steps as [|steps IH]; intros tick st; cbn [scan_loop];
    destruct (tick <=? END_TICK); try (apply grows_same; reflexivity).
  apply grows_bind; [apply grows_attempt, get_tick_transactions_grows|].
  intros [wraps|e].
  - apply grows_bind;
      [apply grows_for_each; intros wrap; apply process_wrap_grows|intros _].
    apply grows_bind; [apply save_state_grows|intros _; apply IH].
  - apply grows_bind; [apply grows_emit; reflexivity|intros _].
    apply grows_bind; [apply save_state_grows|intros _; apply IH].
Qed.


(** X20.  The scan comes to an end.  When every status the archiver
    answers with is below 600, a scan that has started, with 7 requests
    allowed to each fetch and a step for each tick left, returns or raises:
    no fetch retries for ever and the loop over the ticks is bounded. *)
Theorem scan_ends (steps fuel : nat) (w : world) (d : list (string * json))
    (tick : Z) :
  (forall k r, net k = Reply r -> status_code r < 600) ->
  load_state w = (Val (JObj d), w) ->
  py_int (match dict_get d "next_tick" with
          | Some v => v
          | None => JInt START_TICK
          end) = Ret tick ->
  (7 <= fuel)%nat -> (Z.to_nat (END_TICK + 1 - tick) <= steps)%nat ->
  fst (scan steps fuel w) <> Pending.
Proof.
  intros Hnet Hload Hint Hfuel Hsteps.
  rewrite (scan_on_object steps fuel w d tick Hload Hint).
  now apply scan_loop_settles.
Qed.

End ResultsFile.


Lemma scan_ends_witness :
  fst (scan (cfg := demo_config)
         (rt := runtime_of (always 200 (Some demo_body))) 1 7 empty_world)
  <> Pending.
Proof.
  apply (scan_ends (cfg := demo_config)
           (rt := runtime_of (always 200 (Some demo_body))) 1 7 empty_world
           [("next_tick"%string, JInt 5)] 5).
  - intros k r H. injection H as <-. cbn. lia.
  - reflexivity.
  - reflexivity.
  - lia.
  - cbn. lia.
Defined.
